(** * jwt-middleware: claim requirements, key cache and validation pipeline

    A shallow embedding of the Go package [jwt_middleware] (file [jwt.go])
    and the properties of its requirement engine, key cache and per-request
    validation pipeline.

    Conventions of the embedding:
    - a Go [string] is a Rocq [string]; one [ascii] stands for one
      character, so the string functions below are exact on ASCII text;
    - a Go [any] holding a decoded JSON or YAML value is the inductive
      type [any]; a [map[string]any] inside such a value is an association
      list with pairwise distinct keys, the plugin's own maps are [gmap]s;
    - [int64] values are [Z] with the wrap-around written out ([wrap64]);
    - a Go panic is the [Panic] result of the [result] monad;
    - [range] over a Go map visits the entries in an unspecified order:
      functions that range over a map take the order as an argument or are
      proved independent of it. *)

From Stdlib Require Import ZArith QArith String Ascii List Bool Lia.
From Stdlib Require Import Floats.SpecFloat.
From stdpp Require Import base option list gmap strings fin_maps.

Open Scope string_scope.
Open Scope Z_scope.

(** ** Go strings *)

Module GoString.

Definition chars (s : string) : list ascii := list_ascii_of_string s.

(** The character list [s] starts with [p]. *)
Fixpoint has_prefix (p s : list ascii) : bool :=
  match p, s with
  | [], _ => true
  | a :: p', b :: s' => Ascii.eqb a b && has_prefix p' s'
  | _ :: _, [] => false
  end.

(** [strings.HasSuffix]. *)
Definition HasSuffix (s suffix : string) : bool :=
  has_prefix (rev (chars suffix)) (rev (chars s)).

(** [strings.Contains]: some suffix of [s] starts with [sub]. *)
Fixpoint contains (sub s : list ascii) : bool :=
  has_prefix sub s ||
  match s with
  | [] => false
  | _ :: s' => contains sub s'
  end.

Definition Contains (s sub : string) : bool := contains (chars sub) (chars s).

(** ASCII lower-casing, the folding [strings.EqualFold] does on ASCII. *)
Definition to_lower (c : ascii) : ascii :=
  let n := nat_of_ascii c in
  if (Nat.leb 65 n && Nat.leb n 90)%bool then ascii_of_nat (n + 32) else c.

Fixpoint equal_fold (s t : list ascii) : bool :=
  match s, t with
  | [], [] => true
  | a :: s', b :: t' => Ascii.eqb (to_lower a) (to_lower b) && equal_fold s' t'
  | _, _ => false
  end.

Definition EqualFold (s t : string) : bool := equal_fold (chars s) (chars t).

(** The slices [s[:n]] and [s[n:]]. *)
Definition take (n : nat) (s : string) : string := String.substring 0 n s.
Definition drop (n : nat) (s : string) : string :=
  String.substring n (String.length s - n) s.

End GoString.

(** ** Results of code that may panic *)

Inductive result (A : Type) : Type :=
| Ok (a : A)
| Panic.
Arguments Ok {A} a.
Arguments Panic {A}.

#[global] Instance result_ret : MRet result := fun A a => Ok a.
#[global] Instance result_bind : MBind result := fun A B k r =>
  match r with
  | Ok a => k a
  | Panic => Panic
  end.

(** ** Numbers *)

(** Two's complement wrap-around of [int64] arithmetic. *)
Definition wrap64 (z : Z) : Z := (z + 2 ^ 63) mod 2 ^ 64 - 2 ^ 63.

Definition in_int64 (z : Z) : bool := (- 2 ^ 63 <=? z) && (z <=? 2 ^ 63 - 1).

Module Strconv.

Definition digit (c : ascii) : option Z :=
  let n := nat_of_ascii c in
  if (Nat.leb 48 n && Nat.leb n 57)%bool then Some (Z.of_nat n - 48) else None.

(** The value of a non-empty run of decimal digits, most significant
    first; [None] on any other character. *)
Fixpoint digits (acc : Z) (s : list ascii) : option Z :=
  match s with
  | [] => Some acc
  | c :: s' =>
      match digit c with
      | Some d => digits (10 * acc + d) s'
      | None => None
      end
  end.

Definition unsigned (s : list ascii) : option Z :=
  match s with
  | [] => None
  | _ => digits 0 s
  end.

(** [strconv.ParseInt(s, 10, 64)]: an optional sign, then decimal digits
    only; a syntax error or a value outside [int64] is an error. *)
Definition ParseInt (s : string) : option Z :=
  match GoString.chars s with
  | [] => None
  | c :: rest =>
      let '(neg, body) :=
        if Ascii.eqb c "+" then (false, rest)
        else if Ascii.eqb c "-" then (true, rest)
        else (false, c :: rest) in
      match unsigned body with
      | None => None
      | Some un =>
          if negb neg && (2 ^ 63 <=? un) then None
          else if neg && (2 ^ 63 <? un) then None
          else Some (if neg then - un else un)
      end
  end.

(** The mantissa of a decimal literal: digits with at most one point.
    Returns the digits read as an integer, the number of digits after
    the point, whether a digit was seen and the unread rest. *)
Fixpoint mantissa (acc : Z) (frac : Z) (sawdot sawdigits : bool)
    (s : list ascii) : Z * Z * bool * list ascii :=
  match s with
  | [] => (acc, frac, sawdigits, [])
  | c :: s' =>
      if Ascii.eqb c "." then
        if sawdot then (acc, frac, sawdigits, s)
        else mantissa acc frac true sawdigits s'
      else
        match digit c with
        | Some d =>
            mantissa (10 * acc + d) (if sawdot then frac + 1 else frac)
              sawdot true s'
        | None => (acc, frac, sawdigits, s)
        end
  end.

(** The exponent part of a decimal literal ([e] or [E], an optional sign,
    at least one digit), or 0 when the literal has none. *)
Definition exponent (s : list ascii) : option Z :=
  match s with
  | [] => Some 0
  | c :: s' =>
      if Ascii.eqb c "e" || Ascii.eqb c "E" then
        match s' with
        | [] => None
        | d :: s'' =>
            if Ascii.eqb d "+" then unsigned s''
            else if Ascii.eqb d "-" then Z.opp <$> unsigned s''
            else unsigned s'
        end
      else None
  end.

Definition prec : Z := 53.
Definition emax : Z := 1024.

(** A decimal literal: an optional sign, the mantissa, an optional
    exponent and nothing else. Returns the sign, the digits of the
    mantissa read as an integer [m] and the decimal exponent [e] of its
    last digit: the literal denotes [m * 10 ^ e]. *)
Definition literal (s : string) : option (bool * Z * Z) :=
  match GoString.chars s with
  | [] => None
  | c :: rest =>
      let '(neg, body) :=
        if Ascii.eqb c "+" then (false, rest)
        else if Ascii.eqb c "-" then (true, rest)
        else (false, c :: rest) in
      let '(m, frac, sawdigits, rest') := mantissa 0 0 false false body in
      if negb sawdigits then None
      else
        match exponent rest' with
        | None => None
        | Some e => Some (neg, m, e - frac)
        end
  end.

(** The rational number a decimal literal denotes. *)
Definition decimal (s : string) : option Q :=
  match literal s with
  | None => None
  | Some (neg, m, e) =>
      let q :=
        if 0 <=? e then inject_Z (m * 10 ^ e)
        else Qmake m (Z.to_pos (10 ^ (- e))) in
      Some (if neg then Qopp q else q)
  end.

(** [strconv.ParseFloat(s, 64)] on decimal literals, the only ones a JSON
    decoder hands over as a [json.Number]: the number the literal
    denotes is rounded to the nearest binary64 value, ties to even; a
    malformed literal or a value that rounds to an infinity is an
    error. *)
Definition ParseFloat (s : string) : option spec_float :=
  match literal s with
  | None => None
  | Some (neg, m, e) =>
      match m with
      | Z.pos _ =>
          let num := Z.to_pos (m * 10 ^ Z.max e 0) in
          let den := Z.to_pos (10 ^ Z.max (- e) 0) in
          match SFdiv prec emax (S754_finite neg num 0)
                  (S754_finite false den 0) with
          | S754_infinity _ => None
          | f => Some f
          end
      | _ => Some (S754_zero neg)
      end
  end.

End Strconv.

(** ** Shell patterns: [fnmatch.Match(pattern, s, 0)]

    The dependency [github.com/danwakefield/fnmatch] follows BSD
    [fnmatch(3)]. With no flag set: [?] matches one character, [*] any run
    of characters, [[...]] a bracket expression (negated by a leading [!]
    or [^], with ranges [a-z]), a backslash quotes the next character, and
    every other character matches itself. *)

Module Fnmatch.

Definition is_char (c : ascii) (d : string) : bool :=
  match d with
  | String d' EmptyString => Ascii.eqb c d'
  | _ => false
  end.
#[global] Arguments is_char : simpl never.

Definition rune_le (a b : ascii) : bool :=
  Nat.leb (nat_of_ascii a) (nat_of_ascii b).

(** The first loop of [rangematch]: runs while nothing matched, more
    than one character is left and the next one is not the closing
    bracket. [None] is the early [return false]. *)
Fixpoint range_scan (fuel : nat) (test : ascii) (p : list ascii)
    : option (bool * list ascii) :=
  match fuel with
  | O => Some (false, p)
  | S fuel' =>
      match p with
      | c :: ((_ :: _) as p1) =>
          if is_char c "]" then Some (false, p)
          else
            let escaped :=
              if is_char c "\" then
                match p1 with
                | c' :: ((_ :: _) as p2) => Some (c', p2)
                | _ => None
                end
              else Some (c, p1) in
            match escaped with
            | None => None
            | Some (c, q) =>
                match q with
                | dash :: ((c2 :: q2) as q1) =>
                    if is_char dash "-" && negb (is_char c2 "]") then
                      let upper :=
                        if is_char c2 "\" then
                          match q2 with
                          | c2' :: q3 => Some (c2', q3)
                          | [] => None
                          end
                        else Some (c2, q2) in
                      match upper with
                      | None => None
                      | Some (c2, q') =>
                          if rune_le c test && rune_le test c2
                          then Some (true, q')
                          else range_scan fuel' test q'
                      end
                    else if Ascii.eqb c test then Some (true, q)
                    else range_scan fuel' test q
                | _ =>
                    if Ascii.eqb c test then Some (true, q)
                    else range_scan fuel' test q
                end
            end
      | _ => Some (false, p)
      end
  end.

(** The second loop of [rangematch]: skip to the closing bracket. *)
Fixpoint range_skip (p : list ascii) : option (list ascii) :=
  match p with
  | [] => None
  | c :: p1 =>
      if is_char c "\" then
        match p1 with
        | [] => None
        | _ :: p2 => range_skip p2
        end
      else if is_char c "]" then Some p1
      else range_skip p1
  end.

(** [rangematch(&pattern, test, 0)]: the rest of the pattern when the
    bracket expression accepts [test], [None] when it returns false. *)
Definition rangematch (test : ascii) (p : list ascii) : option (list ascii) :=
  match p with
  | [] => None
  | c :: p1 =>
      let '(negate, q) :=
        if is_char c "^" || is_char c "!" then (true, p1) else (false, p) in
      match range_scan (length q) test q with
      | None => None
      | Some (matched, q') =>
          match range_skip q' with
          | None => None
          | Some rest => if xorb matched negate then Some rest else None
          end
      end
  end.

Fixpoint drop_stars (p : list ascii) : list ascii :=
  match p with
  | c :: p' => if is_char c "*" then drop_stars p' else p
  | [] => []
  end.

(** The loop [for test := s; len(test) > 0; unpackRune(&test)] of the
    [*] case: try the rest of the pattern on every non-empty suffix. *)
Fixpoint try_suffixes (f : list ascii -> bool) (test : list ascii) : bool :=
  match test with
  | [] => false
  | _ :: test' => f test || try_suffixes f test'
  end.

(** The loop of [Match]; every recursive call is on a shorter pattern,
    which [fuel] counts. *)
Fixpoint match_fuel (fuel : nat) (p s : list ascii) : bool :=
  match fuel with
  | O => false
  | S fuel' =>
      match p with
      | [] => match s with [] => true | _ => false end
      | c :: p1 =>
          if is_char c "?" then
            match s with
            | [] => false
            | _ :: s1 => match_fuel fuel' p1 s1
            end
          else if is_char c "*" then
            match drop_stars p1 with
            | [] => true
            | p2 => try_suffixes (match_fuel fuel' p2) s
            end
          else if is_char c "[" then
            match s with
            | [] => false
            | sc :: s1 =>
                match rangematch sc p1 with
                | None => false
                | Some p2 => match_fuel fuel' p2 s1
                end
            end
          else
            let '(c', p2) :=
              if is_char c "\" then
                match p1 with
                | d :: p2 => (d, p2)
                | [] => (c, p1)
                end
              else (c, p1) in
            match s with
            | [] => false
            | sc :: s1 => Ascii.eqb sc c' && match_fuel fuel' p2 s1
            end
      end
  end.

Definition Match (pattern s : string) : bool :=
  let p := GoString.chars pattern in
  match_fuel (S (length p)) p (GoString.chars s).

End Fnmatch.

(** ** Values held in a Go [any]

    Claims are decoded from JSON with [UseNumber], so a claim is [Nil],
    a [Bool], a [Number], a [Str], a [Slice] or a [Map]; requirement values
    come from the configuration and may also be an [Int] or a [Float64]. *)

#[warnings="-register-all"]
Inductive any : Type :=
| Nil                              (* the nil interface, JSON null *)
| Bool (b : bool)
| Int (i : Z)                      (* int *)
| Float64 (f : spec_float)         (* float64 *)
| Number (n : string)              (* json.Number *)
| Str (s : string)                 (* string *)
| Slice (l : list any)             (* []any *)
| Map (m : list (string * any)).   (* map[string]any *)

(** Indexing a [map[string]any]. *)
Fixpoint assoc {A : Type} (k : string) (m : list (string * A)) : option A :=
  match m with
  | [] => None
  | (k', v) :: m' => if String.eqb k k' then Some v else assoc k m'
  end.

Definition float64_eq (a b : spec_float) : bool :=
  SFeqb a b.

(** [reflect.DeepEqual] on two [any]: the dynamic types must agree; slices
    are equal when they have the same length and deeply equal elements in
    order; maps when they have the same length and every key of the first
    is bound in the second to a deeply equal value. *)
Fixpoint DeepEqual (x y : any) {struct x} : bool :=
  match x, y with
  | Nil, Nil => true
  | Bool a, Bool b => Bool.eqb a b
  | Int a, Int b => a =? b
  | Float64 a, Float64 b => float64_eq a b
  | Number a, Number b => String.eqb a b
  | Str a, Str b => String.eqb a b
  | Slice l1, Slice l2 =>
      (fix elements (l1 l2 : list any) : bool :=
         match l1, l2 with
         | [], [] => true
         | a :: l1', b :: l2' => DeepEqual a b && elements l1' l2'
         | _, _ => false
         end) l1 l2
  | Map m1, Map m2 =>
      Nat.eqb (length m1) (length m2) &&
      (fix entries (m : list (string * any)) : bool :=
         match m with
         | [] => true
         | (k, v) :: m' =>
             match assoc k m2 with
             | Some w => DeepEqual v w
             | None => false
             end && entries m'
         end) m1
  | _, _ => false
  end.

(** ** Requirements *)

(** TemplateVariables are the per-request variables passed to templates. *)
Abbreviation TemplateVariables := (gmap string string).

(** A parsed [html/template] with [missingkey=error]: executing it on the
    variables gives the expanded text, or fails. *)
Record Template : Type := { Execute : TemplateVariables -> option string }.

(** ValueRequirement is a requirement for a claim that is a known value. *)
Record ValueRequirement : Type := {
  value : any;
  nested : any
}.

(** TemplateRequirement is a requirement whose value is interpolated per
    request. *)
Record TemplateRequirement : Type := {
  template : Template;
  template_nested : any
}.

(** The two implementations of the [Requirement] interface. *)
Inductive Requirement : Type :=
| OfValue (r : ValueRequirement)
| OfTemplate (r : TemplateRequirement).

(** ClaimRequirements is a list of satisfying requirements for a claim. *)
Abbreviation ClaimRequirements := (list Requirement).

(** Requirements is a map of claim to the requirements for that claim. *)
Abbreviation Requirements := (gmap string (list Requirement)).

Abbreviation MapClaims := (gmap string any).

(** [ValueRequirement.ValidateNested]: a nil nested requirement accepts
    everything; otherwise requirement and value are turned into slices
    (the type switch on the value has the cases [[]any] and [any], neither
    of which selects a nil interface) and any pair of deeply equal
    elements validates. *)
Definition ValidateNested (requirement : ValueRequirement) (v : any) : bool :=
  match nested requirement with
  | Nil => true
  | n =>
      let required := match n with Slice l => l | _ => [n] end in
      let supplied :=
        match v with
        | Slice l => l
        | Nil => []
        | _ => [v]
        end in
      existsb (fun r => existsb (fun s => DeepEqual r s) supplied) required
  end.

(** The [case string] of [ValueRequirement.Validate]; the claim value is
    the pattern and the requirement the text it is matched against. *)
Definition ValidateString (requirement : ValueRequirement) (s : string) : bool :=
  match value requirement with
  | Str required =>
      Fnmatch.Match s required || String.eqb s ("*." +:+ required)
  | _ => false
  end.

(** The [case json.Number] of [ValueRequirement.Validate]. *)
Definition ValidateNumber (requirement : ValueRequirement) (n : string) : bool :=
  match value requirement with
  | Int i =>
      match Strconv.ParseInt n with
      | Some converted => converted =? i
      | None => false
      end
  | Float64 f =>
      match Strconv.ParseFloat n with
      | Some converted => float64_eq converted f
      | None => false
      end
  | _ => false
  end.

(** [ValueRequirement.Validate]. The variables are passed on and ignored.
    A slice or a map that no element satisfies leaves the switch and is
    compared with the requirement by [DeepEqual], like the values of the
    remaining types. *)
Fixpoint ValueRequirement_Validate (requirement : ValueRequirement) (v : any)
    (variables : TemplateVariables) {struct v} : bool :=
  match v with
  | Slice l =>
      existsb (fun e => ValueRequirement_Validate requirement e variables) l
      || DeepEqual v (value requirement)
  | Map m =>
      existsb (fun '(key, n) =>
                 ValidateString requirement key && ValidateNested requirement n) m
      || DeepEqual v (value requirement)
  | Str s => ValidateString requirement s
  | Number n => ValidateNumber requirement n
  | _ => DeepEqual v (value requirement)
  end.

(** [TemplateRequirement.Validate] interpolates the template and delegates
    to [ValueRequirement.Validate]. *)
Definition TemplateRequirement_Validate (requirement : TemplateRequirement)
    (v : any) (variables : TemplateVariables) : bool :=
  match Execute (template requirement) variables with
  | None => false
  | Some text =>
      ValueRequirement_Validate
        {| value := Str text; nested := template_nested requirement |}
        v variables
  end.

(** The method [Validate] of the interface. *)
Definition Validate (requirement : Requirement) (v : any)
    (variables : TemplateVariables) : bool :=
  match requirement with
  | OfValue r => ValueRequirement_Validate r v variables
  | OfTemplate r => TemplateRequirement_Validate r v variables
  end.

(** [ClaimRequirements.validate]: any match satisfies (OR). *)
Fixpoint ClaimRequirements_validate (requirements : ClaimRequirements)
    (v : any) (variables : TemplateVariables) : bool :=
  match requirements with
  | [] => false
  | requirement :: rest =>
      if Validate requirement v variables then true
      else ClaimRequirements_validate rest v variables
  end.

(** [validateClaims] ranging over the entries of [plugin.require] in the
    order [entries]: the error of the first claim that is absent or not
    valid, [None] for the nil error. *)
Fixpoint validateClaims_in (entries : list (string * ClaimRequirements))
    (claims : MapClaims) (variables : TemplateVariables) : option string :=
  match entries with
  | [] => None
  | (claim, requirements) :: rest =>
      match claims !! claim with
      | None => Some ("claim is not present: " +:+ claim)
      | Some v =>
          if ClaimRequirements_validate requirements v variables
          then validateClaims_in rest claims variables
          else Some ("claim is not valid: " +:+ claim)
      end
  end.

(** ** Building the requirements from the configuration *)

Section Construction.

(** [template.New("template").Option("missingkey=error").Parse(text)]:
    the parsed template, or [None] when the text does not parse. *)
Variable Parse : string -> option Template.

(** [NewRequirement] creates a Requirement of the correct type from the
    given value and any nested value. [template.Must] panics on a text
    that does not parse. *)
Definition NewRequirement (v : any) (n : any) : result Requirement :=
  match v with
  | Str text =>
      if GoString.Contains text "{{" && GoString.Contains text "}}" then
        match Parse text with
        | Some t => Ok (OfTemplate {| template := t; template_nested := n |})
        | None => Panic
        end
      else Ok (OfValue {| value := v; nested := n |})
  | _ => Ok (OfValue {| value := v; nested := n |})
  end.

(** The requirements of one claim: one per element of a list, one per
    entry of a map (the key with the entry's value nested), or a single
    one for any other value. *)
Definition convertClaim (v : any) : result ClaimRequirements :=
  match v with
  | Slice l => mapM (fun e => NewRequirement e Nil) l
  | Map m => mapM (fun '(key, n) => NewRequirement (Str key) n) m
  | _ => requirement ← NewRequirement v Nil; Ok [requirement]
  end.

(** [convertRequire] converts the require configuration, given as the
    entries of the Go map in the order [range] yields them. *)
Definition convertRequire (require : list (string * any)) : result Requirements :=
  foldl (fun acc '(key, v) =>
           requirements ← acc;
           claimRequirements ← convertClaim v;
           Ok (<[key := claimRequirements]> requirements))
        (Ok ∅) require.

End Construction.

(** ** The plugin *)

(** Key material held in an [any]: nil, a public key or a shared secret. *)
Inductive Key : Type :=
| NoKey
| RSAPublicKey (n e : Z)
| ECDSAPublicKey (curve : string) (x y : Z)
| HMACSecret (secret : string).

#[global] Instance Key_eq_dec : EqDecision Key := ltac:(solve_decision).

(** The fields of [JWTPlugin] that validation reads or writes. *)
Record JWTPlugin : Type := {
  secret : Key;
  issuers : list string;
  require : Requirements;
  keys : gmap string Key;
  issuerKeys : gmap string (gmap string Key);
  optional : bool;
  cookieName : string;
  headerName : string;
  parameterName : string;
  forwardToken : bool;
  freshness : Z
}.

Definition set_cache (plugin : JWTPlugin) (ks : gmap string Key)
    (iks : gmap string (gmap string Key)) : JWTPlugin :=
  {| secret := secret plugin; issuers := issuers plugin;
     require := require plugin; keys := ks; issuerKeys := iks;
     optional := optional plugin; cookieName := cookieName plugin;
     headerName := headerName plugin; parameterName := parameterName plugin;
     forwardToken := forwardToken plugin; freshness := freshness plugin |}.

(** [validateClaims] validates all claims against their requirements. *)
Definition validateClaims (plugin : JWTPlugin) (claims : MapClaims)
    (variables : TemplateVariables) : option string :=
  validateClaims_in (map_to_list (require plugin)) claims variables.

(** [json.Number.Int64]. *)
Definition Number_Int64 (n : string) : option Z := Strconv.ParseInt n.

(** [allowRefresh] returns true if a freshness window is configured and
    the token has an iat claim that is older than the window; [now] is
    [time.Now().Unix()]. The type assertion on the claim is unchecked. *)
Definition allowRefresh (plugin : JWTPlugin) (now : Z) (claims : MapClaims)
    : result bool :=
  if freshness plugin =? 0 then Ok false
  else
    match claims !! "iat" with
    | None => Ok false
    | Some (Number iat) =>
        match Number_Int64 iat with
        | Some v => Ok (wrap64 (now - v) >? freshness plugin)
        | None => Ok false
        end
    | Some _ => Panic
    end.

(** ** The key cache *)

(** [canonicalizeDomain] adds a trailing slash to the domain. *)
Definition canonicalizeDomain (domain : string) : string :=
  if GoString.HasSuffix domain "/" then domain else domain +:+ "/".

(** [isValidIssuer]: some allowed issuer, as a pattern, matches. *)
Definition isValidIssuer (plugin : JWTPlugin) (issuer : string) : bool :=
  existsb (fun allowed => Fnmatch.Match allowed issuer) (issuers plugin).

(** [internalIssuerKeys] returns a dummy keyset for the keys in
    [config.Secrets]. *)
Definition internalIssuerKeys {A : Type} (secrets : gmap string A)
    : gmap string Key :=
  (fun _ => NoKey) <$> secrets.

(** [isIssuedKey] returns true if the key exists in the issuerKeys map. *)
Definition isIssuedKey (iks : gmap string (gmap string Key)) (keyID : string)
    : bool :=
  existsb (fun '(_, ks) => bool_decide (is_Some (ks !! keyID)))
          (map_to_list iks).

(** The loop of [purgeKeys] over the key IDs in the order [order]: a key
    ID that no issuer holds is deleted. *)
Definition purge_loop (iks : gmap string (gmap string Key))
    (order : list string) (ks : gmap string Key) : gmap string Key :=
  foldl (fun acc keyID => if isIssuedKey iks keyID then acc else delete keyID acc)
        ks order.

(** [purgeKeys] purges all keys from [plugin.keys] that are not in the
    issuerKeys map. *)
Definition purgeKeys (plugin : JWTPlugin) : JWTPlugin :=
  set_cache plugin
    (purge_loop (issuerKeys plugin) (map_to_list (keys plugin)).*1 (keys plugin))
    (issuerKeys plugin).

(** The loop [for keyID, key := range jwks] of [fetchKeys]. *)
Definition store_loop (entries : list (string * Key)) (ks : gmap string Key)
    : gmap string Key :=
  foldl (fun acc '(keyID, key) => <[keyID := key]> acc) ks entries.

(** The part of [fetchKeys] that runs under the write lock: add the
    fetched keys, record them for the URL they came from, purge. *)
Definition storeKeys (plugin : JWTPlugin) (url : string)
    (jwks : gmap string Key) : JWTPlugin :=
  purgeKeys (set_cache plugin (store_loop (map_to_list jwks) (keys plugin))
                       (<[url := jwks]> (issuerKeys plugin))).

(** What the issuers answer: the outcome of [FetchOpenIDConfiguration]
    (the [jwks_uri] of the document) and of [FetchJWKS] (the decoded keys)
    for a URL; [inl] carries the error. *)
Record Network : Type := {
  FetchOpenIDConfiguration : string -> string + string;
  FetchJWKS : string -> string + gmap string Key
}.

(** [fetchKeys] fetches the keys of the issuer and adds them to the
    cache; returns the plugin and the error. *)
Definition fetchKeys (net : Network) (plugin : JWTPlugin) (issuer : string)
    : JWTPlugin * option string :=
  let configURL := issuer +:+ ".well-known/openid-configuration" in
  let url :=
    match FetchOpenIDConfiguration net configURL with
    | inl _ => issuer +:+ ".well-known/jwks.json"
    | inr jwks_uri => jwks_uri
    end in
  match FetchJWKS net url with
  | inl err => (plugin, Some err)
  | inr jwks => (storeKeys plugin url jwks, None)
  end.

(** ** Key resolution *)

(** The parts of a [jwt.Token] that [getKey] reads. *)
Record Token : Type := {
  Header : gmap string any;
  Claims : MapClaims
}.

(** What [getKey] does to the cache and to the issuers, in order. *)
Inductive Event : Type :=
| Lookup (kid : string)
| Fetch (issuer : string).

(** The variables of the loop of [getKey], with the trace so far. *)
Record LoopState : Type := {
  loop_plugin : JWTPlugin;
  loop_err : option string;
  loop_refreshed : string;
  loop_trace : list Event
}.

(** How one pass through the loop body ends. *)
Inductive Step : Type :=
| Return (key : Key) (st : LoopState)
| Break (st : LoopState)
| Continue (st : LoopState).

Definition log (e : Event) (st : LoopState) : LoopState :=
  {| loop_plugin := loop_plugin st; loop_err := loop_err st;
     loop_refreshed := loop_refreshed st;
     loop_trace := loop_trace st ++ [e] |}.

(** The body of the loop of [getKey]. The type assertion on [kid] is
    unchecked. *)
Definition getKey_body (net : Network) (token : Token) (kid : any)
    (looped : bool) (st : LoopState) : result Step :=
  match kid with
  | Str id =>
      let st := log (Lookup id) st in
      match keys (loop_plugin st) !! id with
      | Some key => Ok (Return key st)
      | None =>
          if looped then Ok (Break st)
          else
            match Claims token !! "iss" with
            | Some (Str iss) =>
                let issuer := canonicalizeDomain iss in
                if isValidIssuer (loop_plugin st) issuer then
                  let st := log (Fetch issuer) st in
                  let '(plugin', err) := fetchKeys net (loop_plugin st) issuer in
                  Ok (Continue
                        {| loop_plugin := plugin'; loop_err := err;
                           loop_refreshed :=
                             match err with
                             | None => issuer
                             | Some _ => loop_refreshed st
                             end;
                           loop_trace := loop_trace st |})
                else
                  Ok (Continue
                        {| loop_plugin := loop_plugin st;
                           loop_err :=
                             Some ("issuer " +:+ issuer +:+ " is not valid");
                           loop_refreshed := loop_refreshed st;
                           loop_trace := loop_trace st |})
            | _ => Ok (Break st)
            end
      end
  | _ => Panic
  end.

(** The loop [for looped := false; ; looped = true]: [Some] of how it was
    left, [None] when [fuel] passes did not leave it. *)
Fixpoint getKey_loop (fuel : nat) (net : Network) (token : Token) (kid : any)
    (looped : bool) (st : LoopState) : result (option (option Key * LoopState)) :=
  match fuel with
  | O => Ok None
  | S fuel' =>
      step ← getKey_body net token kid looped st;
      match step with
      | Return key st' => Ok (Some (Some key, st'))
      | Break st' => Ok (Some (None, st'))
      | Continue st' => getKey_loop fuel' net token kid true st'
      end
  end.

(** What a call of [getKey] leaves behind and returns: the plugin with the
    cache as the call left it, the trace of the call, the key and the
    error. *)
Record KeyResult : Type := {
  result_plugin : JWTPlugin;
  result_trace : list Event;
  result_key : Key;
  result_err : option string
}.

(** The end of [getKey]: fall back to any fixed secret or return the
    error. *)
Definition fallback (st : LoopState) : KeyResult :=
  if decide (secret (loop_plugin st) = NoKey) then
    {| result_plugin := loop_plugin st; result_trace := loop_trace st;
       result_key := NoKey; result_err := loop_err st |}
  else
    {| result_plugin := loop_plugin st; result_trace := loop_trace st;
       result_key := secret (loop_plugin st); result_err := None |}.

(** The variables on entry: [err] is "no secret configured". *)
Definition entry (plugin : JWTPlugin) : LoopState :=
  {| loop_plugin := plugin; loop_err := Some "no secret configured";
     loop_refreshed := ""; loop_trace := [] |}.

(** [getKey] gets the key for the key ID of the token from the cache,
    refreshing the keys of a valid issuer when the key is not present. The
    result is [Ok None] when [fuel] passes through the loop are not
    enough. *)
Definition getKey_fuel (fuel : nat) (net : Network) (plugin : JWTPlugin)
    (token : Token) : result (option KeyResult) :=
  let st := entry plugin in
  if negb (Nat.eqb (length (issuers plugin)) 0)
     || negb (Nat.eqb (size (keys plugin)) 0) then
    match Header token !! "kid" with
    | Some kid =>
        left ← getKey_loop fuel net token kid false st;
        match left with
        | None => Ok None
        | Some (Some key, st') =>
            Ok (Some {| result_plugin := loop_plugin st';
                        result_trace := loop_trace st';
                        result_key := key; result_err := None |})
        | Some (None, st') => Ok (Some (fallback st'))
        end
    | None => Ok (Some (fallback st))
    end
  else Ok (Some (fallback st)).

(** [getKey]: the loop is entered with room for two passes, which is all
    it ever takes ([getKey_fuel_enough]). *)
Definition getKey (net : Network) (plugin : JWTPlugin) (token : Token)
    : result (option KeyResult) :=
  getKey_fuel 2 net plugin token.

(** ** Extracting the token from the request *)

Module Textproto.

(** [validHeaderFieldByte]: the token characters of RFC 7230. *)
Definition validHeaderFieldByte (c : ascii) : bool :=
  let n := nat_of_ascii c in
  (Nat.leb 48 n && Nat.leb n 57) || (Nat.leb 65 n && Nat.leb n 90)
  || (Nat.leb 97 n && Nat.leb n 122)
  || GoString.contains [c] (GoString.chars "!#$%&'*+-.^_`|~").

(** Upper case for the first letter and after each dash, lower case
    elsewhere. *)
Fixpoint canonical (upper : bool) (a : list ascii) : list ascii :=
  match a with
  | [] => []
  | c :: a' =>
      let n := nat_of_ascii c in
      let c' :=
        if upper && (Nat.leb 97 n && Nat.leb n 122) then ascii_of_nat (n - 32)
        else if negb upper && (Nat.leb 65 n && Nat.leb n 90)
             then ascii_of_nat (n + 32)
        else c in
      c' :: canonical (Ascii.eqb c' "-") a'
  end.

(** [textproto.CanonicalMIMEHeaderKey]: a key with a character that is
    not valid in a header field is returned unchanged. *)
Definition CanonicalMIMEHeaderKey (s : string) : string :=
  if forallb validHeaderFieldByte (GoString.chars s)
  then string_of_list_ascii (canonical true (GoString.chars s))
  else s.

End Textproto.

(** The parts of an [http.Request] that carry the token: the cookies as
    [request.Cookies()] parses them, the header map (cookies apart) and the
    query as [request.URL.Query()] parses it. *)
Record Request : Type := {
  Cookies : list (string * string);
  HeaderMap : gmap string (list string);
  Query : gmap string (list string)
}.

(** [extractTokenFromCookie]: the value of the first cookie of that name;
    the cookies of that name are removed unless forwardToken is true. *)
Definition extractTokenFromCookie (plugin : JWTPlugin) (request : Request)
    : string * Request :=
  match List.find (fun c => String.eqb c.1 (cookieName plugin)) (Cookies request) with
  | None => ("", request)
  | Some cookie =>
      (cookie.2,
       if forwardToken plugin then request
       else {| Cookies :=
                 List.filter (fun c => negb (String.eqb c.1 (cookieName plugin)))
                             (Cookies request);
               HeaderMap := HeaderMap request; Query := Query request |})
  end.

(** The end of [extractTokenFromHeader]: a "Bearer " prefix, in any case,
    is cut off. *)
Definition stripBearer (token : string) : string :=
  if Nat.leb 7 (String.length token)
     && GoString.EqualFold (GoString.take 7 token) "Bearer "
  then GoString.drop 7 token
  else token.

(** [extractTokenFromHeader]: the first value of the header, indexed by
    the configured name as it is; [Header.Del] canonicalizes the name. *)
Definition extractTokenFromHeader (plugin : JWTPlugin) (request : Request)
    : result (string * Request) :=
  match HeaderMap request !! headerName plugin with
  | None => Ok ("", request)
  | Some [] => Panic
  | Some (token :: _) =>
      let request' :=
        if forwardToken plugin then request
        else {| Cookies := Cookies request;
                HeaderMap :=
                  delete (Textproto.CanonicalMIMEHeaderKey (headerName plugin))
                         (HeaderMap request);
                Query := Query request |} in
      Ok (stripBearer token, request')
  end.

(** [url.Values.Get]: the first value of the key, or the empty string. *)
Definition Values_Get (query : gmap string (list string)) (key : string) : string :=
  match query !! key with
  | Some (v :: _) => v
  | _ => ""
  end.

(** [extractTokenFromQuery]: the first value of the parameter, which is
    removed from the query unless forwardToken is true. *)
Definition extractTokenFromQuery (plugin : JWTPlugin) (request : Request)
    : string * Request :=
  if bool_decide (is_Some (Query request !! parameterName plugin)) then
    (Values_Get (Query request) (parameterName plugin),
     if forwardToken plugin then request
     else {| Cookies := Cookies request; HeaderMap := HeaderMap request;
             Query := delete (parameterName plugin) (Query request) |})
  else ("", request).

(** [extractToken] extracts the token using the first configured method
    that finds one, in order of cookie, header, query parameter. *)
Definition extractToken (plugin : JWTPlugin) (request : Request)
    : result (string * Request) :=
  let '(token, request) :=
    if negb (String.eqb (cookieName plugin) "")
    then extractTokenFromCookie plugin request
    else ("", request) in
  '(token, request) ←
    (if Nat.eqb (String.length token) 0 && negb (String.eqb (headerName plugin) "")
     then extractTokenFromHeader plugin request
     else Ok (token, request));
  if Nat.eqb (String.length token) 0 && negb (String.eqb (parameterName plugin) "")
  then Ok (extractTokenFromQuery plugin request)
  else Ok (token, request).

(** ** The validation pipeline *)

Definition StatusOK : Z := 200.
Definition StatusUnauthorized : Z := 401.
Definition StatusForbidden : Z := 403.

Section Pipeline.

(** [plugin.parser.Parse(token, plugin.getKey)]: parsing the token and
    verifying its signature gives the error or the claims, or panics
    when the key function does. *)
Variable Parse : string -> result (string + MapClaims).

(** The branch of [validate] for a parsed token: the status and the
    error. The projection of the claims onto request headers on success
    is left out. *)
Definition validateParsed (plugin : JWTPlugin) (now : Z) (claims : MapClaims)
    (variables : TemplateVariables) : result (Z * option string) :=
  match validateClaims plugin claims variables with
  | Some err =>
      refresh ← allowRefresh plugin now claims;
      if refresh : bool then Ok (StatusUnauthorized, Some err)
      else Ok (StatusForbidden, Some err)
  | None => Ok (StatusOK, None)
  end.

(** [validate] is the entry point for the validation process; it returns
    the HTTP status and the error, here with the request as token
    extraction left it. *)
Definition validate (plugin : JWTPlugin) (now : Z) (request : Request)
    (variables : TemplateVariables) : result (Z * option string * Request) :=
  '(token, request') ← extractToken plugin request;
  if String.eqb token "" then
    if negb (optional plugin)
    then Ok (StatusUnauthorized, Some "no token provided", request')
    else Ok (StatusOK, None, request')
  else
    parsed ← Parse token;
    match parsed with
    | inl err => Ok (StatusUnauthorized, Some err, request')
    | inr claims =>
        '(status, err) ← validateParsed plugin now claims variables;
        Ok (status, err, request')
    end.

End Pipeline.

(** ** Wildcard patterns, as a relation

    A pattern made of [*] and characters that stand for themselves: [*]
    matches any run of characters, every other character itself. *)

Definition plain (c : ascii) : bool :=
  negb (Fnmatch.is_char c "?" || Fnmatch.is_char c "[" || Fnmatch.is_char c "\").

Inductive wild : list ascii -> list ascii -> Prop :=
| wild_nil : wild [] []
| wild_star_empty p s : wild p s -> wild ("*"%char :: p) s
| wild_star_more p c s : wild ("*"%char :: p) s -> wild ("*"%char :: p) (c :: s)
| wild_char c p s :
    Fnmatch.is_char c "*" = false -> wild p s -> wild (c :: p) (c :: s).

(** ** The nested comparison, as the specification words it

    Requirement and supplied value are normalized the same way (a list
    stays a list, any other value becomes a one-element list), and some
    required value must be deeply equal to some supplied value. *)

Definition normalize (v : any) : list any :=
  match v with
  | Slice l => l
  | _ => [v]
  end.

Definition ValidateNested_spec (requirement : ValueRequirement) (v : any) : bool :=
  match nested requirement with
  | Nil => true
  | n => existsb (fun r => existsb (fun s => DeepEqual r s) (normalize v))
                 (normalize n)
  end.

(** A configured claim is satisfied by the token. *)
Definition satisfied (claims : MapClaims) (variables : TemplateVariables)
    (entry : string * ClaimRequirements) : Prop :=
  exists v, claims !! entry.1 = Some v
            /\ ClaimRequirements_validate entry.2 v variables = true.

(** The slice [ValidateNested] makes of the supplied value. *)
Definition supplied (v : any) : list any :=
  match v with
  | Nil => []
  | _ => normalize v
  end.

(** Every key of the cache is held by some issuer. *)
Definition issued (iks : gmap string (gmap string Key)) (kid : string) : Prop :=
  exists url ks, iks !! url = Some ks /\ is_Some (ks !! kid).

Definition cache_invariant (plugin : JWTPlugin) : Prop :=
  forall kid, is_Some (keys plugin !! kid) -> issued (issuerKeys plugin) kid.

(** The plugins a running middleware goes through: [New] fills the keys
    from the configured secrets and records them under "internal"; every
    later change of the cache is a call of [fetchKeys]. *)
Inductive reachable (secrets : gmap string Key) : JWTPlugin -> Prop :=
| reachable_New plugin :
    keys plugin = secrets ->
    issuerKeys plugin = {[ "internal" := internalIssuerKeys secrets ]} ->
    reachable secrets plugin
| reachable_fetchKeys plugin net issuer :
    reachable secrets plugin ->
    reachable secrets (fetchKeys net plugin issuer).1.

(** Some issuer or some key is configured: the guard of [getKey]. *)
Definition configured (plugin : JWTPlugin) : Prop :=
  issuers plugin <> [] \/ keys plugin <> ∅.

(** ** The sources of the token, read without changing the request *)

Definition cookieSource (plugin : JWTPlugin) (request : Request) : string :=
  if String.eqb (cookieName plugin) "" then ""
  else
    match List.find (fun c => String.eqb c.1 (cookieName plugin)) (Cookies request) with
    | Some cookie => cookie.2
    | None => ""
    end.

Definition headerSource (plugin : JWTPlugin) (request : Request) : string :=
  if String.eqb (headerName plugin) "" then ""
  else
    match HeaderMap request !! headerName plugin with
    | Some (token :: _) => stripBearer token
    | _ => ""
    end.

Definition querySource (plugin : JWTPlugin) (request : Request) : string :=
  if String.eqb (parameterName plugin) "" then ""
  else Values_Get (Query request) (parameterName plugin).

Definition firstNonEmpty (sources : list string) : string :=
  match List.find (fun s => negb (String.eqb s "")) sources with
  | Some s => s
  | None => ""
  end.

(** The header map of a request as the HTTP server builds it: the names
    are in canonical form and every name has a value. *)
Definition ServerRequest (request : Request) : Prop :=
  forall name values,
    HeaderMap request !! name = Some values ->
    Textproto.CanonicalMIMEHeaderKey name = name /\ values <> [].

(** ** Configurations and tokens used below *)

(** A plugin with the default configuration ([CreateConfig]), the fixed
    secret of the tests and the given requirements. *)
Definition plugin_requiring (requirements : Requirements) : JWTPlugin :=
  {| secret := HMACSecret "fixed secret"; issuers := [];
     require := requirements; keys := ∅; issuerKeys := {[ "internal" := ∅ ]};
     optional := false; cookieName := "Authorization";
     headerName := "Authorization"; parameterName := "";
     forwardToken := true; freshness := 3600 |}.

(** [require: {roles: {"$and": ["admin", "other"]}}]. *)
Definition require_and : list (string * any) :=
  [("roles", Map [("$and", Slice [Str "admin"; Str "other"])])].

(** [require: {aud: test}]. *)
Definition require_aud : Requirements :=
  {[ "aud" := [OfValue {| value := Str "test"; nested := Nil |}] ]}.

Definition key_a1 : Key := RSAPublicKey 3233 17.
Definition key_a2 : Key := RSAPublicKey 2773 17.
Definition key_b1 : Key := HMACSecret "shared".

Definition url_a : string := "https://a.example.com/.well-known/jwks.json".
Definition url_b : string := "https://b.example.com/.well-known/jwks.json".

(** A cache filled from two sources, one key each. *)
Definition plugin_two_sources : JWTPlugin :=
  {| secret := NoKey;
     issuers := ["https://a.example.com/"; "https://b.example.com/"];
     require := ∅;
     keys := {[ "a1" := key_a1; "b1" := key_b1 ]};
     issuerKeys := {[ url_a := {[ "a1" := key_a1 ]};
                      url_b := {[ "b1" := key_b1 ]} ]};
     optional := false; cookieName := "Authorization";
     headerName := "Authorization"; parameterName := "";
     forwardToken := true; freshness := 3600 |}.

(** A token signed with a key [a9] that the cache does not hold, issued
    by the first of the two sources. *)
Definition token_a9 : Token :=
  {| Header := {[ "kid" := Str "a9"; "alg" := Str "RS256" ]};
     Claims := {[ "iss" := Str "https://a.example.com";
                  "aud" := Str "test" ]} |}.

(** The issuers answer every request with a status 500. *)
Definition net_down : Network :=
  {| FetchOpenIDConfiguration := fun url => inl ("got 500 from " +:+ url);
     FetchJWKS := fun url => inl ("got 500 from " +:+ url) |}.

(** The first source has rotated its key: it now serves [a2] only. *)
Definition net_rotated : Network :=
  {| FetchOpenIDConfiguration := fun url => inl ("got 404 from " +:+ url);
     FetchJWKS := fun url =>
       if String.eqb url url_a then inr {[ "a2" := key_a2 ]}
       else inl ("got 404 from " +:+ url) |}.

(** The plugin of the tests: [require: {aud: test}], the default
    freshness window of 3600 seconds. *)
Definition plugin_aud : JWTPlugin := plugin_requiring require_aud.

(** [time.Now().Unix()] on 2027-01-15. *)
Definition now_2027 : Z := 1800000000.

(** Claims with the wrong audience, issued at a fractional timestamp. *)
Definition claims_iat_fraction : MapClaims :=
  {[ "aud" := Str "other"; "iat" := Number "1692451139.5" ]}.

(** Claims with the wrong audience and an issue time that is a text. *)
Definition claims_iat_text : MapClaims :=
  {[ "aud" := Str "other"; "iat" := Str "yesterday" ]}.

(** Claims with the wrong audience, issued at 1692451139. *)
Definition claims_iat_old : MapClaims :=
  {[ "aud" := Str "other"; "iat" := Number "1692451139" ]}.

(** A request with the token in the Authorization header. *)
Definition request_bearer : Request :=
  {| Cookies := [("session", "s1")];
     HeaderMap := {[ "Authorization" := ["bEaReR abc.def.ghi"] ]};
     Query := ∅ |}.

(** The default plugin, with token forwarding switched off. *)
Definition plugin_strip : JWTPlugin :=
  {| secret := HMACSecret "fixed secret"; issuers := [];
     require := ∅; keys := ∅; issuerKeys := {[ "internal" := ∅ ]};
     optional := false; cookieName := "Authorization";
     headerName := "Authorization"; parameterName := "token";
     forwardToken := false; freshness := 3600 |}.

(** The plugin [plugin_strip] with the header name written in lower
    case. *)
Definition plugin_lower_case : JWTPlugin :=
  {| secret := HMACSecret "fixed secret"; issuers := [];
     require := ∅; keys := ∅; issuerKeys := {[ "internal" := ∅ ]};
     optional := false; cookieName := "Authorization";
     headerName := "authorization"; parameterName := "token";
     forwardToken := false; freshness := 3600 |}.

(** A request whose header map holds the token under a name in lower
    case, as a handler that writes to the map itself leaves it. *)
Definition request_raw_name : Request :=
  {| Cookies := [];
     HeaderMap := {[ "authorization" := ["Bearer abc.def.ghi"] ]};
     Query := ∅ |}.

(** A token whose key ID is the number 7. *)
Definition token_kid_number : Token :=
  {| Header := {[ "kid" := Float64 (S754_finite false 7881299347898368 (-50));
                  "alg" := Str "RS256" ]};
     Claims := {[ "iss" := Str "https://a.example.com" ]} |}.

(** ** Tokens in a header value: [hasToken] *)

(** [isTokenBoundary] returns true if the character is a token boundary. *)
Definition isTokenBoundary (character : ascii) : bool :=
  Ascii.eqb character " " || Ascii.eqb character ","
  || Ascii.eqb character "009" || Ascii.eqb character "+".

(** [character|0x20]. *)
Definition or_0x20 (character : ascii) : ascii :=
  match character with
  | Ascii b0 b1 b2 b3 b4 _ b6 b7 => Ascii b0 b1 b2 b3 b4 true b6 b7
  end.

(** One pass of the loop of [hasToken] at the position where [rest] is
    [header[start:]] and [prev] is [header[start-1]], if there is one:
    false stands for [continue]. *)
Definition hasToken_at (token : list ascii) (prev : option ascii)
    (rest : list ascii) : bool :=
  match rest, token with
  | character :: _, t0 :: _ =>
      if negb (Ascii.eqb character t0) && negb (Ascii.eqb (or_0x20 character) t0)
      then false
      else if match prev with
              | Some p => negb (isTokenBoundary p)
              | None => false
              end
      then false
      else if match List.skipn (length token) rest with
              | after :: _ => negb (isTokenBoundary after)
              | [] => false
              end
      then false
      else GoString.equal_fold (List.firstn (length token) rest) token
  | _, _ => false
  end.

(** The loop [for start := 0; start <= len(header)-len(token); start++]. *)
Fixpoint hasToken_loop (token : list ascii) (prev : option ascii)
    (rest : list ascii) : bool :=
  if Nat.ltb (length rest) (length token) then false
  else
    hasToken_at token prev rest
    || match rest with
       | [] => false
       | character :: rest' => hasToken_loop token (Some character) rest'
       end.

(** [hasToken] returns true if the header contains the token:
    case-insensitive, with space, comma, tab and plus boundaries. *)
Definition hasToken (header token : string) : bool :=
  if Nat.ltb (String.length header) (String.length token) || String.eqb token ""
  then false
  else if String.eqb header token then true
  else hasToken_loop (GoString.chars token) None (GoString.chars header).

(** The token occurs in the header, up to the case of ASCII letters, and
    is delimited on each side by an end of the header or by a boundary
    character. *)
Definition occurs (token header : list ascii) : Prop :=
  exists pre mid post,
    header = (pre ++ mid ++ post)%list
    /\ GoString.equal_fold mid token = true
    /\ match last pre with
       | Some c => isTokenBoundary c = true
       | None => True
       end
    /\ match post with
       | c :: _ => isTokenBoundary c = true
       | [] => True
       end.

(** ** Issuers *)

(** [canonicalizeDomains] adds a trailing slash to all domains. *)
Definition canonicalizeDomains (domains : list string) : list string :=
  List.map canonicalizeDomain domains.

(** A character that stands for itself in a pattern. *)
Definition literal (c : ascii) : bool :=
  plain c && negb (Fnmatch.is_char c "*").

(** ** The texts [NewRequirement] takes for templates *)

(** A text with both interpolation markers. *)
Definition templated (text : string) : bool :=
  GoString.Contains text "{{" && GoString.Contains text "}}".

(** The strings that [convertRequire] hands to [NewRequirement] as values
    for one claim: the string elements of a list, the keys of a map, or
    the value itself if it is a string. *)
Definition requirement_texts (v : any) : list string :=
  match v with
  | Slice l => omap (fun e => match e with Str text => Some text | _ => None end) l
  | Map m => m.*1
  | Str text => [text]
  | _ => []
  end.

(** One pass of the loop of [convertRequire]. *)
Definition convert_step (Parse : string -> option Template)
    (acc : result Requirements) (entry : string * any) : result Requirements :=
  let '(key, v) := entry in
  requirements ← acc;
  claimRequirements ← convertClaim Parse v;
  Ok (<[key := claimRequirements]> requirements).

(** ** Fetching the keys of all issuers *)

(** The URL [fetchKeys] fetches the key set of an issuer from: the
    [jwks_uri] of the OpenID configuration, or the well-known location
    when that configuration cannot be fetched. *)
Definition jwksURL (net : Network) (issuer : string) : string :=
  match FetchOpenIDConfiguration net (issuer +:+ ".well-known/openid-configuration") with
  | inl _ => issuer +:+ ".well-known/jwks.json"
  | inr jwks_uri => jwks_uri
  end.

(** One pass of the loop of [fetchAllKeys]: an issuer with a [*] is
    skipped; the error of a fetch is logged and the loop goes on. The
    second component lists the issuers fetched, each with its error. *)
Definition fetchAllKeys_step (net : Network)
    (state : JWTPlugin * list (string * option string)) (issuer : string)
    : JWTPlugin * list (string * option string) :=
  if GoString.Contains issuer "*" then state
  else
    let '(plugin', err) := fetchKeys net state.1 issuer in
    (plugin', (state.2 ++ [(issuer, err)])%list).

(** [fetchAllKeys] fetches all keys for all issuers in the plugin's
    configuration. *)
Definition fetchAllKeys (net : Network) (plugin : JWTPlugin)
    : JWTPlugin * list (string * option string) :=
  foldl (fetchAllKeys_step net) (plugin, []) (issuers plugin).

(** The configuration of a plugin, its cache apart. *)
Definition same_configuration (p q : JWTPlugin) : Prop :=
  secret p = secret q /\ issuers p = issuers q /\ require p = require q
  /\ optional p = optional q /\ cookieName p = cookieName q
  /\ headerName p = headerName q /\ parameterName p = parameterName q
  /\ forwardToken p = forwardToken q /\ freshness p = freshness q.

(** The cache holds the key set [jwks] that the network serves at
    [url]. *)
Definition held (net : Network) (plugin : JWTPlugin) (url : string)
    (jwks : gmap string Key) : Prop :=
  FetchJWKS net url = inr jwks
  /\ issuerKeys plugin !! url = Some jwks
  /\ forall kid, is_Some (jwks !! kid) -> is_Some (keys plugin !! kid).

(** ** Claims as request headers *)

(** [http.Header.Add] adds the value to the values of the canonical form
    of the key. *)
Definition Header_Add (header : gmap string (list string)) (key value : string)
    : gmap string (list string) :=
  let key := Textproto.CanonicalMIMEHeaderKey key in
  <[key := (default [] (header !! key) ++ [value])%list]> header.

(** [http.Header.Del] deletes the values of the canonical form of the
    key. *)
Definition Header_Del (header : gmap string (list string)) (key : string)
    : gmap string (list string) :=
  delete (Textproto.CanonicalMIMEHeaderKey key) header.

Section HeaderMapping.

(** [json.Marshal] on a value decoded from JSON: the text, or [None] for
    an error. *)
Variable Marshal : any -> option string.

(** [fmt.Sprint] on the values that are neither a string, a
    [json.Number] nor a boolean. *)
Variable Format : any -> string.

(** [fmt.Sprint]: a string and a [json.Number] are written as they are, a
    boolean as true or false. *)
Definition Sprint (v : any) : string :=
  match v with
  | Str s => s
  | Number n => n
  | Bool true => "true"
  | Bool false => "false"
  | _ => Format v
  end.

(** The text [mapClaimsToHeaders] adds for a claim: arrays, objects and
    null as JSON (nothing when marshalling fails), any other value as
    [fmt.Sprint] writes it. *)
Definition headerValue (v : any) : option string :=
  match v with
  | Slice _ | Map _ | Nil => Marshal v
  | _ => Some (Sprint v)
  end.

(** The body of the loop of [mapClaimsToHeaders], for one entry of
    [plugin.headerMap]. *)
Definition mapClaimToHeader (removeMissingHeaders : bool) (claims : MapClaims)
    (header : gmap string (list string)) (entry : string * string)
    : gmap string (list string) :=
  match claims !! entry.2 with
  | Some v =>
      match headerValue v with
      | Some text => Header_Add header entry.1 text
      | None => header
      end
  | None =>
      if removeMissingHeaders then Header_Del header entry.1 else header
  end.

(** [mapClaimsToHeaders] maps any claims to headers as specified in the
    headerMap configuration, whose entries are visited in the order
    [headerMap]; it works on [request.Header]. *)
Definition mapClaimsToHeaders (headerMap : list (string * string))
    (removeMissingHeaders : bool) (claims : MapClaims)
    (header : gmap string (list string)) : gmap string (list string) :=
  foldl (mapClaimToHeader removeMissingHeaders claims) header headerMap.

End HeaderMapping.

(** ** The environment *)

(** The pieces of [s] between the occurrences of [sep]. *)
Fixpoint split_on (sep : ascii) (s : list ascii) : list (list ascii) :=
  match s with
  | [] => [[]]
  | c :: s' =>
      if Ascii.eqb c sep then [] :: split_on sep s'
      else
        match split_on sep s' with
        | piece :: pieces => (c :: piece) :: pieces
        | [] => [[c]]
        end
  end.

(** [strings.Split] with a separator of one byte. *)
Definition Split (s : string) (sep : ascii) : list string :=
  string_of_list_ascii <$> split_on sep (GoString.chars s).

(** The loop of [environment]: [pair[1]] panics when the variable has no
    ["="]. *)
Fixpoint environment_loop (environ : list string)
    (variables : gmap string string) : result (gmap string string) :=
  match environ with
  | [] => Ok variables
  | variable :: environ' =>
      match Split variable "=" with
      | key :: val :: _ => environment_loop environ' (<[key := val]> variables)
      | _ => Panic
      end
  end.

(** [environment] returns the environment variables as a map; [environ]
    is [os.Environ()]. *)
Definition environment (environ : list string) : result (gmap string string) :=
  environment_loop environ ∅.

(** What [environment] drops of an entry: nothing, or everything from
    the second ["="] on. *)
Definition cut_tail (tail : string) : Prop :=
  tail = "" \/ exists t, tail = "=" +:+ t.

(** ** The middleware entry point *)

(** What [NewTemplateVariables] reads of the request besides its header:
    [request.Method], [request.Host], [request.URL.RequestURI()],
    [request.URL.Host], [request.URL.Scheme] and [request.URL.String()]. *)
Record RequestLine : Type := {
  Method : string;
  Host : string;
  URL_RequestURI : string;
  URL_Host : string;
  URL_Scheme : string;
  URL_String : string
}.

(** [http.Header.Get]: the first value of the canonical form of the key,
    or the empty string. *)
Definition Header_Get (header : gmap string (list string)) (key : string)
    : string :=
  match header !! Textproto.CanonicalMIMEHeaderKey key with
  | Some (v :: _) => v
  | _ => ""
  end.

(** [NewTemplateVariables] creates the template data for the request: the
    environment variables of the plugin, then the per-request
    variables. *)
Definition NewTemplateVariables (environment : gmap string string)
    (line : RequestLine) (header : gmap string (list string))
    : TemplateVariables :=
  let variables := environment in
  let variables := <["Method" := Method line]> variables in
  let variables := <["Host" := Host line]> variables in
  let variables := <["Path" := URL_RequestURI line]> variables in
  if negb (String.eqb (URL_Host line) "") then
    let variables := <["Scheme" := URL_Scheme line]> variables in
    <["URL" := URL_String line]> variables
  else
    let scheme := Header_Get header "X-Forwarded-Proto" in
    let scheme := if String.eqb scheme "" then "https" else scheme in
    let variables := <["Scheme" := scheme]> variables in
    <["URL" := scheme +:+ "://" +:+ Host line +:+ URL_RequestURI line]> variables.

(** What [ServeHTTP] does with the request: it hands the request to the
    next handler, redirects with status 302, answers 500 when the redirect
    template fails (the body, the error of the template, is left out),
    sets the headers of a gRPC response (the calls of [header.Set], in
    order), or answers with the status and the error text. *)
Inductive Response : Type :=
| Forward
| Redirect (url : string)
| InternalServerError
| Grpc (sets : list (string * string))
| Error (status : Z) (body : string).

Section EntryPoint.

Variable Parse : string -> result (string + MapClaims).

(** [ServeHTTP] is the middleware entry point; [redirectUnauthorized],
    [redirectForbidden] and [environment] are the fields of the plugin of
    these names. *)
Definition ServeHTTP (plugin : JWTPlugin)
    (redirectUnauthorized redirectForbidden : option Template)
    (environment : gmap string string) (now : Z)
    (request : Request) (line : RequestLine) : result Response :=
  let variables := NewTemplateVariables environment line (HeaderMap request) in
  '(status, err, request') ← validate Parse plugin now request variables;
  match err with
  | None => Ok Forward
  | Some err =>
      match redirectUnauthorized with
      | Some unauthorized =>
          let redirectTemplate :=
            match redirectForbidden with
            | Some forbidden =>
                if status =? StatusUnauthorized then unauthorized else forbidden
            | None => unauthorized
            end in
          match Execute redirectTemplate variables with
          | Some url => Ok (Redirect url)
          | None => Ok InternalServerError
          end
      | None =>
          if hasToken (Header_Get (HeaderMap request') "Content-Type")
                      "application/grpc"
          then
            Ok (Grpc (("Content-Type", "application/grpc")
                      :: if status =? StatusUnauthorized
                         then [("grpc-status", "16");
                               ("grpc-message", "UNAUTHENTICATED")]
                         else if status =? StatusForbidden
                         then [("grpc-status", "7");
                               ("grpc-message", "PERMISSION_DENIED")]
                         else []))
          else Ok (Error status err)
      end
  end.

End EntryPoint.

(** ** Fixed keys *)

(** [strings.HasPrefix]. *)
Definition HasPrefix (s prefix : string) : bool :=
  GoString.has_prefix (GoString.chars prefix) (GoString.chars s).

Section KeySetup.

(** [jwt.ParseECPublicKeyFromPEM] and [jwt.ParseRSAPublicKeyFromPEM]: the
    error, or the curve and the coordinates, respectively the modulus and
    the exponent, of the public key. *)
Variable ParseECPublicKeyFromPEM : string -> string + (string * Z * Z).
Variable ParseRSAPublicKeyFromPEM : string -> string + (Z * Z).

(** The end of [setupKey]: an RSA public key if [raw] is marked as one or
    as a public key, a shared HMAC secret otherwise. *)
Definition setupKey_rsa (raw : string) : string + Key :=
  if HasPrefix raw "-----BEGIN RSA PUBLIC KEY"
     || HasPrefix raw "-----BEGIN PUBLIC KEY"
  then
    match ParseRSAPublicKeyFromPEM raw with
    | inl err => inl err
    | inr (n, e) => inr (RSAPublicKey n e)
    end
  else inr (HMACSecret raw).

(** [setupKey] parses [raw] and returns either the appropriate public
    key, if it is a PEM, or treats it as a shared HMAC secret; [inl]
    carries the error. *)
Definition setupKey (raw : string) : string + Key :=
  if String.eqb raw "" then inr NoKey
  else if HasPrefix raw "-----BEGIN EC PUBLIC KEY"
          || HasPrefix raw "-----BEGIN PUBLIC KEY"
  then
    match ParseECPublicKeyFromPEM raw with
    | inr (curve, x, y) => inr (ECDSAPublicKey curve x y)
    | inl err =>
        if HasPrefix raw "-----BEGIN EC PUBLIC KEY" then inl err
        else setupKey_rsa raw
    end
  else setupKey_rsa raw.

(** The loop of [New] over [config.Secrets], visited in the order
    [entries]: the keys of the cache, or the error [New] returns. *)
Fixpoint New_secrets (entries : list (string * string))
    (keys : gmap string Key) : string + gmap string Key :=
  match entries with
  | [] => inr keys
  | (kid, raw) :: entries' =>
      match setupKey raw with
      | inl err => inl ("kid " +:+ kid +:+ ": " +:+ err)
      | inr key =>
          if decide (key = NoKey)
          then inl ("kid " +:+ kid +:+ ": invalid key: Key is empty")
          else New_secrets entries' (<[kid := key]> keys)
      end
  end.

End KeySetup.

(** ** JSON web key sets *)

(** The fields of [JSONWebKey] that [FetchJWKS] reads. *)
Record JSONWebKey : Type := {
  jwk_Kid : string;
  jwk_Kty : string;
  jwk_Alg : string;
  jwk_N : string;
  jwk_E : string;
  jwk_X : string;
  jwk_Y : string;
  jwk_Crv : string
}.

(** The list without the leading run of [cutset]. *)
Fixpoint trim_left (cutset : ascii) (l : list ascii) : list ascii :=
  match l with
  | c :: l' => if Ascii.eqb c cutset then trim_left cutset l' else l
  | [] => []
  end.

(** [strings.TrimRight] with a cutset of one byte. *)
Definition TrimRight (s : string) (cutset : ascii) : string :=
  string_of_list_ascii (rev (trim_left cutset (rev (GoString.chars s)))).

(** [new(big.Int).SetBytes]: the bytes as a big-endian unsigned
    integer. *)
Definition SetBytes (bytes : list Byte.byte) : Z :=
  foldl (fun acc b => 256 * acc + Z.of_N (Byte.to_N b)) 0 bytes.

Definition quote : string := String "034"%char "".

Section JWKS.

(** [base64.RawURLEncoding.DecodeString], [None] for an error. *)
Variable DecodeString : string -> option (list Byte.byte).

(** [base64.RawURLEncoding.EncodeToString] of [sha256.Sum256]. *)
Variable Sum256 : string -> string.

(** [JWKThumbprint] creates a JWK thumbprint out of the key. *)
Definition JWKThumbprint (jwk : JSONWebKey) : string :=
  let text :=
    if String.eqb (jwk_Kty jwk) "RSA" then
      "{" +:+ quote +:+ "e" +:+ quote +:+ ":" +:+ quote +:+ jwk_E jwk +:+ quote
      +:+ "," +:+ quote +:+ "kty" +:+ quote +:+ ":" +:+ quote +:+ "RSA" +:+ quote
      +:+ "," +:+ quote +:+ "n" +:+ quote +:+ ":" +:+ quote +:+ jwk_N jwk +:+ quote
      +:+ "}"
    else if String.eqb (jwk_Kty jwk) "EC" then
      "{" +:+ quote +:+ "crv" +:+ quote +:+ ":" +:+ quote +:+ "P-256" +:+ quote
      +:+ "," +:+ quote +:+ "kty" +:+ quote +:+ ":" +:+ quote +:+ "EC" +:+ quote
      +:+ "," +:+ quote +:+ "x" +:+ quote +:+ ":" +:+ quote +:+ jwk_X jwk +:+ quote
      +:+ "," +:+ quote +:+ "y" +:+ quote +:+ ":" +:+ quote +:+ jwk_Y jwk +:+ quote
      +:+ "}"
    else "" in
  Sum256 text.

(** The key ID under which [FetchJWKS] files the key. *)
Definition jwk_kid (jwk : JSONWebKey) : string :=
  if String.eqb (jwk_Kid jwk) "" then JWKThumbprint jwk else jwk_Kid jwk.

(** The curve of an EC key: by [crv], else by [alg], else P-256. *)
Definition jwk_curve (jwk : JSONWebKey) : string :=
  if String.eqb (jwk_Crv jwk) "P-256" then "P-256"
  else if String.eqb (jwk_Crv jwk) "P-384" then "P-384"
  else if String.eqb (jwk_Crv jwk) "P-521" then "P-521"
  else if String.eqb (jwk_Alg jwk) "ES256" then "P-256"
  else if String.eqb (jwk_Alg jwk) "ES384" then "P-384"
  else if String.eqb (jwk_Alg jwk) "ES512" then "P-521"
  else "P-256".

(** The switch on [jwk.Kty] in the loop of [FetchJWKS]: the public key it
    files, or [None] where it breaks out or has no case. *)
Definition jwk_key (jwk : JSONWebKey) : option Key :=
  if String.eqb (jwk_Kty jwk) "RSA" then
    match DecodeString (TrimRight (jwk_N jwk) "=") with
    | None => None
    | Some nBytes =>
        match DecodeString (TrimRight (jwk_E jwk) "=") with
        | None => None
        | Some eBytes =>
            Some (RSAPublicKey (SetBytes nBytes) (wrap64 (SetBytes eBytes)))
        end
    end
  else if String.eqb (jwk_Kty jwk) "EC" then
    match DecodeString (jwk_X jwk) with
    | None => None
    | Some xBytes =>
        match DecodeString (jwk_Y jwk) with
        | None => None
        | Some yBytes =>
            Some (ECDSAPublicKey (jwk_curve jwk) (SetBytes xBytes)
                                 (SetBytes yBytes))
        end
    end
  else None.

(** The loop of [FetchJWKS] over the keys of the decoded set: the map
    from key ID to key. *)
Definition jwks_keys (jwks : list JSONWebKey) : gmap string Key :=
  foldl (fun keys jwk =>
           match jwk_key jwk with
           | Some key => <[jwk_kid jwk := key]> keys
           | None => keys
           end) ∅ jwks.

End JWKS.

(* ================================================================== *)
(** * Properties *)

(** ** Shell patterns *)

Section FnmatchFacts.
Import Fnmatch.

Lemma is_char_star c : is_char c "*" = true <-> c = "*"%char.
Proof. unfold is_char. apply Ascii.eqb_eq. Qed.

Lemma range_skip_length p r : range_skip p = Some r -> (length r < length p)%nat.
Proof.
  revert r. induction p as [p IH] using (induction_ltof1 _ (@length ascii)).
  unfold ltof in IH. intros r. destruct p as [|c p1]; simpl; [done|].
  destruct (is_char c "\").
  - destruct p1 as [|d p2]; [done|]. intros H.
    apply IH in H; simpl in *; lia.
  - destruct (is_char c "]").
    + intros [= <-]. lia.
    + intros H. apply IH in H; simpl in *; lia.
Qed.

Lemma range_scan_length fuel t p b q :
  range_scan fuel t p = Some (b, q) -> (length q <= length p)%nat.
Proof.
  revert p b q. induction fuel as [|fuel IH]; intros p b q; simpl.
  { intros [= _ <-]. lia. }
  destruct p as [|c [|d p1]]; try (intros [= _ <-]; simpl; lia).
  destruct (is_char c "]"); [intros [= _ <-]; simpl; lia|].
  destruct (is_char c "\").
  - destruct p1 as [|e p2]; [done|].
    destruct p2 as [|c2 q2].
    + destruct (Ascii.eqb d t); [intros [= _ <-]; simpl; lia|].
      intros H. apply IH in H. simpl in *. lia.
    + destruct (is_char e "-" && negb (is_char c2 "]")).
      * destruct (is_char c2 "\").
        -- destruct q2 as [|c2' q3]; [done|].
           destruct (rune_le d t && rune_le t c2'); [intros [= _ <-]; simpl; lia|].
           intros H. apply IH in H. simpl in *. lia.
        -- destruct (rune_le d t && rune_le t c2); [intros [= _ <-]; simpl; lia|].
           intros H. apply IH in H. simpl in *. lia.
      * destruct (Ascii.eqb d t); [intros [= _ <-]; simpl; lia|].
        intros H. apply IH in H. simpl in *. lia.
  - destruct p1 as [|c2 q2].
    + destruct (Ascii.eqb c t); [intros [= _ <-]; simpl; lia|].
      intros H. apply IH in H. simpl in *. lia.
    + destruct (is_char d "-" && negb (is_char c2 "]")).
      * destruct (is_char c2 "\").
        -- destruct q2 as [|c2' q3]; [done|].
           destruct (rune_le c t && rune_le t c2'); [intros [= _ <-]; simpl; lia|].
           intros H. apply IH in H. simpl in *. lia.
        -- destruct (rune_le c t && rune_le t c2); [intros [= _ <-]; simpl; lia|].
           intros H. apply IH in H. simpl in *. lia.
      * destruct (Ascii.eqb c t); [intros [= _ <-]; simpl; lia|].
        intros H. apply IH in H. simpl in *. lia.
Qed.

Lemma rangematch_length t p r :
  rangematch t p = Some r -> (length r < length p)%nat.
Proof.
  unfold rangematch. destruct p as [|c p1]; [done|].
  destruct (is_char c "^" || is_char c "!").
  - destruct (range_scan _ t p1) as [[m q']|] eqn:Hs; [|done].
    apply range_scan_length in Hs.
    destruct (range_skip q') as [rest|] eqn:Hk; [|done].
    apply range_skip_length in Hk.
    destruct (xorb m true); [|done]. intros [= <-]. simpl. lia.
  - destruct (range_scan _ t (c :: p1)) as [[m q']|] eqn:Hs; [|done].
    apply range_scan_length in Hs.
    destruct (range_skip q') as [rest|] eqn:Hk; [|done].
    apply range_skip_length in Hk.
    destruct (xorb m false); [|done]. intros [= <-]. simpl in *. lia.
Qed.

Lemma drop_stars_length p : (length (drop_stars p) <= length p)%nat.
Proof.
  induction p as [|c p IH]; simpl; [lia|].
  destruct (is_char c "*"); simpl; lia.
Qed.

Lemma match_fuel_stable n m p s :
  (length p < n)%nat -> (length p < m)%nat ->
  match_fuel n p s = match_fuel m p s.
Proof.
  revert m p s. induction n as [|n IH]; intros m p s Hn Hm; [lia|].
  destruct m as [|m]; [lia|]. simpl.
  destruct p as [|c p1]; [done|]. simpl in Hn, Hm.
  destruct (is_char c "?").
  { destruct s as [|sc s1]; [done|]. apply IH; lia. }
  destruct (is_char c "*").
  { pose proof (drop_stars_length p1) as Hd.
    destruct (drop_stars p1) as [|d p2]; [done|].
    induction s as [|sc s1 IHs]; [done|]. simpl.
    rewrite IHs. f_equal. apply IH; simpl in *; lia. }
  destruct (is_char c "[").
  { destruct s as [|sc s1]; [done|].
    destruct (rangematch sc p1) as [p2|] eqn:Hr; [|done].
    apply rangematch_length in Hr. apply IH; lia. }
  destruct (is_char c "\").
  - destruct p1 as [|d p2]; destruct s as [|sc s1]; try done;
      f_equal; apply IH; simpl in *; lia.
  - destruct s as [|sc s1]; [done|]. f_equal. apply IH; lia.
Qed.

(** The fuel [Match] starts with is enough: more changes nothing. *)
Lemma Match_fuel_enough n pattern s :
  (length (GoString.chars pattern) < n)%nat ->
  match_fuel n (GoString.chars pattern) (GoString.chars s) = Match pattern s.
Proof. intros Hn. unfold Match. apply match_fuel_stable; lia. Qed.

Lemma try_suffixes_true f s :
  try_suffixes f s = true <->
  exists t, t `suffix_of` s /\ t <> [] /\ f t = true.
Proof.
  induction s as [|c s IH]; simpl.
  - split; [done|]. intros (t & Ht & Hne & _).
    apply suffix_nil_inv in Ht. done.
  - rewrite orb_true_iff, IH. split.
    + intros [H|(t & Ht & Hne & H)].
      * exists (c :: s). done.
      * exists t. split_and!; [by apply suffix_cons_r|done|done].
    + intros (t & Ht & Hne & H).
      destruct t as [|x t]; [done|].
      apply suffix_cons_inv in Ht as [Heq|Ht]; [left; by rewrite <- Heq|].
      right. by exists (x :: t).
Qed.

Lemma wild_star_iff p s :
  wild ("*"%char :: p) s <-> exists t, t `suffix_of` s /\ wild p t.
Proof.
  split.
  - remember ("*"%char :: p) as q eqn:Hq. intros H.
    induction H as [|p' s' H _|p' c s' H IH|c p' s' Hc H _];
      try discriminate.
    + injection Hq as ->. by exists s'.
    + destruct (IH Hq) as (t & Ht & Hw). exists t.
      split; [by apply suffix_cons_r|done].
    + injection Hq as -> ->. done.
  - intros (t & [k ->] & Hw).
    induction k as [|c k IH]; simpl; [by constructor|by constructor].
Qed.

Lemma wild_drop_stars p s :
  wild ("*"%char :: p) s <-> wild ("*"%char :: drop_stars p) s.
Proof.
  induction p as [|c p IH]; simpl; [done|].
  destruct (is_char c "*") eqn:Hc; [|done].
  apply is_char_star in Hc as ->. rewrite <- IH.
  rewrite (wild_star_iff ("*"%char :: p)). split.
  - intros (t & Ht & Hw). apply wild_star_iff in Hw as (t' & Ht' & Hw).
    apply wild_star_iff. exists t'. split; [by etrans|done].
  - intros H. by exists s.
Qed.

Lemma drop_stars_head p c q :
  drop_stars p = c :: q -> is_char c "*" = false.
Proof.
  induction p as [|d p IH]; simpl; [done|].
  destruct (is_char d "*") eqn:Hd; [done|]. by intros [= <- <-].
Qed.

Lemma drop_stars_plain p :
  forallb plain p = true -> forallb plain (drop_stars p) = true.
Proof.
  induction p as [|d p IH]; simpl; [done|].
  intros [Hd Hp]%andb_true_iff.
  destruct (is_char d "*"); [by apply IH|]. simpl. by rewrite Hd, Hp.
Qed.

Lemma wild_char_iff c p s :
  is_char c "*" = false ->
  wild (c :: p) s <-> exists s1, s = c :: s1 /\ wild p s1.
Proof.
  intros Hc. split.
  - inversion 1; subst; try (by rewrite (proj2 (is_char_star _)) in Hc).
    by eexists.
  - intros (s1 & -> & H). by constructor.
Qed.

(** On patterns of [*] and ordinary characters the matcher decides the
    wildcard relation. *)
Lemma match_fuel_wild n p s :
  (length p < n)%nat -> forallb plain p = true ->
  match_fuel n p s = true <-> wild p s.
Proof.
  revert p s. induction n as [|n IH]; intros p s Hn Hp; [lia|].
  simpl. destruct p as [|c p1].
  { destruct s; split; try done; [constructor|inversion 1]. }
  simpl in Hn, Hp. apply andb_true_iff in Hp as [Hc Hp1].
  unfold plain in Hc. apply negb_true_iff in Hc.
  apply orb_false_iff in Hc as [Hc Hc3].
  apply orb_false_iff in Hc as [Hc1 Hc2].
  rewrite Hc1. destruct (is_char c "*") eqn:Hstar.
  - apply is_char_star in Hstar as ->.
    rewrite wild_drop_stars.
    pose proof (drop_stars_length p1) as Hd.
    pose proof (drop_stars_plain p1 Hp1) as Hpl.
    destruct (drop_stars p1) as [|d p2] eqn:Hds.
    + split; [|done]. intros _. apply wild_star_iff.
      exists []. split; [apply suffix_nil|constructor].
    + rewrite try_suffixes_true, wild_star_iff.
      apply drop_stars_head in Hds as Hhead.
      split.
      * intros (t & Ht & _ & Hm). exists t. split; [done|].
        apply IH in Hm; [done|simpl in *; lia|done].
      * intros (t & Ht & Hw). exists t. split; [done|].
        split.
        { apply wild_char_iff in Hw as (s1 & -> & _); done. }
        apply IH; [simpl in *; lia|done|done].
  - rewrite Hc2, Hc3. rewrite wild_char_iff by done.
    destruct s as [|sc s1].
    + split; [done|]. by intros (s1 & ? & _).
    + rewrite andb_true_iff, Ascii.eqb_eq, IH by (done || lia). split.
      * intros [-> H]. by eexists.
      * intros (s1' & [= -> ->] & H). done.
Qed.

End FnmatchFacts.

(** ** The requirement engine *)

Lemma Validate_Str requirement s variables :
  ValueRequirement_Validate requirement (Str s) variables
  = ValidateString requirement s.
Proof. reflexivity. Qed.

Lemma Match_wild pattern s :
  forallb plain (GoString.chars pattern) = true ->
  Fnmatch.Match pattern s = true
  <-> wild (GoString.chars pattern) (GoString.chars s).
Proof. intros Hp. unfold Fnmatch.Match. apply match_fuel_wild; [lia|done]. Qed.

(** C1, amended. For a string claim value and a string requirement,
    [ValueRequirement.Validate] succeeds exactly when the claim value, taken
    as the shell pattern, matches the requirement, or the claim value is
    the text "*." followed by the requirement; for a claim value made of
    [*] and ordinary characters the match is the wildcard relation [wild].
    So the requirements "example.com" and "test.example.com" accept the
    claim "*.example.com", the requirement "test.example.com" rejects the
    claim "*.company.com", and the requirement "*.example.com" rejects the
    claim "test.example.com": a wildcard in the requirement is not
    expanded. *)
Theorem C1_Validate_string_claim_is_the_pattern
    (required claim : string) (n : any) (variables : TemplateVariables) :
  let accepts (required claim : string) :=
    ValueRequirement_Validate {| value := Str required; nested := n |}
      (Str claim) variables in
  accepts required claim
    = Fnmatch.Match claim required || String.eqb claim ("*." +:+ required)
  /\ (forallb plain (GoString.chars claim) = true ->
      accepts required claim = true
      <-> wild (GoString.chars claim) (GoString.chars required)
          \/ claim = "*." +:+ required)
  /\ accepts "example.com" "*.example.com" = true
  /\ accepts "test.example.com" "*.example.com" = true
  /\ accepts "test.example.com" "*.company.com" = false
  /\ accepts "*.example.com" "test.example.com" = false.
Proof.
  cbv zeta. split_and!; try reflexivity.
  intros Hp. rewrite Validate_Str. unfold ValidateString. simpl.
  rewrite orb_true_iff, String.eqb_eq, Match_wild by done. done.
Qed.

Lemma C1_Validate_string_claim_witness :
  forallb plain (GoString.chars "*.example.com") = true
  /\ (ValueRequirement_Validate
        {| value := Str "test.example.com"; nested := Nil |}
        (Str "*.example.com") ∅ = true
      <-> wild (GoString.chars "*.example.com")
               (GoString.chars "test.example.com")
          \/ "*.example.com" = "*." +:+ "test.example.com").
Proof.
  split; [reflexivity|].
  apply (proj1 (proj2 (C1_Validate_string_claim_is_the_pattern
                         "test.example.com" "*.example.com" Nil ∅))).
  reflexivity.
Defined.

(** C1 as stated fails: the requirement "*.example.com" does not accept
    the claim "test.example.com". *)
Lemma C1_wildcard_requirement_counterexample :
  ValueRequirement_Validate {| value := Str "*.example.com"; nested := Nil |}
    (Str "test.example.com") ∅ = false.
Proof. reflexivity. Qed.

(** C2 on the code: the key "$and" of a require entry is not reserved.
    [convertRequire] turns [roles: {"$and": ["admin", "other"]}] into the
    single value requirement "$and" with the list nested, so the claim
    [roles = ["admin", "other"]] is rejected, like [roles = ["admin"]],
    while the literal claims [roles = "$and"] and
    [roles = {"$and": "other"}] are accepted. The call
    [NewRequirement([]any{"user", "admin"}, "$other")] returns a value
    requirement. *)
Theorem C2_and_key_is_a_literal_requirement (Parse : string -> option Template) :
  let literal :=
    {[ "roles" := [OfValue {| value := Str "$and";
                              nested := Slice [Str "admin"; Str "other"] |}] ]} in
  let outcome (roles : any) :=
    validateClaims (plugin_requiring literal) {[ "roles" := roles ]} ∅ in
  convertRequire Parse require_and = Ok literal
  /\ outcome (Slice [Str "admin"; Str "other"]) = Some "claim is not valid: roles"
  /\ outcome (Slice [Str "admin"]) = Some "claim is not valid: roles"
  /\ outcome (Str "$and") = None
  /\ outcome (Map [("$and", Str "other")]) = None
  /\ NewRequirement Parse (Slice [Str "user"; Str "admin"]) (Str "$other")
     = Ok (OfValue {| value := Slice [Str "user"; Str "admin"];
                      nested := Str "$other" |}).
Proof. cbv zeta. split_and!; vm_compute; reflexivity. Qed.

Lemma ClaimRequirements_validate_true requirements v variables :
  ClaimRequirements_validate requirements v variables = true
  <-> exists requirement,
        requirement ∈ requirements /\ Validate requirement v variables = true.
Proof.
  induction requirements as [|r rest IH]; simpl.
  - split; [done|]. intros (r & Hr & _). by apply elem_of_nil in Hr.
  - destruct (Validate r v variables) eqn:Hv.
    + split; [|done]. intros _. exists r. split; [left|done].
    + rewrite IH. split.
      * intros (r' & Hr' & H). exists r'. split; [by right|done].
      * intros (r' & [->|Hr']%elem_of_cons & H); [congruence|by exists r'].
Qed.

Lemma validateClaims_in_None entries claims variables :
  validateClaims_in entries claims variables = None
  <-> Forall (satisfied claims variables) entries.
Proof.
  induction entries as [|[claim requirements] rest IH]; simpl.
  - split; [constructor|done].
  - rewrite Forall_cons, <- IH. unfold satisfied at 1. simpl.
    destruct (claims !! claim) as [v|].
    + destruct (ClaimRequirements_validate requirements v variables) eqn:Hv.
      * split; [intros H; split; [by exists v|done]|by intros [_ H]].
      * split; [done|]. intros [(v' & [= <-] & H) _]. congruence.
    + split; [done|]. intros [(v' & H & _) _]. done.
Qed.

Lemma validateClaims_in_Some entries claims variables err :
  validateClaims_in entries claims variables = Some err ->
  exists claim requirements,
    (claim, requirements) ∈ entries
    /\ ((claims !! claim = None /\ err = "claim is not present: " +:+ claim)
        \/ (exists v, claims !! claim = Some v
                      /\ ClaimRequirements_validate requirements v variables = false
                      /\ err = "claim is not valid: " +:+ claim)).
Proof.
  induction entries as [|[claim requirements] rest IH]; simpl; [done|].
  destruct (claims !! claim) as [v|] eqn:Hc.
  - destruct (ClaimRequirements_validate requirements v variables) eqn:Hv.
    + intros (c & r & Hin & H)%IH. exists c, r. split; [by right|done].
    + intros [= <-]. exists claim, requirements. split; [left|].
      right. by exists v.
  - intros [= <-]. exists claim, requirements. split; [left|]. by left.
Qed.

(** C5. Whatever the order in which the configured claims are visited,
    [validateClaims] returns no error exactly when every configured claim
    is present in the token and its requirement list validates the value;
    a requirement list validates a value exactly when one of its
    requirements does; and a configured claim that the token lacks makes
    the call fail, the error naming a claim that is absent or not valid. *)
Theorem C5_validateClaims_all_claims_any_requirement
    (plugin : JWTPlugin) (entries : list (string * ClaimRequirements))
    (claims : MapClaims) (variables : TemplateVariables) :
  entries ≡ₚ map_to_list (require plugin) ->
  (validateClaims_in entries claims variables = None
   <-> forall claim requirements,
         require plugin !! claim = Some requirements ->
         exists v, claims !! claim = Some v
                   /\ ClaimRequirements_validate requirements v variables = true)
  /\ (forall requirements v,
        ClaimRequirements_validate requirements v variables = true
        <-> exists requirement,
              requirement ∈ requirements
              /\ Validate requirement v variables = true)
  /\ (forall claim,
        is_Some (require plugin !! claim) -> claims !! claim = None ->
        exists err, validateClaims_in entries claims variables = Some err)
  /\ (forall err,
        validateClaims_in entries claims variables = Some err ->
        exists claim requirements,
          require plugin !! claim = Some requirements
          /\ ((claims !! claim = None
               /\ err = "claim is not present: " +:+ claim)
              \/ (exists v, claims !! claim = Some v
                    /\ ClaimRequirements_validate requirements v variables = false
                    /\ err = "claim is not valid: " +:+ claim))).
Proof.
  intros Hperm.
  assert (Hall : validateClaims_in entries claims variables = None
    <-> forall claim requirements,
          require plugin !! claim = Some requirements ->
          exists v, claims !! claim = Some v
            /\ ClaimRequirements_validate requirements v variables = true).
  { rewrite validateClaims_in_None, Hperm, Forall_forall. split.
    - intros H claim requirements Hc.
      apply (H (claim, requirements)). by apply elem_of_map_to_list.
    - intros H [claim requirements] Hin%elem_of_map_to_list.
      by apply H. }
  split_and!.
  - exact Hall.
  - intros requirements v. apply ClaimRequirements_validate_true.
  - intros claim [requirements Hc] Habsent.
    destruct (validateClaims_in entries claims variables) as [err|] eqn:Hv;
      [by exists err|].
    destruct (proj1 Hall eq_refl claim requirements Hc) as (v & Hv' & _).
    congruence.
  - intros err (claim & requirements & Hin & H)%validateClaims_in_Some.
    exists claim, requirements. split; [|done].
    rewrite Hperm in Hin. by apply elem_of_map_to_list in Hin.
Qed.

Lemma C5_validateClaims_witness :
  map_to_list require_aud ≡ₚ map_to_list (require (plugin_requiring require_aud))
  /\ (validateClaims_in (map_to_list require_aud) {[ "aud" := Str "test" ]} ∅ = None
      <-> forall claim requirements,
            require (plugin_requiring require_aud) !! claim = Some requirements ->
            exists v, ({[ "aud" := Str "test" ]} : MapClaims) !! claim = Some v
                      /\ ClaimRequirements_validate requirements v ∅ = true).
Proof.
  split; [reflexivity|].
  apply (C5_validateClaims_all_claims_any_requirement
           (plugin_requiring require_aud) (map_to_list require_aud)
           {[ "aud" := Str "test" ]} ∅).
  reflexivity.
Defined.

Lemma existsb_elem_of {A : Type} (f : A -> bool) (l : list A) :
  existsb f l = true <-> exists x, x ∈ l /\ f x = true.
Proof.
  rewrite existsb_exists. split; intros (x & Hx & H); exists x;
    (split; [by apply list_elem_of_In|done]).
Qed.

Lemma ValidateNested_true requirement v :
  ValidateNested requirement v = true
  <-> nested requirement = Nil
      \/ exists r s, r ∈ normalize (nested requirement) /\ s ∈ supplied v
                     /\ DeepEqual r s = true.
Proof.
  assert (Hcross : forall required,
    existsb (fun r => existsb (fun s => DeepEqual r s) (supplied v)) required = true
    <-> exists r s, r ∈ required /\ s ∈ supplied v /\ DeepEqual r s = true).
  { intros required. rewrite existsb_elem_of. split.
    - intros (r & Hr & (s & Hs & H)%existsb_elem_of). by exists r, s.
    - intros (r & s & Hr & Hs & H). exists r. split; [done|].
      apply existsb_elem_of. by exists s. }
  unfold ValidateNested.
  destruct (nested requirement) as [| | | | | |l|m] eqn:Hn;
    try (change (supplied v) with (supplied v); rewrite <- (Hcross (normalize _));
         split; [intros H; right; destruct v; exact H
                |intros [?|H]; [done|destruct v; exact H]]).
  split; [by left|done].
Qed.

(** C6, amended. A nil nested requirement accepts every value. Otherwise
    the nested requirement is normalized into a list (a list stays a list,
    any other value becomes a one-element list) and so is every supplied
    value except null, for which the list is empty; the call succeeds
    exactly when some required value is deeply equal to some supplied
    value. On every supplied value but null this is the comparison the
    specification words, and a null value fails every nested requirement
    that is not nil. *)
Theorem C6_ValidateNested_cross_product
    (requirement : ValueRequirement) (v : any) :
  (nested requirement = Nil -> ValidateNested requirement v = true)
  /\ (ValidateNested requirement v = true
      <-> nested requirement = Nil
          \/ exists r s, r ∈ normalize (nested requirement) /\ s ∈ supplied v
                         /\ DeepEqual r s = true)
  /\ (v <> Nil ->
      ValidateNested requirement v = ValidateNested_spec requirement v)
  /\ (nested requirement <> Nil -> v = Nil ->
      ValidateNested requirement v = false).
Proof.
  split_and!.
  - intros Hn. apply ValidateNested_true. by left.
  - apply ValidateNested_true.
  - intros Hv. unfold ValidateNested, ValidateNested_spec.
    destruct (nested requirement); destruct v; done.
  - intros Hn ->. unfold ValidateNested.
    destruct (nested requirement) as [| | | | | |l|m]; try done.
    simpl. clear Hn. induction l as [|r l IH]; [done|]. simpl. exact IH.
Qed.

Lemma C6_ValidateNested_witness :
  ValidateNested {| value := Str "test.example.com"; nested := Nil |}
                 (Str "guest") = true
  /\ ValidateNested {| value := Str "test.example.com";
                       nested := Slice [Str "user"; Str "admin"] |}
                    (Slice [Str "other"; Str "admin"])
     = ValidateNested_spec {| value := Str "test.example.com";
                              nested := Slice [Str "user"; Str "admin"] |}
                           (Slice [Str "other"; Str "admin"])
  /\ ValidateNested {| value := Str "test.example.com"; nested := Str "user" |}
                    Nil = false.
Proof.
  split_and!.
  - destruct (C6_ValidateNested_cross_product
                {| value := Str "test.example.com"; nested := Nil |}
                (Str "guest")) as (H & _).
    apply H. reflexivity.
  - destruct (C6_ValidateNested_cross_product
                {| value := Str "test.example.com";
                   nested := Slice [Str "user"; Str "admin"] |}
                (Slice [Str "other"; Str "admin"])) as (_ & _ & H & _).
    apply H. discriminate.
  - destruct (C6_ValidateNested_cross_product
                {| value := Str "test.example.com"; nested := Str "user" |}
                Nil) as (_ & _ & _ & H).
    apply H; [discriminate|reflexivity].
Defined.

(** C6 as stated fails: with the nested requirement [[null]] and the
    supplied value null, normalizing both the same way finds the equal
    pair, and [ValidateNested] returns false. *)
Lemma C6_null_supplied_counterexample :
  ValidateNested_spec {| value := Str "test.example.com"; nested := Slice [Nil] |}
                      Nil = true
  /\ ValidateNested {| value := Str "test.example.com"; nested := Slice [Nil] |}
                    Nil = false.
Proof. split; reflexivity. Qed.

(** ** The key cache *)

Lemma isIssuedKey_true iks kid : isIssuedKey iks kid = true <-> issued iks kid.
Proof.
  unfold isIssuedKey, issued. rewrite existsb_elem_of. split.
  - intros ([url ks] & Hin%elem_of_map_to_list & H%bool_decide_eq_true).
    by exists url, ks.
  - intros (url & ks & Hl & H). exists (url, ks).
    split; [by apply elem_of_map_to_list|by apply bool_decide_eq_true].
Qed.

Lemma lookup_purge_loop iks order ks kid key :
  purge_loop iks order ks !! kid = Some key
  <-> ks !! kid = Some key /\ (kid ∈ order -> isIssuedKey iks kid = true).
Proof.
  unfold purge_loop. revert ks.
  induction order as [|k order IH]; intros ks; simpl.
  - split; [intros H; split; [done|]; by intros ?%elem_of_nil|by intros [H _]].
  - rewrite IH. destruct (isIssuedKey iks k) eqn:Hk.
    + split; intros [H1 H2]; (split; [done|]).
      * intros [->|?]%elem_of_cons; [done|by apply H2].
      * intros ?. apply H2. by right.
    + split.
      * intros [[Hne H1]%lookup_delete_Some H2]. split; [done|].
        intros [->|?]%elem_of_cons; [done|by apply H2].
      * intros [H1 H2]. split.
        -- apply lookup_delete_Some. split; [|done].
           intros <-. by rewrite H2 in Hk by left.
        -- intros ?. apply H2. by right.
Qed.

Lemma lookup_purgeKeys plugin kid key :
  keys (purgeKeys plugin) !! kid = Some key
  <-> keys plugin !! kid = Some key /\ issued (issuerKeys plugin) kid.
Proof.
  unfold purgeKeys. simpl. rewrite lookup_purge_loop, isIssuedKey_true.
  split; intros [H1 H2]; (split; [done|]); [|done].
  apply H2. apply list_elem_of_fmap. exists (kid, key).
  split; [done|by apply elem_of_map_to_list].
Qed.

(** Whatever the order, the loop that stores the fetched keys adds them
    to the keys, the fetched key winning. *)
Lemma store_loop_union entries ks :
  NoDup entries.*1 -> store_loop entries ks = list_to_map entries ∪ ks.
Proof.
  unfold store_loop. revert ks.
  induction entries as [|[k v] entries IH]; intros ks Hnd.
  - simpl. by rewrite (left_id_L ∅ (∪)).
  - rewrite fmap_cons in Hnd. apply NoDup_cons in Hnd as [Hk Hnd].
    simpl. rewrite IH by done.
    rewrite <- insert_union_l. symmetry. apply insert_union_r.
    by apply not_elem_of_list_to_map_1.
Qed.

Lemma lookup_storeKeys plugin url jwks kid key :
  keys (storeKeys plugin url jwks) !! kid = Some key
  <-> (jwks ∪ keys plugin) !! kid = Some key
      /\ issued (<[url := jwks]> (issuerKeys plugin)) kid.
Proof.
  unfold storeKeys. rewrite lookup_purgeKeys. simpl.
  rewrite store_loop_union by apply NoDup_fst_map_to_list.
  by rewrite list_to_map_to_list.
Qed.

Lemma issuerKeys_storeKeys plugin url jwks :
  issuerKeys (storeKeys plugin url jwks) = <[url := jwks]> (issuerKeys plugin).
Proof. reflexivity. Qed.

Lemma storeKeys_invariant plugin url jwks :
  cache_invariant (storeKeys plugin url jwks).
Proof.
  intros kid [key Hk]. rewrite issuerKeys_storeKeys.
  by apply lookup_storeKeys in Hk as [_ H].
Qed.

(** Every call of [fetchKeys], failed or not, leaves a cache in which
    every key is held by some issuer, if it found one. *)
Lemma fetchKeys_invariant net plugin issuer :
  cache_invariant plugin -> cache_invariant (fetchKeys net plugin issuer).1.
Proof.
  intros Hinv. unfold fetchKeys.
  destruct (FetchJWKS net _) as [err|jwks]; simpl; [done|].
  apply storeKeys_invariant.
Qed.

(** The invariant of the cache holds from [New] on. *)
Lemma reachable_invariant secrets plugin :
  reachable secrets plugin -> cache_invariant plugin.
Proof.
  induction 1 as [plugin Hk Hi|plugin net issuer _ IH].
  - intros kid [key Hkid]. exists "internal", (internalIssuerKeys secrets).
    rewrite Hi, lookup_singleton_eq. split; [done|].
    unfold internalIssuerKeys. rewrite lookup_fmap, <- Hk, Hkid. by eexists.
  - by apply fetchKeys_invariant.
Qed.

(** C7. After the keys [jwks] fetched from the source [url] are stored
    and the cache is purged: a key ID that no source but [url] held and
    that the fetch does not return is not in the keys map; a key ID in the
    keys map that another source holds is still in it; the fetched keys
    are in it; and every key ID in the keys map is in the key set of some
    source. *)
Theorem C7_store_purges_only_unissued_keys
    (plugin : JWTPlugin) (url : string) (jwks : gmap string Key) :
  let plugin' := storeKeys plugin url jwks in
  (forall kid,
      (forall url' ks, issuerKeys plugin !! url' = Some ks ->
                       is_Some (ks !! kid) -> url' = url) ->
      jwks !! kid = None ->
      keys plugin' !! kid = None)
  /\ (forall kid url' ks,
        url' <> url -> issuerKeys plugin !! url' = Some ks ->
        is_Some (ks !! kid) -> is_Some (keys plugin !! kid) ->
        is_Some (keys plugin' !! kid))
  /\ (forall kid key, jwks !! kid = Some key -> keys plugin' !! kid = Some key)
  /\ (forall kid,
        is_Some (keys plugin' !! kid) ->
        exists url' ks, issuerKeys plugin' !! url' = Some ks
                        /\ is_Some (ks !! kid)).
Proof.
  cbv zeta. split_and!.
  - intros kid Honly Hnew.
    destruct (keys (storeKeys plugin url jwks) !! kid) as [key|] eqn:Hk; [|done].
    apply lookup_storeKeys in Hk as [_ (url' & ks & Hl & Hs)].
    destruct (decide (url' = url)) as [->|Hne].
    + rewrite lookup_insert_eq in Hl. injection Hl as <-.
      rewrite Hnew in Hs. by destruct Hs.
    + rewrite lookup_insert_ne in Hl by done.
      by destruct (Hne (Honly url' ks Hl Hs)).
  - intros kid url' ks Hne Hl Hs [key Hk].
    assert (is_Some ((jwks ∪ keys plugin) !! kid)) as [key' Hk'].
    { rewrite lookup_union. rewrite Hk. by destruct (jwks !! kid). }
    exists key'. apply lookup_storeKeys. split; [done|].
    exists url', ks. by rewrite lookup_insert_ne.
  - intros kid key Hnew. apply lookup_storeKeys. split.
    + by apply lookup_union_Some_l.
    + exists url, jwks. by rewrite lookup_insert_eq, Hnew.
  - apply storeKeys_invariant.
Qed.

Lemma C7_store_purges_witness :
  let plugin' := storeKeys plugin_two_sources url_a {[ "a2" := key_a2 ]} in
  keys plugin' !! "a1" = None
  /\ is_Some (keys plugin' !! "b1")
  /\ keys plugin' !! "a2" = Some key_a2
  /\ exists url' ks, issuerKeys plugin' !! url' = Some ks /\ is_Some (ks !! "b1").
Proof.
  destruct (C7_store_purges_only_unissued_keys
              plugin_two_sources url_a {[ "a2" := key_a2 ]})
    as (Hgone & Hkept & Hnew & Hinv).
  cbv zeta. split_and!.
  - apply Hgone; [|reflexivity].
    intros url' ks Hl Hs. simpl in Hl.
    apply lookup_insert_Some in Hl as [[<- <-]|[Hne Hl]]; [reflexivity|].
    apply lookup_singleton_Some in Hl as [<- <-].
    destruct Hs as [key Hs]. discriminate Hs.
  - apply (Hkept "b1" url_b {[ "b1" := key_b1 ]}).
    + discriminate.
    + reflexivity.
    + eexists; reflexivity.
    + eexists; reflexivity.
  - apply Hnew. reflexivity.
  - apply Hinv. apply (Hkept "b1" url_b {[ "b1" := key_b1 ]}).
    + discriminate.
    + reflexivity.
    + eexists; reflexivity.
    + eexists; reflexivity.
Defined.

(** ** Key resolution *)

Lemma configured_guard plugin :
  negb (Nat.eqb (length (issuers plugin)) 0)
  || negb (Nat.eqb (size (keys plugin)) 0) = true
  <-> configured plugin.
Proof.
  unfold configured.
  rewrite orb_true_iff, !negb_true_iff, !Nat.eqb_neq.
  rewrite length_zero_iff_nil, map_size_empty_iff. done.
Qed.




Lemma getKey_loop_leaves net token id st :
  exists left, getKey_loop 2 net token (Str id) false st = Ok (Some left).
Proof.
  simpl. destruct (keys _ !! id); simpl; [by eexists|].
  destruct (Claims token !! "iss") as [[| | | | |iss| |]|]; simpl;
    try by eexists.
  destruct (isValidIssuer _ _); [destruct (fetchKeys _ _ _) as [plugin' err]|];
    simpl; (destruct (keys _ !! id); simpl; by eexists).
Qed.

(** [getKey] returns whenever the key ID of the token, if it has one, is a
    string. *)
Lemma getKey_returns net plugin token :
  (forall kid, Header token !! "kid" = Some kid -> exists id, kid = Str id) ->
  exists r, getKey net plugin token = Ok (Some r).
Proof.
  intros Hkid. unfold getKey, getKey_fuel.
  destruct (negb _ || negb _); [|by eexists].
  destruct (Header token !! "kid") as [kid|] eqn:Hh; [|by eexists].
  destruct (Hkid kid eq_refl) as [id ->].
  destruct (getKey_loop_leaves net token id (entry plugin)) as [[[key|] st'] ->];
    simpl; by eexists.
Qed.

Lemma chars_append a b :
  GoString.chars (a +:+ b) = (GoString.chars a ++ GoString.chars b)%list.
Proof. induction a as [|c a IH]; simpl; [done|]. by rewrite <- IH. Qed.

Lemma canonicalizeDomain_slash domain :
  GoString.HasSuffix (canonicalizeDomain domain) "/" = true.
Proof.
  unfold canonicalizeDomain.
  destruct (GoString.HasSuffix domain "/") eqn:Hs; [done|].
  unfold GoString.HasSuffix. rewrite chars_append, rev_app_distr. reflexivity.
Qed.

Lemma isValidIssuer_configured plugin issuer :
  isValidIssuer plugin issuer = true -> configured plugin.
Proof.
  unfold isValidIssuer, configured. destruct (issuers plugin); [done|].
  intros _. by left.
Qed.

Lemma lookup_configured plugin id key :
  keys plugin !! id = Some key -> configured plugin.
Proof. intros H. right. intros He. by rewrite He in H. Qed.

Lemma secret_fetchKeys net plugin issuer :
  secret (fetchKeys net plugin issuer).1 = secret plugin.
Proof. unfold fetchKeys. by destruct (FetchJWKS net _). Qed.

Ltac enter_getKey Hconf Hkid :=
  unfold getKey, getKey_fuel;
  rewrite (proj2 (configured_guard _) Hconf), Hkid; simpl.

Lemma getKey_hit net plugin token id key :
  Header token !! "kid" = Some (Str id) -> keys plugin !! id = Some key ->
  getKey net plugin token
  = Ok (Some {| result_plugin := plugin; result_trace := [Lookup id];
                result_key := key; result_err := None |}).
Proof.
  intros Hkid Hkey. enter_getKey (lookup_configured _ _ _ Hkey) Hkid.
  by rewrite Hkey.
Qed.

Lemma getKey_refresh net plugin token id iss :
  Header token !! "kid" = Some (Str id) -> keys plugin !! id = None ->
  Claims token !! "iss" = Some (Str iss) ->
  isValidIssuer plugin (canonicalizeDomain iss) = true ->
  let issuer := canonicalizeDomain iss in
  let fetched := fetchKeys net plugin issuer in
  getKey net plugin token
  = Ok (Some
      match keys fetched.1 !! id with
      | Some key =>
          {| result_plugin := fetched.1;
             result_trace := [Lookup id; Fetch issuer; Lookup id];
             result_key := key; result_err := None |}
      | None =>
          {| result_plugin := fetched.1;
             result_trace := [Lookup id; Fetch issuer; Lookup id];
             result_key := secret plugin;
             result_err :=
               if decide (secret plugin = NoKey) then fetched.2 else None |}
      end).
Proof.
  intros Hkid Hkey Hiss Hvalid.
  enter_getKey (isValidIssuer_configured _ _ Hvalid) Hkid.
  rewrite Hkey, Hiss. simpl. rewrite Hvalid.
  pose proof (secret_fetchKeys net plugin (canonicalizeDomain iss)) as Hsecret.
  destruct (fetchKeys net plugin (canonicalizeDomain iss)) as [plugin' err].
  simpl in *. destruct (keys plugin' !! id); simpl; [done|].
  unfold fallback. simpl. rewrite Hsecret.
  destruct (decide (secret plugin = NoKey)) as [->|]; done.
Qed.

Lemma getKey_issuer_not_valid net plugin token id iss :
  configured plugin ->
  Header token !! "kid" = Some (Str id) -> keys plugin !! id = None ->
  Claims token !! "iss" = Some (Str iss) ->
  isValidIssuer plugin (canonicalizeDomain iss) = false ->
  getKey net plugin token
  = Ok (Some {| result_plugin := plugin;
                result_trace := [Lookup id; Lookup id];
                result_key := secret plugin;
                result_err :=
                  if decide (secret plugin = NoKey)
                  then Some ("issuer " +:+ canonicalizeDomain iss
                             +:+ " is not valid")
                  else None |}).
Proof.
  intros Hconf Hkid Hkey Hiss Hvalid. enter_getKey Hconf Hkid.
  rewrite Hkey, Hiss. simpl. rewrite Hvalid. simpl. rewrite Hkey. simpl.
  unfold fallback. simpl.
  destruct (decide (secret plugin = NoKey)) as [->|]; done.
Qed.

Lemma getKey_no_issuer net plugin token id :
  configured plugin ->
  Header token !! "kid" = Some (Str id) -> keys plugin !! id = None ->
  (forall iss, Claims token !! "iss" <> Some (Str iss)) ->
  getKey net plugin token
  = Ok (Some {| result_plugin := plugin; result_trace := [Lookup id];
                result_key := secret plugin;
                result_err :=
                  if decide (secret plugin = NoKey)
                  then Some "no secret configured" else None |}).
Proof.
  intros Hconf Hkid Hkey Hiss. enter_getKey Hconf Hkid. rewrite Hkey.
  assert (Hfall : fallback (log (Lookup id) (entry plugin))
    = {| result_plugin := plugin; result_trace := [Lookup id];
         result_key := secret plugin;
         result_err := if decide (secret plugin = NoKey)
                       then Some "no secret configured" else None |}).
  { unfold fallback. simpl.
    destruct (decide (secret plugin = NoKey)) as [->|]; done. }
  destruct (Claims token !! "iss") as [[| | | | |iss| |]|] eqn:Hc; simpl;
    try (by rewrite Hfall).
  by destruct (Hiss iss).
Qed.

Lemma getKey_no_lookup net plugin token :
  ~ configured plugin \/ Header token !! "kid" = None ->
  getKey net plugin token
  = Ok (Some {| result_plugin := plugin; result_trace := [];
                result_key := secret plugin;
                result_err :=
                  if decide (secret plugin = NoKey)
                  then Some "no secret configured" else None |}).
Proof.
  assert (Hfall : fallback (entry plugin)
    = {| result_plugin := plugin; result_trace := [];
         result_key := secret plugin;
         result_err := if decide (secret plugin = NoKey)
                       then Some "no secret configured" else None |}).
  { unfold fallback. simpl.
    destruct (decide (secret plugin = NoKey)) as [->|]; done. }
  intros H. unfold getKey, getKey_fuel.
  destruct (negb _ || negb _) eqn:Hg; [|by rewrite Hfall].
  destruct H as [H|H]; [by apply configured_guard in Hg|].
  by rewrite H, Hfall.
Qed.




(** When the fetch succeeds and the key is still not there, the error of
    [getKey] is the nil error of the fetch: with no fixed secret the call
    returns neither a key nor an error. *)
Lemma getKey_refreshed_without_match :
  getKey net_rotated plugin_two_sources token_a9
  = Ok (Some {| result_plugin :=
                  storeKeys plugin_two_sources url_a {[ "a2" := key_a2 ]};
                result_trace := [Lookup "a9"; Fetch "https://a.example.com/";
                                 Lookup "a9"];
                result_key := NoKey; result_err := None |}).
Proof. vm_compute. reflexivity. Qed.

(** C10. With an issuer or a key configured, a token whose header has a
    "kid" that is not a string makes [getKey] panic, whatever the fixed
    secret, the issuer claim and the answers of the issuers; with nothing
    configured the key ID is not looked at and [getKey] returns the fixed
    secret or the error "no secret configured". *)
Theorem C10_getKey_panics_on_non_string_kid
    (net : Network) (plugin : JWTPlugin) (token : Token) (kid : any) :
  Header token !! "kid" = Some kid ->
  (forall id, kid <> Str id) ->
  (configured plugin ->
   forall fuel, (1 <= fuel)%nat -> getKey_fuel fuel net plugin token = Panic)
  /\ (~ configured plugin ->
      getKey net plugin token
      = Ok (Some {| result_plugin := plugin; result_trace := [];
                    result_key := secret plugin;
                    result_err :=
                      if decide (secret plugin = NoKey)
                      then Some "no secret configured" else None |})).
Proof.
  intros Hkid Hnot. split.
  - intros Hconf fuel Hf. destruct fuel as [|fuel]; [lia|].
    unfold getKey_fuel.
    rewrite (proj2 (configured_guard _) Hconf), Hkid. simpl.
    destruct kid as [| | | | |id| |]; try done. by destruct (Hnot id).
  - intros Hconf. apply getKey_no_lookup. by left.
Qed.

Lemma C10_getKey_panics_witness :
  getKey_fuel 2 net_down plugin_two_sources token_kid_number = Panic
  /\ getKey net_down plugin_aud token_kid_number
     = Ok (Some {| result_plugin := plugin_aud; result_trace := [];
                   result_key := HMACSecret "fixed secret";
                   result_err := None |}).
Proof.
  split.
  - destruct (C10_getKey_panics_on_non_string_kid
                net_down plugin_two_sources token_kid_number
                (Float64 (S754_finite false 7881299347898368 (-50))))
      as [H _].
    + reflexivity.
    + intros id. discriminate.
    + apply H; [left; discriminate|lia].
  - destruct (C10_getKey_panics_on_non_string_kid
                net_down plugin_aud token_kid_number
                (Float64 (S754_finite false 7881299347898368 (-50))))
      as [_ H].
    + reflexivity.
    + intros id. discriminate.
    + apply H. intros [Hc|Hc]; by destruct Hc.
Defined.

(** ** The freshness rule *)

Lemma digit_not_point c d : Strconv.digit c = Some d -> Ascii.eqb c "." = false.
Proof.
  intros H. destruct (Ascii.eqb c ".") eqn:Hc; [|done].
  apply Ascii.eqb_eq in Hc. by subst c.
Qed.

Lemma mantissa_digits s acc v sawdigits :
  Strconv.digits acc s = Some v -> s <> [] \/ sawdigits = true ->
  Strconv.mantissa acc 0 false sawdigits s = (v, 0, true, []).
Proof.
  revert acc sawdigits. induction s as [|c s IH]; intros acc sawdigits; simpl.
  - intros [= ->] [?| ->]; done.
  - destruct (Strconv.digit c) as [d|] eqn:Hd; [|done].
    rewrite (digit_not_point c d Hd). intros H _. apply IH; [done|by right].
Qed.

(** A number that [Int64] converts denotes that integer. *)
Lemma Int64_decimal n v :
  Number_Int64 n = Some v -> Strconv.decimal n = Some (inject_Z v).
Proof.
  unfold Number_Int64, Strconv.ParseInt, Strconv.decimal, Strconv.literal.
  destruct (GoString.chars n) as [|c rest]; [done|].
  assert (Hbody : forall neg body,
    match Strconv.unsigned body with
    | Some un =>
        if negb neg && (2 ^ 63 <=? un) then None
        else if neg && (2 ^ 63 <? un) then None
        else Some (if neg then - un else un)
    | None => None
    end = Some v ->
    match
      (let '(m, frac, sawdigits, rest') :=
         Strconv.mantissa 0 0 false false body in
       if negb sawdigits then None
       else match Strconv.exponent rest' with
            | Some e => Some (neg, m, e - frac)
            | None => None
            end)
    with
    | Some (neg, m, e) =>
        Some (if neg
              then Qopp (if 0 <=? e then inject_Z (m * 10 ^ e)
                         else Qmake m (Z.to_pos (10 ^ (- e))))
              else (if 0 <=? e then inject_Z (m * 10 ^ e)
                    else Qmake m (Z.to_pos (10 ^ (- e)))))
    | None => None
    end = Some (inject_Z v)).
  { intros neg body. unfold Strconv.unsigned.
    destruct body as [|b body]; [done|].
    destruct (Strconv.digits 0 (b :: body)) as [un|] eqn:Hd; [|done].
    rewrite (mantissa_digits _ _ _ false Hd) by (by left). simpl.
    change (0 - 0) with 0. rewrite Z.pow_0_r, Z.mul_1_r.
    destruct neg; simpl.
    - destruct (2 ^ 63 <? un); [done|]. intros [= <-]. reflexivity.
    - destruct (2 ^ 63 <=? un); [done|]. intros [= <-]. reflexivity. }
  destruct (Ascii.eqb c "+"); [apply Hbody|].
  destruct (Ascii.eqb c "-"); apply Hbody.
Qed.

Lemma wrap64_id z : in_int64 z = true -> wrap64 z = z.
Proof.
  unfold in_int64, wrap64. intros [H1 H2]%andb_true_iff.
  apply Z.leb_le in H1, H2. rewrite Z.mod_small; lia.
Qed.

(** [allowRefresh] panics exactly when a window is configured and the iat
    claim is there and is not a number. *)
Lemma allowRefresh_Panic plugin now claims :
  allowRefresh plugin now claims = Panic
  <-> freshness plugin <> 0
      /\ exists v, claims !! "iat" = Some v /\ forall n, v <> Number n.
Proof.
  unfold allowRefresh. destruct (Z.eqb_spec (freshness plugin) 0) as [->|Hf].
  { split; [done|]. by intros [? _]. }
  destruct (claims !! "iat") as [v|].
  - destruct v as [| | | |n| | |];
      try (split; [intros _; split; [done|]; eexists; split; [done|done]|done]).
    split.
    + by destruct (Number_Int64 n).
    + intros (_ & v & [= <-] & Hn). by destruct (Hn n).
  - split; [done|]. by intros (_ & v & ? & _).
Qed.

Lemma validate_parsed Parse plugin now request variables token request' claims :
  extractToken plugin request = Ok (token, request') -> token <> "" ->
  Parse token = Ok (inr claims) ->
  validate Parse plugin now request variables
  = '(status, err) ← validateParsed plugin now claims variables;
    Ok (status, err, request').
Proof.
  intros He Ht%String.eqb_neq Hp. unfold validate. rewrite He. simpl.
  rewrite Ht, Hp. reflexivity.
Qed.

(** C3, amended. For a request whose token parses and whose claims fail
    validation, [validate] returns: Forbidden when no freshness window is
    configured or the token has no iat claim; with a window [F] and an iat
    claim that is a number written as a decimal integer [v] of 64 bits,
    for which [now - v] does not overflow, Unauthorized exactly when
    [now - v > F] and Forbidden otherwise; Forbidden with a window and an
    iat claim that is a number written any other way. *)
Theorem C3_freshness_decides_between_401_and_403
    (Parse : string -> result (string + MapClaims))
    (plugin : JWTPlugin) (now : Z) (request request' : Request)
    (token : string) (claims : MapClaims)
    (variables : TemplateVariables) (err : string) :
  extractToken plugin request = Ok (token, request') -> token <> "" ->
  Parse token = Ok (inr claims) ->
  validateClaims plugin claims variables = Some err ->
  let outcome := validate Parse plugin now request variables in
  (freshness plugin = 0 \/ claims !! "iat" = None ->
   outcome = Ok (StatusForbidden, Some err, request'))
  /\ (forall iat v,
        freshness plugin <> 0 -> claims !! "iat" = Some (Number iat) ->
        Number_Int64 iat = Some v -> in_int64 (now - v) = true ->
        Strconv.decimal iat = Some (inject_Z v)
        /\ (now - v > freshness plugin ->
            outcome = Ok (StatusUnauthorized, Some err, request'))
        /\ (now - v <= freshness plugin ->
            outcome = Ok (StatusForbidden, Some err, request')))
  /\ (forall iat,
        freshness plugin <> 0 -> claims !! "iat" = Some (Number iat) ->
        Number_Int64 iat = None ->
        outcome = Ok (StatusForbidden, Some err, request')).
Proof.
  intros He Ht Hp Hfail. cbv zeta.
  rewrite (validate_parsed _ _ _ _ _ _ _ _ He Ht Hp).
  unfold validateParsed, allowRefresh. rewrite Hfail.
  split_and!.
  - intros [-> | ->]; [done|]. by destruct (freshness plugin =? 0).
  - intros iat v Hf%Z.eqb_neq -> Hv Hrange. rewrite Hf, Hv.
    rewrite wrap64_id by done. split_and!.
    + by apply Int64_decimal.
    + intros Hgt. by rewrite (proj2 (Z.gtb_gt _ _) Hgt).
    + intros Hle. destruct (Z.gtb_spec (now - v) (freshness plugin)); [lia|done].
  - intros iat Hf%Z.eqb_neq -> Hv. by rewrite Hf, Hv.
Qed.

Lemma C3_freshness_witness :
  let outcome (now : Z) (claims : MapClaims) :=
    validate (fun _ => Ok (inr claims)) plugin_aud now request_bearer ∅ in
  outcome now_2027 claims_iat_old
  = Ok (StatusUnauthorized, Some "claim is not valid: aud", request_bearer)
  /\ outcome 1692451200 claims_iat_old
     = Ok (StatusForbidden, Some "claim is not valid: aud", request_bearer)
  /\ outcome now_2027 {[ "aud" := Str "other" ]}
     = Ok (StatusForbidden, Some "claim is not valid: aud", request_bearer)
  /\ outcome now_2027 claims_iat_fraction
     = Ok (StatusForbidden, Some "claim is not valid: aud", request_bearer).
Proof.
  assert (Hne : freshness plugin_aud <> 0) by discriminate.
  assert (He : extractToken plugin_aud request_bearer
               = Ok ("abc.def.ghi", request_bearer)) by reflexivity.
  assert (Ht : "abc.def.ghi" <> "") by discriminate.
  assert (Hold : validateClaims plugin_aud claims_iat_old ∅
                 = Some "claim is not valid: aud") by reflexivity.
  assert (Hnone : validateClaims plugin_aud {[ "aud" := Str "other" ]} ∅
                  = Some "claim is not valid: aud") by reflexivity.
  assert (Hfraction : validateClaims plugin_aud claims_iat_fraction ∅
                      = Some "claim is not valid: aud") by reflexivity.
  cbv zeta. split_and!.
  - destruct (C3_freshness_decides_between_401_and_403
                (fun _ => Ok (inr claims_iat_old)) plugin_aud now_2027
                request_bearer request_bearer "abc.def.ghi" claims_iat_old ∅ _
                He Ht eq_refl Hold) as (_ & H & _).
    destruct (H "1692451139" 1692451139 Hne eq_refl eq_refl eq_refl)
      as (_ & Hstale & _).
    apply Hstale. reflexivity.
  - destruct (C3_freshness_decides_between_401_and_403
                (fun _ => Ok (inr claims_iat_old)) plugin_aud 1692451200
                request_bearer request_bearer "abc.def.ghi" claims_iat_old ∅ _
                He Ht eq_refl Hold) as (_ & H & _).
    destruct (H "1692451139" 1692451139 Hne eq_refl eq_refl eq_refl)
      as (_ & _ & Hfresh).
    apply Hfresh. discriminate.
  - destruct (C3_freshness_decides_between_401_and_403
                (fun _ => Ok (inr {[ "aud" := Str "other" ]})) plugin_aud
                now_2027 request_bearer request_bearer "abc.def.ghi"
                {[ "aud" := Str "other" ]} ∅ _
                He Ht eq_refl Hnone) as (H & _).
    apply H. right. reflexivity.
  - destruct (C3_freshness_decides_between_401_and_403
                (fun _ => Ok (inr claims_iat_fraction)) plugin_aud now_2027
                request_bearer request_bearer "abc.def.ghi"
                claims_iat_fraction ∅ _
                He Ht eq_refl Hfraction) as (_ & _ & H).
    apply (H "1692451139.5" Hne eq_refl eq_refl).
Defined.

(** C3 as stated fails: the window is 3600 seconds, the iat claim is the
    number 1692451139.5, which is more than 3600 seconds before [now], the
    claims fail validation, and the outcome is Forbidden. *)
Lemma C3_fractional_iat_counterexample :
  freshness plugin_aud = 3600
  /\ claims_iat_fraction !! "iat" = Some (Number "1692451139.5")
  /\ Strconv.decimal "1692451139.5" = Some (Qmake 16924511395 10)
  /\ Qlt (inject_Z (freshness plugin_aud))
         (Qminus (inject_Z now_2027) (Qmake 16924511395 10))
  /\ validateClaims plugin_aud claims_iat_fraction ∅
     = Some "claim is not valid: aud"
  /\ validate (fun _ => Ok (inr claims_iat_fraction)) plugin_aud now_2027
              request_bearer ∅
     = Ok (StatusForbidden, Some "claim is not valid: aud", request_bearer).
Proof. split_and!; reflexivity. Qed.

(** C4 on the code: for a request whose token parses, whose claims fail
    validation and whose iat claim is present and is not a number, with a
    freshness window configured, [allowRefresh] panics on its unchecked
    type assertion and [validate] returns no status at all. *)
Theorem C4_non_numeric_iat_panics
    (Parse : string -> result (string + MapClaims))
    (plugin : JWTPlugin) (now : Z) (request request' : Request)
    (token : string) (claims : MapClaims)
    (variables : TemplateVariables) (err : string) (iat : any) :
  extractToken plugin request = Ok (token, request') -> token <> "" ->
  Parse token = Ok (inr claims) ->
  validateClaims plugin claims variables = Some err ->
  freshness plugin <> 0 ->
  claims !! "iat" = Some iat -> (forall n, iat <> Number n) ->
  allowRefresh plugin now claims = Panic
  /\ validate Parse plugin now request variables = Panic.
Proof.
  intros He Ht Hp Hfail Hf Hiat Hn.
  assert (Hpanic : allowRefresh plugin now claims = Panic).
  { apply allowRefresh_Panic. split; [done|]. by exists iat. }
  split; [done|].
  rewrite (validate_parsed _ _ _ _ _ _ _ _ He Ht Hp).
  unfold validateParsed. by rewrite Hfail, Hpanic.
Qed.

Lemma C4_non_numeric_iat_witness :
  allowRefresh plugin_aud now_2027 claims_iat_text = Panic
  /\ validate (fun _ => Ok (inr claims_iat_text)) plugin_aud now_2027
              request_bearer ∅ = Panic.
Proof.
  apply (C4_non_numeric_iat_panics
           (fun _ => Ok (inr claims_iat_text)) plugin_aud now_2027
           request_bearer request_bearer "abc.def.ghi" claims_iat_text ∅
           "claim is not valid: aud" (Str "yesterday")).
  - reflexivity.
  - discriminate.
  - reflexivity.
  - reflexivity.
  - discriminate.
  - reflexivity.
  - intros n. discriminate.
Defined.

(** ** Token extraction *)

Lemma length_zero_eqb s : Nat.eqb (String.length s) 0 = String.eqb s "".
Proof. by destruct s. Qed.

Lemma last_source q :
  match (if negb (String.eqb q "") then Some q else None) with
  | Some s => s
  | None => ""
  end = q.
Proof. by destruct (String.eqb_spec q "") as [->|]. Qed.

Lemma cookie_step plugin request :
  let step :=
    if negb (String.eqb (cookieName plugin) "")
    then extractTokenFromCookie plugin request
    else ("", request) in
  step.1 = cookieSource plugin request
  /\ HeaderMap step.2 = HeaderMap request
  /\ Query step.2 = Query request
  /\ (forwardToken plugin = true -> step.2 = request)
  /\ (forwardToken plugin = false -> step.1 <> "" ->
      forall c, c ∈ Cookies step.2 -> c.1 <> cookieName plugin).
Proof.
  cbv zeta. unfold cookieSource, extractTokenFromCookie.
  destruct (String.eqb (cookieName plugin) ""); simpl; [done|].
  destruct (find _ (Cookies request)) as [cookie|]; simpl; [|done].
  destruct (forwardToken plugin); simpl; split_and!; try done.
  intros _ _ c [_ Hc]%list_elem_of_In%filter_In.
  apply negb_true_iff, String.eqb_neq in Hc. done.
Qed.

Lemma header_step plugin request :
  ServerRequest request ->
  headerName plugin <> "" ->
  exists request',
    extractTokenFromHeader plugin request
    = Ok (headerSource plugin request, request')
    /\ Cookies request' = Cookies request
    /\ Query request' = Query request
    /\ (forwardToken plugin = true -> request' = request)
    /\ (forwardToken plugin = false -> headerSource plugin request <> "" ->
        HeaderMap request' !! headerName plugin = None).
Proof.
  intros Hserver Hname%String.eqb_neq.
  unfold extractTokenFromHeader, headerSource. rewrite Hname.
  destruct (HeaderMap request !! headerName plugin) as [values|] eqn:Hh.
  - destruct (Hserver _ _ Hh) as [Hcanon Hvalues].
    destruct values as [|token values]; [done|].
    eexists. split; [reflexivity|].
    destruct (forwardToken plugin); simpl; split_and!; try done.
    intros _ _. rewrite Hcanon. apply lookup_delete_eq.
  - exists request. done.
Qed.

Lemma query_step plugin request :
  let step := extractTokenFromQuery plugin request in
  parameterName plugin <> "" ->
  step.1 = querySource plugin request
  /\ (forwardToken plugin = true -> step.2 = request)
  /\ (forwardToken plugin = false -> step.1 <> "" ->
      Query step.2 !! parameterName plugin = None).
Proof.
  cbv zeta. intros Hname%String.eqb_neq.
  unfold extractTokenFromQuery, querySource, Values_Get. rewrite Hname.
  destruct (Query request !! parameterName plugin) as [values|] eqn:Hq.
  - rewrite bool_decide_eq_true_2 by done. simpl.
    destruct (forwardToken plugin); simpl; split_and!; try done.
    intros _ _. apply lookup_delete_eq.
  - rewrite bool_decide_eq_false_2 by (by intros [? ?]). done.
Qed.

(** For a request as the HTTP server builds it, [extractToken] returns
    the first non-empty of: the value of the configured cookie, the first
    value the header map holds under the configured header name as it is
    written, without a "Bearer " prefix in any case, and the first value
    of the configured query parameter. With token forwarding the request
    is left as it is; without it, the source that yields the token is
    gone from the request. *)
Theorem extractToken_first_source_wins
    (plugin : JWTPlugin) (request : Request) :
  ServerRequest request ->
  exists request',
    extractToken plugin request
    = Ok (firstNonEmpty [cookieSource plugin request;
                         headerSource plugin request;
                         querySource plugin request], request')
    /\ (forwardToken plugin = true -> request' = request)
    /\ (forwardToken plugin = false ->
        (cookieSource plugin request <> "" ->
         forall c, c ∈ Cookies request' -> c.1 <> cookieName plugin)
        /\ (cookieSource plugin request = "" ->
            headerSource plugin request <> "" ->
            HeaderMap request' !! headerName plugin = None)
        /\ (cookieSource plugin request = "" ->
            headerSource plugin request = "" ->
            querySource plugin request <> "" ->
            Query request' !! parameterName plugin = None)).
Proof.
  intros Hserver. unfold extractToken, firstNonEmpty.
  destruct (cookie_step plugin request) as (Ht1 & Hh1 & Hq1 & Hfw1 & Hrm1).
  cbv zeta in *.
  destruct (if negb (String.eqb (cookieName plugin) "")
            then extractTokenFromCookie plugin request
            else ("", request)) as [t1 r1].
  simpl in *. subst t1. rewrite length_zero_eqb.
  destruct (String.eqb_spec (cookieSource plugin request) "") as [Hc|Hc];
    simpl.
  2:{ rewrite length_zero_eqb, (proj2 (String.eqb_neq _ _) Hc). simpl.
      exists r1. split_and!; try done. intros Hf. split_and!; try done.
      by apply Hrm1. }
  assert (Hsame : headerSource plugin r1 = headerSource plugin request).
  { unfold headerSource. by rewrite Hh1. }
  assert (Hsameq : forall r2, Query r2 = Query request ->
            querySource plugin r2 = querySource plugin request).
  { intros r2 Hr2. unfold querySource. by rewrite Hr2. }
  destruct (String.eqb_spec (headerName plugin) "") as [Hhn|Hhn]; simpl.
  - assert (Hhs : headerSource plugin request = "").
    { unfold headerSource. by rewrite Hhn. }
    rewrite Hhs, Hc. simpl.
    destruct (String.eqb_spec (parameterName plugin) "") as [Hpn|Hpn]; simpl.
    + assert (Hqs : querySource plugin request = "").
      { unfold querySource. by rewrite Hpn. }
      rewrite Hqs. simpl. exists r1. split_and!; try done.
    + destruct (query_step plugin r1 Hpn) as (Ht3 & Hfw3 & Hrm3).
      destruct (extractTokenFromQuery plugin r1) as [t3 r3]. simpl in *.
      rewrite (Hsameq r1 Hq1) in Ht3. subst t3.
      exists r3. split.
      { by rewrite last_source. }
      split_and!.
      * intros Hf. rewrite (Hfw3 Hf). by apply Hfw1.
      * intros Hf. split_and!; try done. intros _ _. by apply Hrm3.
  - assert (Hserver1 : ServerRequest r1).
    { intros name values. rewrite Hh1. apply Hserver. }
    destruct (header_step plugin r1 Hserver1 Hhn)
      as (r2 & -> & Hc2 & Hq2 & Hfw2 & Hrm2).
    rewrite Hsame in *. simpl. rewrite length_zero_eqb.
    destruct (String.eqb_spec (headerSource plugin request) "") as [Hs|Hs];
      simpl.
    2:{ exists r2. split_and!; try done.
        - intros Hf. rewrite (Hfw2 Hf). by apply Hfw1.
        - intros Hf. split_and!; try done. intros _ _. by apply Hrm2. }
    destruct (String.eqb_spec (parameterName plugin) "") as [Hpn|Hpn]; simpl.
    + assert (Hqs : querySource plugin request = "").
      { unfold querySource. by rewrite Hpn. }
      rewrite Hqs. simpl. exists r2. split; [by rewrite Hs|].
      split_and!; try done.
      intros Hf. rewrite (Hfw2 Hf). by apply Hfw1.
    + destruct (query_step plugin r2 Hpn) as (Ht3 & Hfw3 & Hrm3).
      destruct (extractTokenFromQuery plugin r2) as [t3 r3]. simpl in *.
      rewrite (Hsameq r2) in Ht3 by congruence. subst t3.
      exists r3. split.
      { by rewrite last_source. }
      split_and!.
      * intros Hf. rewrite (Hfw3 Hf), (Hfw2 Hf). by apply Hfw1.
      * intros Hf. split_and!; try done. intros _ _. by apply Hrm3.
Qed.

Lemma extractToken_first_source_witness :
  (exists request',
     extractToken plugin_strip request_bearer = Ok ("abc.def.ghi", request')
     /\ HeaderMap request' !! "Authorization" = None)
  /\ exists request',
       extractToken plugin_aud request_bearer = Ok ("abc.def.ghi", request')
       /\ request' = request_bearer.
Proof.
  assert (Hserver : ServerRequest request_bearer).
  { intros name values H. unfold request_bearer in H. simpl in H.
    apply lookup_singleton_Some in H as [<- <-].
    split; [reflexivity|discriminate]. }
  split.
  - destruct (extractToken_first_source_wins plugin_strip request_bearer
                Hserver) as (request' & He & _ & Hgone).
    exists request'. split; [exact He|].
    destruct (Hgone eq_refl) as (_ & Hheader & _).
    apply Hheader; [reflexivity|discriminate].
  - destruct (extractToken_first_source_wins plugin_aud request_bearer
                Hserver) as (request' & He & Hforward & _).
    exists request'. split; [exact He|]. apply Hforward. reflexivity.
Defined.

(** C9. The header is read from the header map under the configured name
    as it is written, and deleted under the canonical form of that name.
    With the header name configured as authorization, a request as the
    HTTP server builds it, which carries the token under Authorization,
    yields no token: [extractToken] returns the empty text and [validate]
    answers 401, no token provided, where the same request yields the
    token to a plugin with the name configured as Authorization. And a
    request whose header map does hold the token under authorization
    yields it, but with token forwarding switched off the header is still
    in the request afterwards. *)
Theorem C9_header_is_read_under_the_name_as_written :
  ServerRequest request_bearer
  /\ Textproto.CanonicalMIMEHeaderKey (headerName plugin_lower_case)
     = headerName plugin_strip
  /\ (exists request',
        extractToken plugin_strip request_bearer = Ok ("abc.def.ghi", request')
        /\ HeaderMap request' !! "Authorization" = None)
  /\ extractToken plugin_lower_case request_bearer = Ok ("", request_bearer)
  /\ (forall (Parse : string -> result (string + MapClaims)) now variables,
        validate Parse plugin_lower_case now request_bearer variables
        = Ok (StatusUnauthorized, Some "no token provided", request_bearer))
  /\ (exists request',
        extractToken plugin_lower_case request_raw_name
        = Ok ("abc.def.ghi", request')
        /\ HeaderMap request' !! "authorization"
           = Some ["Bearer abc.def.ghi"]).
Proof.
  assert (extractToken plugin_lower_case request_bearer
          = Ok ("", request_bearer)) as Hnone
    by (vm_compute; reflexivity).
  split_and!.
  - intros name values H. unfold request_bearer in H. cbn [HeaderMap] in H.
    apply lookup_singleton_Some in H as [<- <-].
    split; [reflexivity|discriminate].
  - vm_compute. reflexivity.
  - eexists. split; vm_compute; reflexivity.
  - exact Hnone.
  - intros Parse now variables. unfold validate. rewrite Hnone. reflexivity.
  - eexists. split; vm_compute; reflexivity.
Qed.

(** * Further properties of the package *)

(** ** Tokens in a header value *)

Lemma to_lower_or_0x20 c :
  GoString.to_lower c = c \/ GoString.to_lower c = or_0x20 c.
Proof. destruct c as [[] [] [] [] [] [] [] []]; vm_compute; auto. Qed.

Lemma equal_fold_length mid token :
  GoString.equal_fold mid token = true -> length mid = length token.
Proof.
  revert token. induction mid as [|c mid IH]; intros [|t token]; simpl; try done.
  intros [_ H]%andb_true_iff. f_equal. by apply IH.
Qed.

Lemma equal_fold_refl s : GoString.equal_fold s s = true.
Proof.
  induction s as [|c s IH]; simpl; [done|].
  by rewrite Ascii.eqb_refl, IH.
Qed.

(** A pass of the loop does not [continue] when all four tests pass. *)
Lemma hasToken_at_cons t0 token' prev c rest' :
  hasToken_at (t0 :: token') prev (c :: rest')
  = (Ascii.eqb c t0 || Ascii.eqb (or_0x20 c) t0)
    && match prev with Some p => isTokenBoundary p | None => true end
    && match List.skipn (length (t0 :: token')) (c :: rest') with
       | after :: _ => isTokenBoundary after
       | [] => true
       end
    && GoString.equal_fold (List.firstn (length (t0 :: token')) (c :: rest'))
                           (t0 :: token').
Proof.
  unfold hasToken_at.
  destruct (Ascii.eqb c t0), (Ascii.eqb (or_0x20 c) t0); simpl;
    try reflexivity;
    (destruct prev as [p|]; [destruct (isTokenBoundary p)|]; simpl;
     try reflexivity;
     destruct (List.skipn (length token') rest') as [|after tl]; simpl;
     try reflexivity; destruct (isTokenBoundary after); reflexivity).
Qed.

Lemma hasToken_at_true token prev rest :
  hasToken_at token prev rest = true
  <-> exists c t0 rest' token',
        rest = c :: rest' /\ token = t0 :: token'
        /\ (c = t0 \/ or_0x20 c = t0)
        /\ match prev with Some p => isTokenBoundary p = true | None => True end
        /\ match List.skipn (length token) rest with
           | after :: _ => isTokenBoundary after = true
           | [] => True
           end
        /\ GoString.equal_fold (List.firstn (length token) rest) token = true.
Proof.
  destruct rest as [|c rest']; [|destruct token as [|t0 token']].
  - split; [by destruct token|]. by intros (? & ? & ? & ? & ? & _).
  - split; [done|]. by intros (? & ? & ? & ? & _ & ? & _).
  - rewrite hasToken_at_cons, !andb_true_iff, orb_true_iff, !Ascii.eqb_eq.
    split.
    + intros [[[H1 Hp] Ha] He]. exists c, t0, rest', token'.
      split_and!; try done.
      * by destruct prev.
      * by destruct (List.skipn (length (t0 :: token')) (c :: rest')).
    + intros (c' & t0' & r' & tk' & [= <- <-] & [= <- <-] & H1 & Hp & Ha & He).
      split_and!; try done.
      * by destruct prev.
      * by destruct (List.skipn (length (t0 :: token')) (c :: rest')).
Qed.

(** What precedes an occurrence found by the loop: the characters of the
    header from [start] on, or else the character before [start]. *)
Lemma last_or_prev (prev : option ascii) (c : ascii) (pre : list ascii) :
  match last (c :: pre) with
  | Some x => isTokenBoundary x = true
  | None => match prev with Some p => isTokenBoundary p = true | None => True end
  end
  <-> match last pre with
      | Some x => isTokenBoundary x = true
      | None => isTokenBoundary c = true
      end.
Proof.
  destruct pre as [|d pre]; [done|].
  rewrite last_cons_cons.
  destruct (last (d :: pre)) eqn:Hl; [done|]. by apply last_None in Hl.
Qed.

Lemma hasToken_loop_true token prev rest :
  token <> [] ->
  hasToken_loop token prev rest = true
  <-> exists pre mid post,
        rest = (pre ++ mid ++ post)%list
        /\ GoString.equal_fold mid token = true
        /\ match mid, token with
           | c :: _, t0 :: _ => c = t0 \/ or_0x20 c = t0
           | _, _ => True
           end
        /\ match last pre with
           | Some x => isTokenBoundary x = true
           | None =>
               match prev with
               | Some p => isTokenBoundary p = true
               | None => True
               end
           end
        /\ match post with
           | c :: _ => isTokenBoundary c = true
           | [] => True
           end.
Proof.
  intros Htoken. revert prev.
  induction rest as [|c rest IH]; intros prev.
  - simpl. destruct token as [|t0 token']; [done|]. simpl. split; [done|].
    intros (pre & mid & post & Hr & He & _).
    symmetry in Hr. apply app_eq_nil in Hr as [_ [-> _]%app_eq_nil].
    done.
  - cbn [hasToken_loop].
    destruct (Nat.ltb_spec (length (c :: rest)) (length token)) as [Hlt|Hge].
    { split; [done|]. intros (pre & mid & post & Hr & He & _).
      apply equal_fold_length in He. rewrite Hr, !length_app in Hlt. lia. }
    rewrite orb_true_iff, hasToken_at_true, IH. split.
    + intros [(c' & t0 & r' & tk' & [= <- <-] & -> & H1 & Hp & Ha & He)
             |(pre & mid & post & -> & He & H1 & Hp & Ha)].
      * exists [], (List.firstn (length (t0 :: tk')) (c :: rest)),
               (List.skipn (length (t0 :: tk')) (c :: rest)).
        simpl app. rewrite firstn_skipn. split_and!; try done.
      * exists (c :: pre), mid, post. split_and!; try done.
        apply (last_or_prev prev c pre). by destruct (last pre).
    + intros (pre & mid & post & Hr & He & H1 & Hp & Ha).
      pose proof (equal_fold_length _ _ He) as Hlen.
      destruct pre as [|d pre].
      * left. simpl in Hr. destruct token as [|t0 tk']; [done|].
        destruct mid as [|m0 mid']; [done|]. injection Hr as -> ->.
        exists m0, t0, (mid' ++ post)%list, tk'.
        rewrite <- Hlen.
        change (m0 :: (mid' ++ post)%list) with ((m0 :: mid') ++ post)%list.
        rewrite drop_app_length, take_app_length. split_and!; try done.
      * right. injection Hr as -> ->. exists pre, mid, post.
        split_and!; try done.
        apply (last_or_prev prev d pre) in Hp. by destruct (last pre).
Qed.

Lemma length_chars s : length (GoString.chars s) = String.length s.
Proof. induction s as [|c s IH]; simpl; [done|]. by rewrite IH. Qed.

Lemma chars_inj s t : GoString.chars s = GoString.chars t -> s = t.
Proof.
  intros H. rewrite <- (string_of_list_ascii_of_string s),
    <- (string_of_list_ascii_of_string t).
  unfold GoString.chars in H. by rewrite H.
Qed.

(** X1. [hasToken] answers true only if the token is not empty and occurs
    in the header, letter case apart, between boundaries (a space, a comma,
    a tab, a plus sign or an end of the header); and it finds every such
    occurrence of a token whose first character is not an upper-case
    letter. *)
Theorem X1_hasToken_finds_delimited_occurrences (header token : string) :
  (hasToken header token = true ->
   token <> "" /\ occurs (GoString.chars token) (GoString.chars header))
  /\ (token <> "" ->
      (forall t0 rest, GoString.chars token = t0 :: rest ->
                       GoString.to_lower t0 = t0) ->
      occurs (GoString.chars token) (GoString.chars header) ->
      hasToken header token = true).
Proof.
  assert (Hne : token <> "" -> GoString.chars token <> []).
  { intros Ht Hc. apply Ht. apply chars_inj. by rewrite Hc. }
  unfold hasToken. split.
  - destruct (Nat.ltb _ _); [done|]. simpl.
    destruct (String.eqb_spec token "") as [|Ht]; [done|].
    destruct (String.eqb_spec header token) as [->|Hh].
    + intros _. split; [done|].
      exists [], (GoString.chars token), []. rewrite app_nil_r.
      split_and!; try done. apply equal_fold_refl.
    + intros H. apply hasToken_loop_true in H; [|by apply Hne].
      destruct H as (pre & mid & post & Hr & He & _ & Hp & Ha).
      split; [done|]. exists pre, mid, post. split_and!; try done.
      all: by destruct (last pre).
  - intros Ht Hlow (pre & mid & post & Hr & He & Hp & Ha).
    pose proof (equal_fold_length _ _ He) as Hlen.
    destruct (Nat.ltb_spec (String.length header) (String.length token))
      as [Hlt|_].
    { rewrite <- !length_chars, Hr, !length_app in Hlt. lia. }
    simpl. rewrite (proj2 (String.eqb_neq _ _) Ht).
    destruct (String.eqb header token); [done|].
    apply hasToken_loop_true; [by apply Hne|].
    exists pre, mid, post. split_and!; try done.
    destruct mid as [|m0 mid']; [done|].
    destruct (GoString.chars token) as [|t0 tk'] eqn:Hc; [done|].
      simpl in He. apply andb_true_iff in He as [He _].
      apply Ascii.eqb_eq in He. rewrite (Hlow t0 tk' eq_refl) in He.
      destruct (to_lower_or_0x20 m0) as [H|H]; [left|right]; congruence.
Qed.

Lemma X1_hasToken_witness :
  hasToken "application/grpc+proto" "application/grpc" = true
  /\ occurs (GoString.chars "foo") (GoString.chars "BAR, FOO").
Proof.
  split.
  - destruct (X1_hasToken_finds_delimited_occurrences
                "application/grpc+proto" "application/grpc") as [_ H].
    apply H.
    + discriminate.
    + intros t0 rest [= <- _]. reflexivity.
    + exists [], (GoString.chars "application/grpc"), (GoString.chars "+proto").
      split_and!; reflexivity || exact I.
  - destruct (X1_hasToken_finds_delimited_occurrences "BAR, FOO" "foo")
      as [H _].
    apply H. reflexivity.
Defined.

(** ** Issuers *)

Lemma HasSuffix_slash_append domain :
  GoString.HasSuffix (domain +:+ "/") "/" = true.
Proof.
  unfold GoString.HasSuffix. rewrite chars_append, rev_app_distr. reflexivity.
Qed.

(** X2. [canonicalizeDomain] leaves a domain that ends with a slash as it
    is and is idempotent; so is [canonicalizeDomains], which keeps the
    number and the order of the domains and returns only domains that end
    with a slash. *)
Theorem X2_canonicalizeDomains_idempotent (domains : list string) :
  (forall domain,
      GoString.HasSuffix domain "/" = true -> canonicalizeDomain domain = domain)
  /\ (forall domain,
        canonicalizeDomain (canonicalizeDomain domain) = canonicalizeDomain domain)
  /\ canonicalizeDomains (canonicalizeDomains domains) = canonicalizeDomains domains
  /\ length (canonicalizeDomains domains) = length domains
  /\ (forall i domain,
        canonicalizeDomains domains !! i = Some domain ->
        GoString.HasSuffix domain "/" = true
        /\ exists d, domains !! i = Some d /\ domain = canonicalizeDomain d).
Proof.
  assert (Hfix : forall domain,
    GoString.HasSuffix domain "/" = true -> canonicalizeDomain domain = domain).
  { intros domain H. unfold canonicalizeDomain. by rewrite H. }
  assert (Hidem : forall domain,
    canonicalizeDomain (canonicalizeDomain domain) = canonicalizeDomain domain).
  { intros domain. apply Hfix, canonicalizeDomain_slash. }
  split_and!; try done.
  - unfold canonicalizeDomains. rewrite List.map_map.
    apply List.map_ext. exact Hidem.
  - unfold canonicalizeDomains. apply length_map.
  - intros i domain. unfold canonicalizeDomains.
    change (List.map canonicalizeDomain domains)
      with (canonicalizeDomain <$> domains).
    rewrite list_lookup_fmap. destruct (domains !! i) as [d|]; [|done].
    intros [= <-]. split; [apply canonicalizeDomain_slash|by exists d].
Qed.

Lemma X2_canonicalizeDomains_witness :
  canonicalizeDomain "example.org/" = "example.org/".
Proof.
  destruct (X2_canonicalizeDomains_idempotent []) as (H & _).
  apply H. reflexivity.
Defined.

Lemma literal_plain p :
  forallb literal p = true ->
  forallb plain p = true /\ Forall (fun c => Fnmatch.is_char c "*" = false) p.
Proof.
  induction p as [|c p IH]; simpl; [done|].
  intros [[Hc Hs]%andb_true_iff Hp]%andb_true_iff.
  destruct (IH Hp) as [H1 H2]. rewrite Hc, H1.
  split; [done|]. constructor; [by apply negb_true_iff|done].
Qed.

(** A pattern of characters that stand for themselves matches itself only. *)
Lemma wild_literal p s :
  Forall (fun c => Fnmatch.is_char c "*" = false) p -> wild p s <-> s = p.
Proof.
  intros Hp. revert s. induction Hp as [|c p Hc _ IH]; intros s.
  - split; [by inversion 1|intros ->; constructor].
  - rewrite wild_char_iff by done. split.
    + intros (s1 & -> & H). f_equal. by apply IH.
    + intros ->. exists p. split; [done|]. by apply IH.
Qed.

(** A pattern with one [*] matches the texts with its prefix and suffix. *)
Lemma wild_one_star pre post s :
  Forall (fun c => Fnmatch.is_char c "*" = false) pre ->
  Forall (fun c => Fnmatch.is_char c "*" = false) post ->
  wild (pre ++ "*"%char :: post) s <-> exists x, s = (pre ++ x ++ post)%list.
Proof.
  intros Hpre Hpost. revert s.
  induction Hpre as [|c pre Hc _ IH]; intros s; simpl.
  - rewrite wild_star_iff. split.
    + intros (t & [x ->] & Ht). apply wild_literal in Ht as ->; [|done].
      by exists x.
    + intros [x ->]. exists post. split; [by exists x|by apply wild_literal].
  - rewrite wild_char_iff by done. split.
    + intros (s1 & -> & [x ->]%IH). by exists x.
    + intros [x ->]. eexists. split; [done|]. apply IH. by exists x.
Qed.

(** X3. When no allowed issuer contains a pattern character ([*], [?],
    [[] or a backslash), [isValidIssuer] accepts exactly the issuers in the
    list. *)
Theorem X3_isValidIssuer_literal_issuers_are_exact
    (plugin : JWTPlugin) (issuer : string) :
  (forall allowed, allowed ∈ issuers plugin ->
                   forallb literal (GoString.chars allowed) = true) ->
  isValidIssuer plugin issuer = true <-> issuer ∈ issuers plugin.
Proof.
  intros Hlit. unfold isValidIssuer. rewrite existsb_elem_of. split.
  - intros (allowed & Hin & Hm).
    destruct (literal_plain _ (Hlit allowed Hin)) as [Hp Hs].
    apply Match_wild in Hm; [|done]. apply wild_literal in Hm; [|done].
    apply chars_inj in Hm. by subst.
  - intros Hin. exists issuer. split; [done|].
    destruct (literal_plain _ (Hlit issuer Hin)) as [Hp Hs].
    apply Match_wild; [done|]. by apply wild_literal.
Qed.

Lemma X3_isValidIssuer_witness :
  isValidIssuer plugin_two_sources "https://a.example.com/" = true
  <-> "https://a.example.com/" ∈ issuers plugin_two_sources.
Proof.
  apply (X3_isValidIssuer_literal_issuers_are_exact plugin_two_sources).
  intros allowed Hin. simpl in Hin.
  apply elem_of_cons in Hin as [->|Hin]; [reflexivity|].
  apply elem_of_cons in Hin as [->|Hin]; [reflexivity|].
  by apply elem_of_nil in Hin.
Defined.

(** X4. An allowed issuer with a single [*] and no other pattern character
    admits exactly the issuers that start with what precedes the [*] and
    end with what follows it; what lies between is free, slashes and dots
    included. *)
Theorem X4_isValidIssuer_wildcard_spans_everything
    (plugin : JWTPlugin) (pre post issuer : string) :
  issuers plugin = [pre +:+ "*" +:+ post] ->
  forallb literal (GoString.chars pre) = true ->
  forallb literal (GoString.chars post) = true ->
  isValidIssuer plugin issuer = true
  <-> exists between, issuer = pre +:+ between +:+ post.
Proof.
  intros Hi Hpre Hpost. unfold isValidIssuer. rewrite Hi. simpl.
  rewrite orb_false_r.
  destruct (literal_plain _ Hpre) as [Hp1 Hs1].
  destruct (literal_plain _ Hpost) as [Hp2 Hs2].
  rewrite Match_wild.
  2:{ rewrite !chars_append, !forallb_app, Hp1, Hp2. reflexivity. }
  rewrite !chars_append. change (GoString.chars "*") with ["*"%char].
  simpl app. rewrite wild_one_star by done. split.
  - intros [x Hx]. exists (string_of_list_ascii x). apply chars_inj.
    rewrite !chars_append. unfold GoString.chars at 3.
    by rewrite list_ascii_of_string_of_list_ascii.
  - intros [between ->]. exists (GoString.chars between).
    by rewrite !chars_append.
Qed.

Lemma X4_isValidIssuer_wildcard_witness :
  isValidIssuer
    (set_cache {| secret := NoKey; issuers := ["https://*.example.com/"];
                  require := ∅; keys := ∅; issuerKeys := ∅; optional := false;
                  cookieName := ""; headerName := "Authorization";
                  parameterName := ""; forwardToken := true;
                  freshness := 3600 |} ∅ ∅)
    "https://evil.test/x.example.com/" = true.
Proof.
  apply (X4_isValidIssuer_wildcard_spans_everything _
           "https://" ".example.com/" "https://evil.test/x.example.com/").
  - reflexivity.
  - reflexivity.
  - reflexivity.
  - exists "evil.test/x". reflexivity.
Defined.

(** ** Claims of every shape against a requirement *)

(** X5. Against a requirement whose value is a string: an array claim is
    accepted exactly when one of its elements is; an object claim exactly
    when one of its keys is accepted as a string claim and the value under
    that key passes the nested requirement; a number, a boolean or a null
    claim is never accepted. *)
Theorem X5_string_requirement_on_arrays_and_objects
    (required : string) (n : any) (variables : TemplateVariables) :
  let requirement := {| value := Str required; nested := n |} in
  (forall l,
      ValueRequirement_Validate requirement (Slice l) variables = true
      <-> exists e, e ∈ l
                    /\ ValueRequirement_Validate requirement e variables = true)
  /\ (forall m,
        ValueRequirement_Validate requirement (Map m) variables = true
        <-> exists key v, (key, v) ∈ m
                          /\ ValueRequirement_Validate requirement (Str key)
                               variables = true
                          /\ ValidateNested requirement v = true)
  /\ (forall number,
        ValueRequirement_Validate requirement (Number number) variables = false)
  /\ (forall b, ValueRequirement_Validate requirement (Bool b) variables = false)
  /\ ValueRequirement_Validate requirement Nil variables = false.
Proof.
  cbv zeta. split_and!; try done.
  - intros l. cbn [ValueRequirement_Validate value DeepEqual].
    rewrite orb_false_r. apply existsb_elem_of.
  - intros m. cbn [ValueRequirement_Validate value DeepEqual].
    rewrite orb_false_r, existsb_elem_of. split.
    + intros ([key v] & Hin & [H1 H2]%andb_true_iff). by exists key, v.
    + intros (key & v & Hin & H1 & H2). exists (key, v).
      split; [done|]. by rewrite H1, H2.
Qed.

(** X6. Against a requirement whose value is an integer: a number claim is
    accepted exactly when its text is a decimal integer of 64 bits equal
    to the requirement, so it denotes that integer; a string claim is
    never accepted; an array claim is accepted exactly when one of its
    elements is. *)
Theorem X6_integer_requirement_needs_integer_literal
    (i : Z) (n : any) (variables : TemplateVariables) :
  let requirement := {| value := Int i; nested := n |} in
  (forall number,
      ValueRequirement_Validate requirement (Number number) variables = true
      <-> Number_Int64 number = Some i)
  /\ (forall number,
        ValueRequirement_Validate requirement (Number number) variables = true ->
        Strconv.decimal number = Some (inject_Z i))
  /\ (forall s, ValueRequirement_Validate requirement (Str s) variables = false)
  /\ (forall l,
        ValueRequirement_Validate requirement (Slice l) variables = true
        <-> exists e, e ∈ l
                      /\ ValueRequirement_Validate requirement e variables = true).
Proof.
  cbv zeta.
  assert (Hnum : forall number,
    ValueRequirement_Validate {| value := Int i; nested := n |}
      (Number number) variables = true
    <-> Number_Int64 number = Some i).
  { intros number. cbn [ValueRequirement_Validate]. unfold ValidateNumber.
    cbn [value]. unfold Number_Int64.
    destruct (Strconv.ParseInt number) as [converted|]; [|done].
    rewrite Z.eqb_eq. split; [by intros ->|by intros [= ->]]. }
  split_and!; try done.
  - intros number H%Hnum. by apply Int64_decimal.
  - intros l. cbn [ValueRequirement_Validate value DeepEqual].
    rewrite orb_false_r. apply existsb_elem_of.
Qed.

Lemma X6_integer_requirement_witness :
  Strconv.decimal "123" = Some (inject_Z 123).
Proof.
  destruct (X6_integer_requirement_needs_integer_literal 123 Nil ∅)
    as (_ & H & _).
  apply H. reflexivity.
Defined.

(** ** Building the requirements *)

Section ConstructionFacts.

Variable Parse : string -> option Template.

Lemma NewRequirement_Panic v n :
  NewRequirement Parse v n = Panic
  <-> exists text, v = Str text /\ templated text = true /\ Parse text = None.
Proof.
  unfold NewRequirement, templated. split.
  - destruct v as [| | | | |text| |]; try done.
    destruct (_ && _) eqn:Ht; [|done].
    destruct (Parse text) eqn:Hp; [done|]. intros _. by exists text.
  - intros (text & -> & -> & ->). done.
Qed.

Lemma mapM_result_Panic {A B : Type} (f : A -> result B) (l : list A) :
  mapM f l = Panic <-> exists x, x ∈ l /\ f x = Panic.
Proof.
  induction l as [|x l IH]; simpl.
  - split; [done|]. intros (x & Hx & _). by apply elem_of_nil in Hx.
  - destruct (f x) as [y|] eqn:Hf; simpl.
    + destruct (mapM f l) as [k|] eqn:Hm; simpl.
      * split; [done|]. intros (x' & [->|Hin]%elem_of_cons & Hx'); [congruence|].
        assert (Ok k = Panic) as H; [|done].
        apply IH. by exists x'.
      * split; [|done]. intros _. destruct (proj1 IH eq_refl) as (x' & Hin & Hx').
        exists x'. split; [by right|done].
    + split; [|done]. intros _. exists x. split; [left|done].
Qed.

Lemma mapM_result_length {A B : Type} (f : A -> result B) (l : list A) k :
  mapM f l = Ok k -> length k = length l.
Proof.
  revert k. induction l as [|x l IH]; intros k; simpl.
  - by intros [= <-].
  - destruct (f x) as [y|]; simpl; [|done].
    destruct (mapM f l) as [k'|]; simpl; [|done].
    intros [= <-]. simpl. f_equal. by apply IH.
Qed.

Lemma convertClaim_Panic v :
  convertClaim Parse v = Panic
  <-> exists text, text ∈ requirement_texts v
                   /\ templated text = true /\ Parse text = None.
Proof.
  unfold convertClaim, requirement_texts.
  destruct v as [|b|i|f|number|text|l|m].
  1-5: split; [done|]; intros (text & Hin & _); by apply elem_of_nil in Hin.
  - destruct (NewRequirement Parse (Str text) Nil) as [r|] eqn:Hr; simpl.
    + split; [done|]. intros (text' & ->%list_elem_of_singleton & Ht & Hp).
      assert (NewRequirement Parse (Str text) Nil = Panic) as H.
      { apply NewRequirement_Panic. by exists text. }
      congruence.
    + split; [|done]. intros _.
      apply NewRequirement_Panic in Hr as (text' & [= <-] & Ht & Hp).
      exists text. split; [by apply list_elem_of_singleton|done].
  - rewrite mapM_result_Panic. split.
    + intros (e & Hin & (text & -> & Ht & Hp)%NewRequirement_Panic).
      exists text. split; [|done]. apply list_elem_of_omap. by exists (Str text).
    + intros (text & (e & Hin & He)%list_elem_of_omap & Ht & Hp).
      destruct e; try done. injection He as ->.
      exists (Str text). split; [done|]. apply NewRequirement_Panic.
      by exists text.
  - rewrite mapM_result_Panic. split.
    + intros ([key n] & Hin & (text & [= ->] & Ht & Hp)%NewRequirement_Panic).
      exists text. split; [|done]. apply list_elem_of_fmap. by exists (text, n).
    + intros (text & ([key n] & -> & Hin)%list_elem_of_fmap & Ht & Hp).
      exists (key, n). split; [done|]. apply NewRequirement_Panic.
      by exists key.
Qed.

Lemma convertClaim_length v crs :
  convertClaim Parse v = Ok crs ->
  length crs = match v with
               | Slice l => length l
               | Map m => length m
               | _ => 1%nat
               end.
Proof.
  unfold convertClaim. destruct v as [|b|i|f|number|text|l|m];
    try (by intros [= <-]); try apply mapM_result_length.
  destruct (NewRequirement Parse (Str text) Nil); simpl; [|done].
  by intros [= <-].
Qed.

Lemma convert_loop_Panic cfg acc :
  foldl (convert_step Parse) acc cfg = Panic
  <-> acc = Panic \/ exists key v, (key, v) ∈ cfg /\ convertClaim Parse v = Panic.
Proof.
  revert acc. induction cfg as [|[key v] cfg IH]; intros acc; simpl.
  - split; [by left|]. intros [?|(? & ? & Hin & _)]; [done|].
    by apply elem_of_nil in Hin.
  - rewrite IH. split.
    + intros [H|(k & w & Hin & H)].
      * destruct acc as [reqs|]; [|by left]. simpl in H.
        destruct (convertClaim Parse v) eqn:Hc; [done|].
        right. exists key, v. split; [left|done].
      * right. exists k, w. split; [by right|done].
    + intros [->|(k & w & [[= -> ->]|Hin]%elem_of_cons & H)].
      * by left.
      * left. destruct acc; simpl; [|done]. by rewrite H.
      * right. by exists k, w.
Qed.

Lemma convert_loop_Ok cfg reqs0 reqs :
  foldl (convert_step Parse) (Ok reqs0) cfg = Ok reqs ->
  (forall key, is_Some (reqs !! key)
               <-> is_Some (reqs0 !! key) \/ key ∈ cfg.*1)
  /\ (NoDup cfg.*1 ->
      forall key v, (key, v) ∈ cfg ->
        exists crs, reqs !! key = Some crs /\ convertClaim Parse v = Ok crs)
  /\ (forall key, key ∉ cfg.*1 -> reqs !! key = reqs0 !! key).
Proof.
  revert reqs0. induction cfg as [|[k w] cfg IH]; intros reqs0; simpl.
  - intros [= <-]. split_and!; try done.
    + intros key. split; [by left|]. intros [?|Hin]; [done|].
      by apply elem_of_nil in Hin.
    + intros _ key v Hin. by apply elem_of_nil in Hin.
  - destruct (convertClaim Parse w) as [crs|] eqn:Hc; simpl.
    2:{ intros H. assert (foldl (convert_step Parse) Panic cfg = Panic) as Hp.
        { apply convert_loop_Panic. by left. }
        congruence. }
    intros H. destruct (IH _ H) as (Hdom & Hval & Hout). split_and!.
    + intros key. rewrite Hdom, lookup_insert_is_Some, elem_of_cons.
      simpl. destruct (decide (k = key)) as [->|Hne]; intuition congruence.
    + intros [Hk Hnd]%NoDup_cons key v [[= -> ->]|Hin]%elem_of_cons.
      * exists crs. split; [|done]. rewrite (Hout k Hk).
        apply lookup_insert_eq.
      * by apply Hval.
    + intros key [Hne Hnin]%not_elem_of_cons.
      rewrite (Hout key Hnin). by apply lookup_insert_ne.
Qed.

(** X7. [convertRequire] panics exactly when some string it takes as a
    requirement value (a string value, a string element of a list, a key
    of a map) has both interpolation markers and does not parse as a
    template. Otherwise the requirements it returns have exactly the
    configured claim names, and for each claim one requirement per element
    of a list, one per key of a map, and one for any other value. *)
Theorem X7_convertRequire_panics_only_on_bad_templates
    (cfg : list (string * any)) :
  (convertRequire Parse cfg = Panic
   <-> exists key v text,
         (key, v) ∈ cfg /\ text ∈ requirement_texts v
         /\ templated text = true /\ Parse text = None)
  /\ (forall reqs,
        convertRequire Parse cfg = Ok reqs ->
        (forall key, is_Some (reqs !! key) <-> key ∈ cfg.*1)
        /\ (NoDup cfg.*1 ->
            forall key v, (key, v) ∈ cfg ->
              exists crs,
                reqs !! key = Some crs
                /\ convertClaim Parse v = Ok crs
                /\ length crs = match v with
                                | Slice l => length l
                                | Map m => length m
                                | _ => 1%nat
                                end)).
Proof.
  assert (Hloop : convertRequire Parse cfg = foldl (convert_step Parse) (Ok ∅) cfg).
  { unfold convertRequire. f_equal. }
  rewrite Hloop. split.
  - rewrite convert_loop_Panic. split.
    + intros [?|(key & v & Hin & (text & H)%convertClaim_Panic)]; [done|].
      by exists key, v, text.
    + intros (key & v & text & Hin & H). right. exists key, v.
      split; [done|]. apply convertClaim_Panic. by exists text.
  - intros reqs H. destruct (convert_loop_Ok _ _ _ H) as (Hdom & Hval & _).
    split.
    + intros key. rewrite Hdom, lookup_empty. split; [|by right].
      intros [[? ?]|?]; done.
    + intros Hnd key v Hin. destruct (Hval Hnd key v Hin) as (crs & H1 & H2).
      exists crs. split_and!; try done. by apply convertClaim_length.
Qed.

End ConstructionFacts.

Lemma X7_convertRequire_witness :
  convertRequire (fun _ => None) [("authority", Str "{{.Host}}")] = Panic.
Proof.
  destruct (X7_convertRequire_panics_only_on_bad_templates
              (fun _ => None) [("authority", Str "{{.Host}}")]) as [H _].
  apply H. exists "authority", (Str "{{.Host}}"), "{{.Host}}".
  split_and!; try reflexivity.
  - left.
  - apply list_elem_of_singleton. reflexivity.
Defined.

(** ** The key cache, further *)

Lemma plugin_ext (p q : JWTPlugin) :
  same_configuration p q -> keys p = keys q -> issuerKeys p = issuerKeys q ->
  p = q.
Proof.
  destruct p, q. unfold same_configuration. simpl.
  intros (-> & -> & -> & -> & -> & -> & -> & -> & ->) -> ->. reflexivity.
Qed.

Lemma same_configuration_storeKeys plugin url jwks :
  same_configuration (storeKeys plugin url jwks) plugin.
Proof. by repeat split. Qed.

Lemma keys_storeKeys plugin url jwks kid :
  keys (storeKeys plugin url jwks) !! kid
  = if isIssuedKey (<[url := jwks]> (issuerKeys plugin)) kid
    then (jwks ∪ keys plugin) !! kid
    else None.
Proof.
  apply option_eq. intros key. rewrite lookup_storeKeys, <- isIssuedKey_true.
  destruct (isIssuedKey _ kid); split; try done; by intros [? ?].
Qed.

(** X8. Storing the same fetch result for the same source twice is the
    same as storing it once. *)
Theorem X8_storeKeys_idempotent
    (plugin : JWTPlugin) (url : string) (jwks : gmap string Key) :
  storeKeys (storeKeys plugin url jwks) url jwks = storeKeys plugin url jwks.
Proof.
  apply plugin_ext.
  - by repeat split.
  - apply map_eq. intros kid. rewrite (keys_storeKeys (storeKeys _ _ _)).
    rewrite issuerKeys_storeKeys, insert_insert_eq.
    rewrite lookup_union, keys_storeKeys.
    destruct (isIssuedKey (<[url:=jwks]> (issuerKeys plugin)) kid); [|done].
    rewrite lookup_union.
    destruct (jwks !! kid), (keys plugin !! kid); done.
  - rewrite !issuerKeys_storeKeys. apply insert_insert_eq.
Qed.

(** X9. The keys recorded under "internal", the statically configured
    ones, are never purged by storing a fetch result for another source: a
    key ID that was in the keys map stays in it, bound to the fetched key
    if the fetch returns that key ID and to its former key otherwise. *)
Theorem X9_fixed_keys_survive_fetches
    (plugin : JWTPlugin) (url : string) (jwks internal : gmap string Key)
    (kid : string) (key : Key) :
  issuerKeys plugin !! "internal" = Some internal ->
  url <> "internal" ->
  is_Some (internal !! kid) ->
  keys plugin !! kid = Some key ->
  keys (storeKeys plugin url jwks) !! kid = Some (default key (jwks !! kid))
  /\ issuerKeys (storeKeys plugin url jwks) !! "internal" = Some internal.
Proof.
  intros Hi Hne Hin Hk. split.
  - apply lookup_storeKeys. split.
    + rewrite lookup_union, Hk. by destruct (jwks !! kid).
    + exists "internal", internal. by rewrite lookup_insert_ne.
  - rewrite issuerKeys_storeKeys. by rewrite lookup_insert_ne.
Qed.

Lemma X9_fixed_keys_witness :
  let plugin := set_cache plugin_aud {[ "fixed" := key_b1 ]}
                  {[ "internal" := internalIssuerKeys
                                     ({[ "fixed" := "shared" ]} : gmap string string) ]} in
  keys (storeKeys plugin url_a {[ "a2" := key_a2 ]}) !! "fixed" = Some key_b1.
Proof.
  cbv zeta.
  refine (proj1 (X9_fixed_keys_survive_fetches _ url_a {[ "a2" := key_a2 ]}
                   (internalIssuerKeys
                      ({[ "fixed" := "shared" ]} : gmap string string))
                   "fixed" key_b1 _ _ _ _)).
  - reflexivity.
  - discriminate.
  - eexists. reflexivity.
  - reflexivity.
Defined.

Lemma fetchKeys_jwksURL net plugin issuer :
  fetchKeys net plugin issuer
  = match FetchJWKS net (jwksURL net issuer) with
    | inl err => (plugin, Some err)
    | inr jwks => (storeKeys plugin (jwksURL net issuer) jwks, None)
    end.
Proof. reflexivity. Qed.

Lemma same_configuration_fetchKeys net plugin issuer :
  same_configuration (fetchKeys net plugin issuer).1 plugin.
Proof.
  rewrite fetchKeys_jwksURL. destruct (FetchJWKS net _); by repeat split.
Qed.

Lemma same_configuration_trans p q r :
  same_configuration p q -> same_configuration q r -> same_configuration p r.
Proof.
  unfold same_configuration.
  intros (? & ? & ? & ? & ? & ? & ? & ? & ?) (? & ? & ? & ? & ? & ? & ? & ? & ?).
  split_and!; congruence.
Qed.

Lemma held_storeKeys_new net plugin url jwks :
  FetchJWKS net url = inr jwks -> held net (storeKeys plugin url jwks) url jwks.
Proof.
  intros Hf. split_and!; [done|by rewrite issuerKeys_storeKeys, lookup_insert_eq|].
  intros kid [key Hk]. exists key. apply lookup_storeKeys. split.
  - by apply lookup_union_Some_l.
  - exists url, jwks. by rewrite lookup_insert_eq, Hk.
Qed.

Lemma held_fetchKeys net plugin issuer url jwks :
  held net plugin url jwks -> held net (fetchKeys net plugin issuer).1 url jwks.
Proof.
  intros (Hf & Hi & Hk). rewrite fetchKeys_jwksURL.
  destruct (FetchJWKS net (jwksURL net issuer)) as [err|jwks2] eqn:H2; simpl.
  { done. }
  destruct (decide (jwksURL net issuer = url)) as [Heq|Hne].
  - rewrite Heq in *. assert (jwks2 = jwks) as -> by congruence.
    by apply held_storeKeys_new.
  - split_and!; [done|by rewrite issuerKeys_storeKeys, lookup_insert_ne|].
    intros kid Hkid. destruct (Hk kid Hkid) as [key Hkey].
    assert (is_Some ((jwks2 ∪ keys plugin) !! kid)) as [key' Hkey'].
    { rewrite lookup_union, Hkey. by destruct (jwks2 !! kid). }
    exists key'. apply lookup_storeKeys. split; [done|].
    exists url, jwks. by rewrite lookup_insert_ne.
Qed.

Lemma fetchAllKeys_step_star net state issuer :
  GoString.Contains issuer "*" = true ->
  fetchAllKeys_step net state issuer = state.
Proof. intros H. unfold fetchAllKeys_step. by rewrite H. Qed.

Lemma fetchAllKeys_step_plain net p lg issuer :
  GoString.Contains issuer "*" = false ->
  fetchAllKeys_step net (p, lg) issuer
  = ((fetchKeys net p issuer).1,
     (lg ++ [(issuer, (fetchKeys net p issuer).2)])%list).
Proof.
  intros H. unfold fetchAllKeys_step. rewrite H. simpl.
  by destruct (fetchKeys net p issuer).
Qed.

Lemma fetchAllKeys_loop net l p lg :
  let final := foldl (fetchAllKeys_step net) (p, lg) l in
  same_configuration final.1 p
  /\ final.2.*1
     = (lg.*1 ++ List.filter (fun issuer => negb (GoString.Contains issuer "*")) l)%list
  /\ (cache_invariant p -> cache_invariant final.1)
  /\ (forall url jwks, held net p url jwks -> held net final.1 url jwks)
  /\ (forall issuer jwks,
        issuer ∈ l -> GoString.Contains issuer "*" = false ->
        FetchJWKS net (jwksURL net issuer) = inr jwks ->
        held net final.1 (jwksURL net issuer) jwks)
  /\ (forall issuer err,
        (issuer, err) ∈ final.2 ->
        (issuer, err) ∈ lg
        \/ match FetchJWKS net (jwksURL net issuer) with
           | inl e => err = Some e
           | inr _ => err = None
           end).
Proof.
  cbv zeta. revert p lg. induction l as [|issuer l IH]; intros p lg.
  - simpl. rewrite app_nil_r. split_and!; try done.
    + intros issuer jwks Hin. by apply elem_of_nil in Hin.
    + intros issuer err Hin. by left.
  - cbn [foldl List.filter].
    destruct (GoString.Contains issuer "*") eqn:Hstar.
    + rewrite fetchAllKeys_step_star by done.
      destruct (IH p lg) as (H1 & H2 & H3 & H4 & H5 & H6).
      cbn [negb]. split_and!; try done.
      intros issuer' jwks [->|Hin]%elem_of_cons Hs Hf; [congruence|].
      by apply H5.
    + rewrite fetchAllKeys_step_plain by done.
      pose proof (same_configuration_fetchKeys net p issuer) as Hc.
      pose proof (fetchKeys_invariant net p issuer) as Hinv.
      pose proof (fun url jwks => held_fetchKeys net p issuer url jwks) as Hh.
      pose proof (fetchKeys_jwksURL net p issuer) as Hurl.
      destruct (fetchKeys net p issuer) as [p' err] eqn:Hfetch.
      cbn [fst snd negb] in *.
      destruct (IH p' (lg ++ [(issuer, err)])%list)
        as (H1 & H2 & H3 & H4 & H5 & H6).
      split_and!.
      * by eapply same_configuration_trans.
      * rewrite H2, fmap_app. simpl. by rewrite <- app_assoc.
      * intros Hp. by apply H3, Hinv.
      * intros url jwks Hheld. by apply H4, Hh.
      * intros issuer' jwks [->|Hin]%elem_of_cons Hs Hf; [|by apply H5].
        apply H4. rewrite Hf in Hurl. injection Hurl as -> _.
        by apply held_storeKeys_new.
      * intros issuer' err' Hin. destruct (H6 _ _ Hin) as [Hlg|Hm]; [|by right].
        apply elem_of_app in Hlg as [Hlg|Hlg%list_elem_of_singleton];
          [by left|].
        injection Hlg as -> ->. right.
        destruct (FetchJWKS net (jwksURL net issuer)); by injection Hurl.
Qed.

(** X10. [fetchAllKeys] fetches, in order, exactly the configured issuers
    that contain no [*]; the error of one fetch does not stop the others.
    Afterwards, for every such issuer whose key set could be fetched, that
    key set is recorded under its URL and each of its key IDs is in the
    keys map; the configuration is unchanged and the cache keeps its
    invariant. *)
Theorem X10_fetchAllKeys_fetches_every_plain_issuer
    (net : Network) (plugin : JWTPlugin) :
  let final := fetchAllKeys net plugin in
  same_configuration final.1 plugin
  /\ final.2.*1
     = List.filter (fun issuer => negb (GoString.Contains issuer "*"))
                   (issuers plugin)
  /\ (forall issuer err,
        (issuer, err) ∈ final.2 ->
        match FetchJWKS net (jwksURL net issuer) with
        | inl e => err = Some e
        | inr _ => err = None
        end)
  /\ (forall issuer jwks,
        issuer ∈ issuers plugin -> GoString.Contains issuer "*" = false ->
        FetchJWKS net (jwksURL net issuer) = inr jwks ->
        issuerKeys final.1 !! jwksURL net issuer = Some jwks
        /\ forall kid, is_Some (jwks !! kid) -> is_Some (keys final.1 !! kid))
  /\ (cache_invariant plugin -> cache_invariant final.1).
Proof.
  cbv zeta. unfold fetchAllKeys.
  destruct (fetchAllKeys_loop net (issuers plugin) plugin [])
    as (H1 & H2 & H3 & H4 & H5 & H6).
  cbv zeta in *. split_and!; try done.
  - intros issuer err Hin. destruct (H6 _ _ Hin) as [Hn|H]; [|done].
    by apply elem_of_nil in Hn.
  - intros issuer jwks Hin Hs Hf. by destruct (H5 issuer jwks Hin Hs Hf) as (_ & ? & ?).
Qed.

Lemma X10_fetchAllKeys_witness :
  is_Some (keys (fetchAllKeys net_rotated plugin_two_sources).1 !! "a2").
Proof.
  destruct (X10_fetchAllKeys_fetches_every_plain_issuer
              net_rotated plugin_two_sources) as (_ & _ & _ & H & _).
  destruct (H "https://a.example.com/" {[ "a2" := key_a2 ]}) as [_ Hk].
  - left.
  - reflexivity.
  - reflexivity.
  - apply Hk. eexists. reflexivity.
Defined.

(** ** Key resolution *)

Ltac trace_cases H :=
  repeat (apply elem_of_cons in H as [H|H]; [try discriminate H|]);
  try (by apply elem_of_nil in H).

Lemma same_configuration_refl p : same_configuration p p.
Proof. by repeat split. Qed.

Ltac fallback_case Hsecret :=
  split; [apply same_configuration_refl|]; split; [done|];
  split; [intros ? Hin; trace_cases Hin|]; split; [done|];
  split; [by left|];
  intros He; split; [|by eapply Hsecret]; by rewrite (Hsecret _ He).

(** X11. For a token whose key ID, if it has one, is a string, [getKey]
    returns. The key it returns is the fixed secret or the key cached under
    the key ID of the token when the call ends. It fetches at most from
    the canonical form of the issuer the token names, and only if
    [isValidIssuer] accepts it; without a fetch the plugin is unchanged,
    with one it is what [fetchKeys] for that issuer leaves. The
    configuration never changes, the cache keeps its invariant, and an
    error is returned only when no fixed secret is configured, together
    with no key. *)
Theorem X11_getKey_key_provenance
    (net : Network) (plugin : JWTPlugin) (token : Token) :
  (forall kid, Header token !! "kid" = Some kid -> exists id, kid = Str id) ->
  exists r,
    getKey net plugin token = Ok (Some r)
    /\ same_configuration (result_plugin r) plugin
    /\ (cache_invariant plugin -> cache_invariant (result_plugin r))
    /\ (forall issuer,
          Fetch issuer ∈ result_trace r ->
          isValidIssuer plugin issuer = true
          /\ (exists iss, Claims token !! "iss" = Some (Str iss)
                          /\ issuer = canonicalizeDomain iss)
          /\ result_plugin r = (fetchKeys net plugin issuer).1)
    /\ ((forall issuer, Fetch issuer ∉ result_trace r) ->
        result_plugin r = plugin)
    /\ (result_key r = secret plugin
        \/ exists id, Header token !! "kid" = Some (Str id)
                      /\ keys (result_plugin r) !! id = Some (result_key r))
    /\ (is_Some (result_err r) ->
        result_key r = NoKey /\ secret plugin = NoKey).
Proof.
  intros Hkid.
  assert (forall e : option string,
             is_Some (if decide (secret plugin = NoKey) then e else None) ->
             secret plugin = NoKey) as Hsecret.
  { intros e. destruct (decide _); [done|]. by intros [? ?]. }
  destruct (negb (Nat.eqb (length (issuers plugin)) 0)
            || negb (Nat.eqb (size (keys plugin)) 0)) eqn:Hguard.
  2:{ assert (~ configured plugin) as Hn.
      { rewrite <- configured_guard. by rewrite Hguard. }
      rewrite (getKey_no_lookup net plugin token) by by left.
      eexists. split; [done|]. simpl. fallback_case Hsecret. }
  apply configured_guard in Hguard.
  destruct (Header token !! "kid") as [kid|] eqn:Hheader.
  2:{ rewrite (getKey_no_lookup net plugin token) by by right.
      eexists. split; [done|]. simpl. fallback_case Hsecret. }
  destruct (Hkid kid eq_refl) as [id ->].
  destruct (keys plugin !! id) as [key|] eqn:Hkey.
  { rewrite (getKey_hit net plugin token id key) by done.
    eexists. split; [done|]. simpl.
    split; [apply same_configuration_refl|]. split; [done|].
    split; [intros issuer Hin; trace_cases Hin|]. split; [done|].
    split; [right; by exists id|]. by intros [? ?]. }
  destruct (Claims token !! "iss") as [claim|] eqn:Hiss.
  2:{ rewrite (getKey_no_issuer net plugin token id)
        by first [done | intros ?; by rewrite Hiss].
      eexists. split; [done|]. simpl. fallback_case Hsecret. }
  assert ((exists iss, claim = Str iss) \/ forall iss, claim <> Str iss)
    as [[iss ->]|Hother].
  { destruct claim; try (by right); left; by eexists. }
  2:{ rewrite (getKey_no_issuer net plugin token id)
        by first [done | intros iss; rewrite Hiss; intros [= ->];
                         by apply (Hother iss)].
      eexists. split; [done|]. simpl. fallback_case Hsecret. }
  destruct (isValidIssuer plugin (canonicalizeDomain iss)) eqn:Hvalid.
  2:{ rewrite (getKey_issuer_not_valid net plugin token id iss) by done.
      eexists. split; [done|]. simpl. fallback_case Hsecret. }
  rewrite (getKey_refresh net plugin token id iss) by done. cbv zeta.
  pose proof (same_configuration_fetchKeys net plugin (canonicalizeDomain iss))
    as Hsame.
  pose proof (fetchKeys_invariant net plugin (canonicalizeDomain iss)) as Hinv.
  destruct (keys (fetchKeys net plugin (canonicalizeDomain iss)).1 !! id)
    as [key|] eqn:Hfetched.
  - eexists. split; [done|]. simpl.
    split; [done|]. split; [done|]. split.
    { intros issuer Hin. trace_cases Hin. injection Hin as ->.
      split; [done|]. split; [by exists iss|done]. }
    split.
    { intros Hno. exfalso. apply (Hno (canonicalizeDomain iss)).
      apply elem_of_cons. right. apply elem_of_cons. by left. }
    split; [right; by exists id|]. by intros [? ?].
  - eexists. split; [done|]. simpl.
    split; [done|]. split; [done|]. split.
    { intros issuer Hin. trace_cases Hin. injection Hin as ->.
      split; [done|]. split; [by exists iss|done]. }
    split.
    { intros Hno. exfalso. apply (Hno (canonicalizeDomain iss)).
      apply elem_of_cons. right. apply elem_of_cons. by left. }
    split; [by left|].
    intros He. split; [|by eapply Hsecret]. by rewrite (Hsecret _ He).
Qed.

Lemma X11_getKey_witness :
  exists r, getKey net_rotated plugin_two_sources token_a9 = Ok (Some r)
            /\ same_configuration (result_plugin r) plugin_two_sources.
Proof.
  destruct (X11_getKey_key_provenance net_rotated plugin_two_sources token_a9)
    as (r & Hr & Hsame & _).
  - intros kid [= <-]. by exists "a9".
  - exists r. split; [exact Hr|exact Hsame].
Defined.

(** ** The outcome of validation *)

(** X12. For a request from which [extractToken] takes [token]: [validate]
    accepts (status 200, no error) exactly when there is no token and the
    plugin is optional, or there is a token, it parses and verifies, and
    its claims meet the requirements. Whatever it returns is 200 without
    an error, or 401 or 403 with one; 403 only for a token that parsed and
    whose claims failed, the error being that of [validateClaims]. A token
    that does not parse is answered with 401 and the parser's error, also
    by an optional plugin. *)
Theorem X12_validate_accepts_exactly
    (Parse : string -> result (string + MapClaims))
    (plugin : JWTPlugin) (now : Z) (request request' : Request)
    (token : string) (variables : TemplateVariables) :
  extractToken plugin request = Ok (token, request') ->
  let outcome := validate Parse plugin now request variables in
  (outcome = Ok (StatusOK, None, request')
   <-> (token = "" /\ optional plugin = true)
       \/ (token <> ""
           /\ exists claims, Parse token = Ok (inr claims)
                /\ validateClaims plugin claims variables = None))
  /\ (forall status err rq,
        outcome = Ok (status, err, rq) ->
        rq = request'
        /\ ((status = StatusOK /\ err = None)
            \/ (status = StatusUnauthorized /\ is_Some err)
            \/ (status = StatusForbidden /\ is_Some err /\ token <> ""
                /\ exists claims, Parse token = Ok (inr claims)
                     /\ validateClaims plugin claims variables = err)))
  /\ (forall e, token <> "" -> Parse token = Ok (inl e) ->
                outcome = Ok (StatusUnauthorized, Some e, request')).
Proof.
  intros Hextract. cbv zeta. unfold validate. rewrite Hextract. simpl.
  destruct (String.eqb_spec token "") as [->|Hne].
  - destruct (optional plugin); simpl.
    + split; [|split].
      * split; [by left; split|done].
      * intros status err rq [= <- <- <-]. split; [done|]. by left.
      * done.
    + split; [|split].
      * split; [done|]. by intros [[_ ?]|[? _]].
      * intros status err rq [= <- <- <-]. split; [done|]. right. left.
        by split.
      * done.
  - destruct (Parse token) as [[e|claims]|] eqn:Hparse; simpl.
    + split; [|split].
      * split; [done|]. intros [[? _]|[_ (claims & [=] & _)]]. done.
      * intros status err rq [= <- <- <-]. split; [done|]. right. left.
        by split.
      * by intros e' _ [= ->].
    + unfold validateParsed.
      destruct (validateClaims plugin claims variables) as [err|] eqn:Hclaims;
        simpl.
      * destruct (allowRefresh plugin now claims) as [[|]|] eqn:Hrefresh;
          simpl; (split; [|split]); try done.
        all: try (split; [done|]; intros [[? _]|[_ (claims' & [= <-] & Hc)]];
                  [done|congruence]).
        -- intros status err' rq [= <- <- <-]. split; [done|]. right. left.
           by split.
        -- intros status err' rq [= <- <- <-]. split; [done|]. right. right.
           split_and!; try done. by exists claims.
      * split; [|split]; try done.
        -- split; [|done]. intros _. right. split; [done|]. by exists claims.
        -- intros status err' rq [= <- <- <-]. split; [done|]. by left.
    + split; [|split]; try done.
      split; [done|]. by intros [[? _]|[_ (claims & [=] & _)]].
Qed.

Lemma X12_validate_witness :
  validate (fun _ => Ok (inl "token is malformed")) plugin_aud now_2027
           request_bearer ∅
  = Ok (StatusUnauthorized, Some "token is malformed", request_bearer).
Proof.
  assert (extractToken plugin_aud request_bearer
          = Ok ("abc.def.ghi", request_bearer)) as Hextract
    by (vm_compute; reflexivity).
  destruct (X12_validate_accepts_exactly
              (fun _ => Ok (inl "token is malformed")) plugin_aud now_2027
              request_bearer request_bearer "abc.def.ghi" ∅ Hextract)
    as (_ & _ & H).
  apply H; [discriminate|reflexivity].
Defined.

(** ** The age of a token in 64 bits *)

Lemma digits_nonneg s acc v :
  0 <= acc -> Strconv.digits acc s = Some v -> 0 <= v.
Proof.
  revert acc. induction s as [|c s IH]; intros acc Hacc; simpl.
  - intros [= <-]. done.
  - unfold Strconv.digit.
    destruct (Nat.leb 48 (nat_of_ascii c) && Nat.leb (nat_of_ascii c) 57)%bool
      eqn:Hc; [|done].
    apply andb_true_iff in Hc as [Hc _]. apply Nat.leb_le in Hc.
    apply IH. lia.
Qed.

Lemma Number_Int64_range n v :
  Number_Int64 n = Some v -> - 2 ^ 63 <= v <= 2 ^ 63 - 1.
Proof.
  unfold Number_Int64, Strconv.ParseInt.
  destruct (GoString.chars n) as [|c rest]; [done|].
  assert (forall neg body,
    match Strconv.unsigned body with
    | Some un =>
        if negb neg && (2 ^ 63 <=? un) then None
        else if neg && (2 ^ 63 <? un) then None
        else Some (if neg then - un else un)
    | None => None
    end = Some v -> - 2 ^ 63 <= v <= 2 ^ 63 - 1) as Hbody.
  { intros neg body. destruct (Strconv.unsigned body) as [un|] eqn:Hun; [|done].
    assert (0 <= un) as Hpos.
    { unfold Strconv.unsigned in Hun. destruct body; [done|].
      by eapply digits_nonneg; [|exact Hun]. }
    destruct neg; simpl.
    - destruct (Z.ltb_spec (2 ^ 63) un); [done|]. intros [= <-]. lia.
    - destruct (Z.leb_spec (2 ^ 63) un); [done|]. intros [= <-]. lia. }
  destruct (Ascii.eqb c "+"); [apply Hbody|].
  destruct (Ascii.eqb c "-"); apply Hbody.
Qed.

Lemma wrap64_over z :
  2 ^ 63 <= z <= 2 ^ 64 - 1 -> wrap64 z = z - 2 ^ 64.
Proof.
  intros Hz. unfold wrap64.
  replace (z + 2 ^ 63) with (z - 2 ^ 63 + 1 * 2 ^ 64) by lia.
  rewrite Z_mod_plus_full, Z.mod_small; lia.
Qed.

(** X13. With a freshness window and an iat claim that is an integer of 64
    bits, at a time [now] that is not negative, [allowRefresh] answers
    whether the age [now - iat] exceeds the window, with the age computed
    in 64 bits: an age beyond 2^63-1 wraps around to a negative number. So
    with a positive window a token is refreshable exactly when its age
    exceeds the window and fits in 64 bits. *)
Theorem X13_allowRefresh_age_wraps
    (plugin : JWTPlugin) (now : Z) (claims : MapClaims) (iat : string) (v : Z) :
  freshness plugin <> 0 -> 0 <= now <= 2 ^ 63 - 1 ->
  claims !! "iat" = Some (Number iat) -> Number_Int64 iat = Some v ->
  allowRefresh plugin now claims
  = Ok (if now - v <=? 2 ^ 63 - 1 then now - v >? freshness plugin
        else now - v - 2 ^ 64 >? freshness plugin)
  /\ (0 < freshness plugin ->
      allowRefresh plugin now claims = Ok true
      <-> freshness plugin < now - v <= 2 ^ 63 - 1).
Proof.
  intros Hf Hnow Hiat Hv. pose proof (Number_Int64_range _ _ Hv) as Hrange.
  assert (allowRefresh plugin now claims
          = Ok (if now - v <=? 2 ^ 63 - 1 then now - v >? freshness plugin
                else now - v - 2 ^ 64 >? freshness plugin)) as Heq.
  { unfold allowRefresh. destruct (Z.eqb_spec (freshness plugin) 0); [done|].
    rewrite Hiat, Hv. f_equal.
    destruct (Z.leb_spec (now - v) (2 ^ 63 - 1)).
    - rewrite wrap64_id; [done|]. unfold in_int64.
      apply andb_true_iff. split; apply Z.leb_le; lia.
    - rewrite wrap64_over; [done|]. lia. }
  split; [done|]. intros Hpos. rewrite Heq.
  destruct (Z.leb_spec (now - v) (2 ^ 63 - 1)).
  - destruct (Z.gtb_spec (now - v) (freshness plugin)); split;
      try done; lia.
  - destruct (Z.gtb_spec (now - v - 2 ^ 64) (freshness plugin)); split;
      try done; lia.
Qed.

Lemma X13_allowRefresh_witness :
  allowRefresh plugin_aud now_2027
               {[ "iat" := Number "-9223372036854775808" ]}
  = Ok false.
Proof.
  destruct (X13_allowRefresh_age_wraps plugin_aud now_2027
              {[ "iat" := Number "-9223372036854775808" ]}
              "-9223372036854775808" (- 2 ^ 63)) as [H _].
  - vm_compute. discriminate.
  - vm_compute. split; discriminate.
  - reflexivity.
  - vm_compute. reflexivity.
  - rewrite H. vm_compute. reflexivity.
Defined.

(** ** Claims as request headers *)

Section HeaderMappingFacts.

Variable Marshal : any -> option string.
Variable Format : any -> string.

Lemma mapClaimToHeader_other remove claims header entry name :
  Textproto.CanonicalMIMEHeaderKey entry.1 <> name ->
  mapClaimToHeader Marshal Format remove claims header entry !! name
  = header !! name.
Proof.
  intros Hne. unfold mapClaimToHeader, Header_Add, Header_Del.
  destruct (claims !! entry.2) as [v|].
  - destruct (headerValue Marshal Format v); [|done].
    by rewrite lookup_insert_ne.
  - destruct remove; [|done]. by rewrite lookup_delete_ne.
Qed.

Lemma mapClaimsToHeaders_other remove claims entries header name :
  (forall entry, entry ∈ entries ->
                 Textproto.CanonicalMIMEHeaderKey entry.1 <> name) ->
  mapClaimsToHeaders Marshal Format entries remove claims header !! name
  = header !! name.
Proof.
  unfold mapClaimsToHeaders. revert header.
  induction entries as [|entry entries IH]; intros header Hne; [done|].
  simpl. rewrite IH.
  - apply mapClaimToHeader_other, Hne. left.
  - intros e He. apply Hne. by right.
Qed.

Lemma mapClaimToHeader_keeps claims header entry name values :
  header !! name = Some values ->
  exists added,
    mapClaimToHeader Marshal Format false claims header entry !! name
    = Some (values ++ added)%list.
Proof.
  intros Hname. unfold mapClaimToHeader, Header_Add.
  assert (header !! name = Some (values ++ [])%list) as Hsame
    by by rewrite app_nil_r.
  destruct (claims !! entry.2) as [v|]; [|by exists []].
  destruct (headerValue Marshal Format v) as [text|]; [|by exists []].
  destruct (decide (Textproto.CanonicalMIMEHeaderKey entry.1 = name))
    as [->|Hne].
  - exists [text]. by rewrite lookup_insert_eq, Hname.
  - exists []. by rewrite lookup_insert_ne.
Qed.

Lemma mapClaimsToHeaders_keeps claims entries header name values :
  header !! name = Some values ->
  exists added,
    mapClaimsToHeaders Marshal Format entries false claims header !! name
    = Some (values ++ added)%list.
Proof.
  unfold mapClaimsToHeaders. revert header values.
  induction entries as [|entry entries IH]; intros header values Hname.
  - exists []. by rewrite app_nil_r.
  - simpl.
    destruct (mapClaimToHeader_keeps claims header entry name values Hname)
      as [added1 H1].
    destruct (IH _ _ H1) as [added2 H2].
    exists (added1 ++ added2)%list. by rewrite app_assoc.
Qed.

(** X14. [mapClaimsToHeaders], in whatever order it visits the header
    map: a header that is the canonical form of no configured name is left
    as it is; unless missing headers are removed, the values a header came
    with stay in front of whatever is added; and for a configured name
    that shares its canonical form with no other, the header gets the text
    of the claim appended (a string or a number as it is, a boolean as
    true or false, an array, an object or null as JSON), and, when the
    token lacks the claim, is deleted if missing headers are removed and
    left as it is otherwise. *)
Theorem X14_mapClaimsToHeaders_appends_claims
    (headerMap : gmap string string) (entries : list (string * string))
    (removeMissingHeaders : bool) (claims : MapClaims)
    (header : gmap string (list string)) :
  entries ≡ₚ map_to_list headerMap ->
  let header' :=
    mapClaimsToHeaders Marshal Format entries removeMissingHeaders claims
                       header in
  (forall name,
      (forall key, is_Some (headerMap !! key) ->
                   Textproto.CanonicalMIMEHeaderKey key <> name) ->
      header' !! name = header !! name)
  /\ (removeMissingHeaders = false ->
      forall name values,
        header !! name = Some values ->
        exists added, header' !! name = Some (values ++ added)%list)
  /\ (forall key claim,
        headerMap !! key = Some claim ->
        (forall other, is_Some (headerMap !! other) ->
                       Textproto.CanonicalMIMEHeaderKey other
                       = Textproto.CanonicalMIMEHeaderKey key ->
                       other = key) ->
        let name := Textproto.CanonicalMIMEHeaderKey key in
        match claims !! claim with
        | Some v =>
            match headerValue Marshal Format v with
            | Some text =>
                header' !! name
                = Some (default [] (header !! name) ++ [text])%list
            | None => header' !! name = header !! name
            end
        | None =>
            header' !! name
            = if removeMissingHeaders then None else header !! name
        end).
Proof.
  intros Hperm. cbv zeta.
  assert (forall key claim, (key, claim) ∈ entries <-> headerMap !! key = Some claim)
    as Hentries.
  { intros key claim. rewrite Hperm. apply elem_of_map_to_list. }
  assert (NoDup entries.*1) as Hnodup.
  { rewrite Hperm. apply NoDup_fst_map_to_list. }
  split; [|split].
  - intros name Hother. apply mapClaimsToHeaders_other.
    intros [key claim] Hin. apply Hother. exists claim. by apply Hentries.
  - intros -> name values Hname. by apply mapClaimsToHeaders_keeps.
  - intros key claim Hkey Hunique.
    apply Hentries in Hkey as Hin.
    apply list_elem_of_split in Hin as (before & after & ->).
    assert (forall entry, entry ∈ (before ++ after)%list ->
              Textproto.CanonicalMIMEHeaderKey entry.1
              <> Textproto.CanonicalMIMEHeaderKey key) as Hrest.
    { intros [other c] Hin Heq. simpl in Heq.
      assert (other = key) as ->.
      { apply Hunique; [|done]. exists c. apply Hentries.
        apply elem_of_app. apply elem_of_app in Hin as [?|?]; [by left|].
        right. by right. }
      rewrite fmap_app, fmap_cons in Hnodup. simpl in Hnodup.
      apply NoDup_app in Hnodup as (_ & Hdisjoint & Hafter).
      apply NoDup_cons in Hafter as [Hnotin _].
      apply elem_of_app in Hin as [Hin|Hin].
      - apply (Hdisjoint key).
        + apply list_elem_of_fmap. by exists (key, c).
        + left.
      - apply Hnotin. apply list_elem_of_fmap. by exists (key, c). }
    unfold mapClaimsToHeaders. rewrite foldl_app. simpl.
    fold (mapClaimsToHeaders Marshal Format before removeMissingHeaders claims
            header).
    fold (mapClaimsToHeaders Marshal Format after removeMissingHeaders claims
            (mapClaimToHeader Marshal Format removeMissingHeaders claims
               (mapClaimsToHeaders Marshal Format before removeMissingHeaders
                  claims header) (key, claim))).
    rewrite mapClaimsToHeaders_other
      by (intros e He; apply Hrest, elem_of_app; by right).
    assert (mapClaimsToHeaders Marshal Format before removeMissingHeaders
              claims header !! Textproto.CanonicalMIMEHeaderKey key
            = header !! Textproto.CanonicalMIMEHeaderKey key) as Hbefore.
    { apply mapClaimsToHeaders_other. intros e He.
      apply Hrest, elem_of_app. by left. }
    unfold mapClaimToHeader, Header_Add, Header_Del. simpl.
    destruct (claims !! claim) as [v|].
    + destruct (headerValue Marshal Format v) as [text|]; [|done].
      by rewrite lookup_insert_eq, Hbefore.
    + destruct removeMissingHeaders; [|done]. by rewrite lookup_delete_eq.
Qed.

End HeaderMappingFacts.

Lemma X14_mapClaimsToHeaders_witness :
  mapClaimsToHeaders (fun _ => None) (fun _ => "") [("x-user", "sub")] false
                     {[ "sub" := Str "alice" ]}
                     {[ "X-User" := ["mallory"] ]}
  !! "X-User" = Some ["mallory"; "alice"].
Proof.
  destruct (X14_mapClaimsToHeaders_appends_claims
              (fun _ => None) (fun _ => "") {[ "x-user" := "sub" ]}
              [("x-user", "sub")] false {[ "sub" := Str "alice" ]}
              {[ "X-User" := ["mallory"] ]}) as (_ & _ & H).
  - by rewrite map_to_list_singleton.
  - specialize (H "x-user" "sub"). cbv zeta in H. apply H.
    + reflexivity.
    + intros other [c Hc] _.
      apply lookup_singleton_Some in Hc as [Hc _]. by symmetry.
Defined.

(** ** The environment *)

Lemma split_on_nonempty sep s : split_on sep s <> [].
Proof.
  destruct s as [|c s]; simpl; [done|].
  destruct (Ascii.eqb c sep); [done|]. by destruct (split_on sep s).
Qed.

Lemma split_on_notin sep s : sep ∉ s -> split_on sep s = [s].
Proof.
  induction s as [|c s IH]; intros Hnotin; simpl; [done|].
  apply not_elem_of_cons in Hnotin as [Hne Hnotin].
  destruct (Ascii.eqb_spec c sep) as [->|_]; [done|]. by rewrite IH.
Qed.

Lemma split_on_app sep k r :
  sep ∉ k -> split_on sep (k ++ sep :: r) = k :: split_on sep r.
Proof.
  induction k as [|c k IH]; intros Hnotin; simpl.
  - by rewrite Ascii.eqb_refl.
  - apply not_elem_of_cons in Hnotin as [Hne Hnotin].
    destruct (Ascii.eqb_spec c sep) as [->|_]; [done|]. by rewrite IH.
Qed.

Lemma split_on_cons_inv sep s k rest :
  split_on sep s = k :: rest ->
  (sep ∉ k)
  /\ ((rest = [] /\ s = k)
      \/ exists r, s = (k ++ sep :: r)%list /\ rest = split_on sep r).
Proof.
  revert k rest. induction s as [|c s IH]; intros k rest; simpl.
  - intros [= <- <-]. split; [apply not_elem_of_nil|]. by left.
  - destruct (Ascii.eqb_spec c sep) as [->|Hne].
    + intros [= <- <-]. split; [apply not_elem_of_nil|]. right. by exists s.
    + destruct (split_on sep s) as [|piece pieces] eqn:Hs.
      { by destruct (split_on_nonempty sep s). }
      intros [= <- <-]. destruct (IH piece pieces eq_refl) as [Hnotin Hcases].
      split.
      * apply not_elem_of_cons. split; [congruence|done].
      * destruct Hcases as [[-> ->]|(r & -> & ->)]; [by left|].
        right. by exists r.
Qed.

Lemma string_of_chars s : string_of_list_ascii (GoString.chars s) = s.
Proof. apply string_of_list_ascii_of_string. Qed.

Lemma chars_of_list l : GoString.chars (string_of_list_ascii l) = l.
Proof. apply list_ascii_of_string_of_list_ascii. Qed.

Lemma string_of_list_app a b :
  string_of_list_ascii (a ++ b) = string_of_list_ascii a +:+ string_of_list_ascii b.
Proof. apply chars_inj. by rewrite chars_append, !chars_of_list. Qed.

Lemma Split_entry key val tail :
  "="%char ∉ GoString.chars key -> "="%char ∉ GoString.chars val ->
  cut_tail tail ->
  exists rest, Split (key +:+ "=" +:+ val +:+ tail) "=" = key :: val :: rest.
Proof.
  intros Hkey Hval Htail. unfold Split.
  rewrite chars_append. change (GoString.chars ("=" +:+ val +:+ tail))
    with ("="%char :: GoString.chars (val +:+ tail)).
  rewrite split_on_app by done. rewrite chars_append.
  destruct Htail as [->|[t ->]].
  - simpl. rewrite app_nil_r, split_on_notin by done. simpl.
    exists []. by rewrite !string_of_chars.
  - change (GoString.chars ("=" +:+ t)) with ("="%char :: GoString.chars t).
    rewrite split_on_app by done. simpl. eexists.
    by rewrite !string_of_chars.
Qed.

Lemma Split_inv variable key val rest :
  Split variable "=" = key :: val :: rest ->
  exists tail,
    variable = key +:+ "=" +:+ val +:+ tail
    /\ ("="%char ∉ GoString.chars key) /\ ("="%char ∉ GoString.chars val)
    /\ cut_tail tail.
Proof.
  unfold Split. intros Hsplit.
  destruct (split_on "=" (GoString.chars variable)) as [|k [|v pieces]] eqn:Hs;
    try done.
  simpl in Hsplit. injection Hsplit as <- <- _.
  apply split_on_cons_inv in Hs as [Hk [[? _]|(r & Hvar & Hr)]]; [done|].
  symmetry in Hr. apply split_on_cons_inv in Hr as [Hv Hcases].
  assert (variable = string_of_list_ascii k +:+ "="
                     +:+ string_of_list_ascii r) as Hvariable.
  { apply chars_inj. rewrite chars_append.
    change (GoString.chars ("=" +:+ string_of_list_ascii r))
      with ("="%char :: GoString.chars (string_of_list_ascii r)).
    by rewrite !chars_of_list. }
  rewrite !chars_of_list.
  destruct Hcases as [[_ ->]|(r' & -> & _)].
  - exists "". split_and!; [|done|done|by left].
    rewrite Hvariable. f_equal. f_equal. apply chars_inj.
    by rewrite chars_append, app_nil_r.
  - exists ("=" +:+ string_of_list_ascii r'). split_and!; [|done|done|].
    + rewrite Hvariable. f_equal. f_equal.
      by rewrite string_of_list_app.
    + right. by eexists.
Qed.

Lemma Split_single variable :
  (exists key, Split variable "=" = [key])
  <-> "="%char ∉ GoString.chars variable.
Proof.
  unfold Split. split.
  - intros [key Hsplit].
    destruct (split_on "=" (GoString.chars variable)) as [|k [|v pieces]] eqn:Hs;
      try done.
    apply split_on_cons_inv in Hs as [Hk [[_ ->]|(r & _ & Hr)]]; [done|].
    by destruct (split_on_nonempty "=" r).
  - intros Hnotin. rewrite split_on_notin by done. by eexists.
Qed.

Lemma Split_cases variable :
  (exists key, Split variable "=" = [key])
  \/ exists key val rest, Split variable "=" = key :: val :: rest.
Proof.
  unfold Split.
  destruct (split_on "=" (GoString.chars variable)) as [|k [|v pieces]] eqn:Hs.
  - by destruct (split_on_nonempty "=" (GoString.chars variable)).
  - left. by eexists.
  - right. by do 3 eexists.
Qed.

Lemma environment_loop_Panic environ variables :
  environment_loop environ variables = Panic
  <-> exists variable,
        variable ∈ environ /\ "="%char ∉ GoString.chars variable.
Proof.
  revert variables. induction environ as [|variable environ IH];
    intros variables; simpl.
  - split; [done|]. intros (? & Hin & _). by apply elem_of_nil in Hin.
  - destruct (Split_cases variable) as [[key Hs]|(key & val & rest & Hs)].
    + rewrite Hs. split; [|done]. intros _. exists variable.
      split; [left|]. apply Split_single. by exists key.
    + rewrite Hs, IH. split.
      * intros (v & Hin & Hv). exists v. split; [by right|done].
      * intros (v & [->|Hin]%elem_of_cons & Hv); [|by exists v].
        apply Split_single in Hv as [k Hk]. congruence.
Qed.

Lemma environment_loop_origin environ variables result key val :
  environment_loop environ variables = Ok result ->
  result !! key = Some val ->
  variables !! key = Some val
  \/ exists tail,
       (key +:+ "=" +:+ val +:+ tail) ∈ environ
       /\ ("="%char ∉ GoString.chars key) /\ ("="%char ∉ GoString.chars val)
       /\ cut_tail tail.
Proof.
  revert variables. induction environ as [|variable environ IH];
    intros variables; simpl.
  - intros [= <-] Hkey. by left.
  - destruct (Split variable "=") as [|k [|v rest]] eqn:Hs; try done.
    intros Hloop Hkey.
    destruct (IH _ Hloop Hkey) as [Hhere|(tail & Hin & ?)].
    + destruct (decide (k = key)) as [->|Hne].
      * rewrite lookup_insert_eq in Hhere. injection Hhere as ->.
        apply Split_inv in Hs as (tail & -> & ?). right. exists tail.
        split; [left|done].
      * rewrite lookup_insert_ne in Hhere by done. by left.
    + right. exists tail. split; [by right|done].
Qed.

Lemma environment_loop_other environ variables result key :
  environment_loop environ variables = Ok result ->
  (forall variable rest,
      variable ∈ environ -> variable <> key +:+ "=" +:+ rest) ->
  result !! key = variables !! key.
Proof.
  revert variables. induction environ as [|variable environ IH];
    intros variables; simpl.
  - by intros [= <-].
  - destruct (Split variable "=") as [|k [|v rest]] eqn:Hs; try done.
    intros Hloop Hother. rewrite (IH _ Hloop).
    + apply lookup_insert_ne. intros ->.
      apply Split_inv in Hs as (tail & Hvar & _).
      by apply (Hother variable (v +:+ tail)); [left|].
    + intros variable' rest' Hin. apply Hother. by right.
Qed.

Lemma environment_loop_app before after variables :
  environment_loop (before ++ after) variables
  = (middle ← environment_loop before variables;
     environment_loop after middle).
Proof.
  revert variables. induction before as [|variable before IH];
    intros variables; simpl; [done|].
  destruct (Split variable "=") as [|k [|v rest]]; try done.
Qed.

(** X15. [environment] panics exactly when some entry of the process
    environment has no ["="]. Otherwise every variable of the map comes
    from an entry that starts with its name, ["="] and its value, the
    value being cut at the next ["="] of the entry; and of the entries
    for a name the last one counts. *)
Theorem X15_environment_cuts_values_at_equals (environ : list string) :
  (environment environ = Panic
   <-> exists variable,
         variable ∈ environ /\ "="%char ∉ GoString.chars variable)
  /\ (forall variables,
        environment environ = Ok variables ->
        (forall key val,
            variables !! key = Some val ->
            exists tail,
              (key +:+ "=" +:+ val +:+ tail) ∈ environ
              /\ ("="%char ∉ GoString.chars key)
              /\ ("="%char ∉ GoString.chars val)
              /\ (tail = "" \/ exists t, tail = "=" +:+ t))
        /\ (forall before after key val tail,
              environ = (before ++ (key +:+ "=" +:+ val +:+ tail) :: after)%list ->
              "="%char ∉ GoString.chars key ->
              "="%char ∉ GoString.chars val ->
              (tail = "" \/ exists t, tail = "=" +:+ t) ->
              (forall variable rest,
                  variable ∈ after -> variable <> key +:+ "=" +:+ rest) ->
              variables !! key = Some val)).
Proof.
  unfold environment. split; [apply environment_loop_Panic|].
  intros variables Hloop. split.
  - intros key val Hkey.
    by destruct (environment_loop_origin _ _ _ _ _ Hloop Hkey) as [?|?].
  - intros before after key val tail -> Hk Hv Htail Hafter.
    rewrite environment_loop_app in Hloop.
    destruct (environment_loop before ∅) as [middle|] eqn:Hbefore; [|done].
    simpl in Hloop.
    destruct (Split_entry key val tail Hk Hv Htail) as [rest Hs].
    rewrite Hs in Hloop.
    rewrite (environment_loop_other _ _ _ key Hloop Hafter).
    apply lookup_insert_eq.
Qed.

Lemma X15_environment_witness :
  exists variables,
    environment ["PATH=/bin"; "OPTS=a=b"] = Ok variables
    /\ variables !! "OPTS" = Some "a".
Proof.
  exists {[ "OPTS" := "a"; "PATH" := "/bin" ]}.
  assert (environment ["PATH=/bin"; "OPTS=a=b"]
          = Ok {[ "OPTS" := "a"; "PATH" := "/bin" ]}) as Hrun
    by (vm_compute; reflexivity).
  split; [done|].
  destruct (X15_environment_cuts_values_at_equals ["PATH=/bin"; "OPTS=a=b"])
    as (_ & H).
  destruct (H _ Hrun) as [_ Hlast].
  apply (Hlast ["PATH=/bin"] [] "OPTS" "a" "=b").
  - reflexivity.
  - cbn. repeat (apply not_elem_of_cons; split; [discriminate|]).
    apply not_elem_of_nil.
  - cbn. repeat (apply not_elem_of_cons; split; [discriminate|]).
    apply not_elem_of_nil.
  - right. by exists "b".
  - intros variable rest Hin. by apply elem_of_nil in Hin.
Defined.

(** ** The token in a header *)

(** X16. [extractTokenFromHeader] indexes the header map by the configured
    name as it is written: in a request as the HTTP server builds it,
    whose header names are canonical, a configured name that is not in
    canonical form (authorization, say) finds no token, and the request
    is left as it is. *)
Theorem X16_header_name_is_not_canonicalized
    (plugin : JWTPlugin) (request : Request) :
  ServerRequest request ->
  Textproto.CanonicalMIMEHeaderKey (headerName plugin) <> headerName plugin ->
  extractTokenFromHeader plugin request = Ok ("", request)
  /\ headerSource plugin request = "".
Proof.
  intros Hserver Hname. unfold extractTokenFromHeader, headerSource.
  destruct (HeaderMap request !! headerName plugin) as [values|] eqn:Hvalues.
  - by destruct (Hserver _ _ Hvalues) as [? _].
  - split; [done|]. by destruct (String.eqb (headerName plugin) "").
Qed.

Lemma X16_header_name_witness :
  extractTokenFromHeader
    {| secret := HMACSecret "fixed secret"; issuers := [];
       require := ∅; keys := ∅; issuerKeys := {[ "internal" := ∅ ]};
       optional := false; cookieName := ""; headerName := "authorization";
       parameterName := ""; forwardToken := true; freshness := 3600 |}
    request_bearer
  = Ok ("", request_bearer).
Proof.
  refine (proj1 (X16_header_name_is_not_canonicalized _ request_bearer _ _)).
  - intros name values Hlookup. unfold request_bearer in Hlookup.
    cbn [HeaderMap] in Hlookup.
    apply lookup_singleton_Some in Hlookup as [<- <-]. by split.
  - simpl. discriminate.
Defined.

Lemma take_append p t : GoString.take (String.length p) (p +:+ t) = p.
Proof.
  unfold GoString.take. induction p as [|c p IH]; simpl.
  - by destruct t.
  - by rewrite IH.
Qed.

Lemma substring_all t : String.substring 0 (String.length t) t = t.
Proof. induction t as [|c t IH]; simpl; [done|]. by rewrite IH. Qed.

Lemma drop_append p t : GoString.drop (String.length p) (p +:+ t) = t.
Proof.
  unfold GoString.drop. induction p as [|c p IH]; simpl.
  - rewrite Nat.sub_0_r. apply substring_all.
  - apply IH.
Qed.

Lemma take_drop n s :
  (n <= String.length s)%nat -> s = GoString.take n s +:+ GoString.drop n s.
Proof.
  unfold GoString.take, GoString.drop. revert s.
  induction n as [|n IH]; intros s Hn.
  - rewrite Nat.sub_0_r, substring_all. by destruct s.
  - destruct s as [|c s]; simpl in *; [lia|].
    change (String c (substring 0 n s) +:+ ?y)
      with (String c (substring 0 n s +:+ y)).
    f_equal. apply IH. lia.
Qed.

Lemma length_take n s :
  (n <= String.length s)%nat -> String.length (GoString.take n s) = n.
Proof.
  unfold GoString.take. revert s. induction n as [|n IH]; intros s Hn.
  - by destruct s.
  - destruct s as [|c s]; simpl in *; [lia|]. rewrite IH; [done|lia].
Qed.

(** X17. From the value of the header, [extractTokenFromHeader] cuts off
    one prefix of seven bytes that is "Bearer " in any letter case, and
    nothing else: what follows such a prefix is the token, whatever it is,
    and a value without such a prefix is the token as it is. *)
Theorem X17_bearer_prefix_is_cut_once (token : string) :
  (forall prefix rest,
      token = prefix +:+ rest -> String.length prefix = 7%nat ->
      GoString.EqualFold prefix "Bearer " = true ->
      stripBearer token = rest)
  /\ ((forall prefix rest,
          token = prefix +:+ rest -> String.length prefix = 7%nat ->
          GoString.EqualFold prefix "Bearer " = false) ->
      stripBearer token = token)
  /\ (stripBearer token = token
      \/ exists prefix,
           token = prefix +:+ stripBearer token
           /\ String.length prefix = 7%nat
           /\ GoString.EqualFold prefix "Bearer " = true).
Proof.
  assert (forall prefix rest, String.length prefix = 7%nat ->
            Nat.leb 7 (String.length (prefix +:+ rest)) = true) as Hlen.
  { intros prefix rest Hp. apply Nat.leb_le.
    rewrite <- !length_chars, chars_append, length_app, !length_chars. lia. }
  split; [|split].
  - intros prefix rest -> Hp Hfold. unfold stripBearer.
    rewrite (Hlen _ _ Hp), <- Hp, take_append, Hfold. simpl.
    apply drop_append.
  - intros Hnone. unfold stripBearer.
    destruct (Nat.leb 7 (String.length token)) eqn:Hseven; [|done].
    apply Nat.leb_le in Hseven.
    rewrite (Hnone (GoString.take 7 token) (GoString.drop 7 token)); [done| |].
    + by apply take_drop.
    + by apply length_take.
  - unfold stripBearer.
    destruct (Nat.leb 7 (String.length token)) eqn:Hseven; [|by left].
    apply Nat.leb_le in Hseven.
    destruct (GoString.EqualFold (GoString.take 7 token) "Bearer ") eqn:Hfold;
      [|by left].
    right. exists (GoString.take 7 token). simpl.
    split; [by apply take_drop|]. split; [by apply length_take|done].
Qed.

Lemma X17_bearer_prefix_witness :
  stripBearer "bEaReR Bearer abc" = "Bearer abc".
Proof.
  destruct (X17_bearer_prefix_is_cut_once "bEaReR Bearer abc") as (H & _).
  apply (H "bEaReR " "Bearer abc"); reflexivity.
Defined.

(** ** The middleware entry point *)

Lemma validate_rejected Parse plugin now request variables status e request' :
  validate Parse plugin now request variables = Ok (status, Some e, request') ->
  status = StatusUnauthorized \/ status = StatusForbidden.
Proof.
  unfold validate.
  destruct (extractToken plugin request) as [[token rq]|]; [|done]. simpl.
  destruct (String.eqb token "").
  { destruct (optional plugin); simpl; [done|]. intros [= <- _ _]. by left. }
  destruct (Parse token) as [[err|claims]|]; simpl; [|..|done].
  { intros [= <- _ _]. by left. }
  unfold validateParsed.
  destruct (validateClaims plugin claims variables); simpl; [|done].
  destruct (allowRefresh plugin now claims) as [[|]|]; simpl; [| |done].
  - intros [= <- _ _]. by left.
  - intros [= <- _ _]. by right.
Qed.

(** X18. [NewTemplateVariables]: the variables Method, Host, Path, Scheme
    and URL are those of the request, whatever the environment holds under
    these names, and every other variable is the environment variable of
    that name. For a request whose URL has no host, Scheme is the first
    X-Forwarded-Proto value, or https when that is empty, so it is never
    empty, and URL is Scheme, "://", Host and Path. *)
Theorem X18_request_variables_override_environment
    (environment : gmap string string) (line : RequestLine)
    (header : gmap string (list string)) :
  let variables := NewTemplateVariables environment line header in
  variables !! "Method" = Some (Method line)
  /\ variables !! "Host" = Some (Host line)
  /\ variables !! "Path" = Some (URL_RequestURI line)
  /\ (forall name,
        name ∉ ["Method"; "Host"; "Path"; "Scheme"; "URL"] ->
        variables !! name = environment !! name)
  /\ (URL_Host line <> "" ->
      variables !! "Scheme" = Some (URL_Scheme line)
      /\ variables !! "URL" = Some (URL_String line))
  /\ (URL_Host line = "" ->
      exists scheme,
        scheme <> ""
        /\ (Header_Get header "X-Forwarded-Proto" <> "" ->
            scheme = Header_Get header "X-Forwarded-Proto")
        /\ (Header_Get header "X-Forwarded-Proto" = "" -> scheme = "https")
        /\ variables !! "Scheme" = Some scheme
        /\ variables !! "URL"
           = Some (scheme +:+ "://" +:+ Host line +:+ URL_RequestURI line)).
Proof.
  cbv zeta. unfold NewTemplateVariables.
  destruct (String.eqb_spec (URL_Host line) "") as [Hhost|Hhost]; simpl.
  - split_and!.
    + rewrite !lookup_insert_ne by done. by rewrite lookup_insert_eq.
    + rewrite !lookup_insert_ne by done. by rewrite lookup_insert_eq.
    + rewrite !lookup_insert_ne by done. by rewrite lookup_insert_eq.
    + intros name Hname. rewrite !not_elem_of_cons in Hname.
      destruct Hname as (? & ? & ? & ? & ? & _).
      by rewrite !lookup_insert_ne by done.
    + done.
    + intros _.
      destruct (String.eqb_spec (Header_Get header "X-Forwarded-Proto") "")
        as [Hproto|Hproto].
      * exists "https". split_and!; try done.
        -- rewrite lookup_insert_ne by done. by rewrite lookup_insert_eq.
        -- by rewrite lookup_insert_eq.
      * exists (Header_Get header "X-Forwarded-Proto").
        split_and!; try done.
        -- rewrite lookup_insert_ne by done. by rewrite lookup_insert_eq.
        -- by rewrite lookup_insert_eq.
  - split_and!.
    + rewrite !lookup_insert_ne by done. by rewrite lookup_insert_eq.
    + rewrite !lookup_insert_ne by done. by rewrite lookup_insert_eq.
    + rewrite !lookup_insert_ne by done. by rewrite lookup_insert_eq.
    + intros name Hname. rewrite !not_elem_of_cons in Hname.
      destruct Hname as (? & ? & ? & ? & ? & _).
      by rewrite !lookup_insert_ne by done.
    + intros _. split.
      * rewrite lookup_insert_ne by done. by rewrite lookup_insert_eq.
      * by rewrite lookup_insert_eq.
    + done.
Qed.

Lemma X18_request_variables_witness :
  NewTemplateVariables
    {[ "Host" := "from the environment"; "Region" := "eu" ]}
    {| Method := "GET"; Host := "app.example.com"; URL_RequestURI := "/a?b=c";
       URL_Host := ""; URL_Scheme := ""; URL_String := "/a?b=c" |}
    {[ "X-Forwarded-Proto" := ["http"] ]}
  !! "URL" = Some "http://app.example.com/a?b=c".
Proof.
  destruct (X18_request_variables_override_environment
              {[ "Host" := "from the environment"; "Region" := "eu" ]}
              {| Method := "GET"; Host := "app.example.com";
                 URL_RequestURI := "/a?b=c"; URL_Host := ""; URL_Scheme := "";
                 URL_String := "/a?b=c" |}
              {[ "X-Forwarded-Proto" := ["http"] ]})
    as (_ & _ & _ & _ & _ & H).
  destruct (H eq_refl) as (scheme & _ & Hscheme & _ & _ & Hurl).
  rewrite Hurl, Hscheme; [vm_compute; reflexivity|vm_compute; discriminate].
Defined.

(** X19. What [ServeHTTP] answers, given the status and the error of
    [validate]: the request goes to the next handler exactly when there is
    no error. Without an unauthorized-redirect template there is never a
    redirect nor a 500, and the forbidden-redirect template has no effect;
    a redirect goes to the expansion of the forbidden template only for a
    403 with both templates configured, and of the unauthorized template
    otherwise. A gRPC answer carries grpc-status 16 for a 401 and 7 for a
    403, and always one of them; a plain answer carries the status, 401 or
    403, and the error of [validate]. *)
Theorem X19_ServeHTTP_answers
    (Parse : string -> result (string + MapClaims)) (plugin : JWTPlugin)
    (unauthorized forbidden : option Template)
    (environment : gmap string string) (now : Z)
    (request request' : Request) (line : RequestLine)
    (status : Z) (err : option string) :
  let variables := NewTemplateVariables environment line (HeaderMap request) in
  let answer forbidden :=
    ServeHTTP Parse plugin unauthorized forbidden environment now request
              line in
  validate Parse plugin now request variables = Ok (status, err, request') ->
  (answer forbidden = Ok Forward <-> err = None)
  /\ (unauthorized = None ->
      answer forbidden <> Ok InternalServerError
      /\ (forall url, answer forbidden <> Ok (Redirect url))
      /\ forall other, answer other = answer forbidden)
  /\ (forall url,
        answer forbidden = Ok (Redirect url) ->
        exists template,
          Execute template variables = Some url
          /\ ((status = StatusForbidden /\ forbidden = Some template
               /\ is_Some unauthorized)
              \/ ((status = StatusUnauthorized \/ forbidden = None)
                  /\ unauthorized = Some template)))
  /\ (forall sets,
        answer forbidden = Ok (Grpc sets) ->
        (status = StatusUnauthorized
         /\ sets = [("Content-Type", "application/grpc");
                    ("grpc-status", "16");
                    ("grpc-message", "UNAUTHENTICATED")])
        \/ (status = StatusForbidden
            /\ sets = [("Content-Type", "application/grpc");
                       ("grpc-status", "7");
                       ("grpc-message", "PERMISSION_DENIED")]))
  /\ (forall code body,
        answer forbidden = Ok (Error code body) ->
        err = Some body /\ code = status
        /\ (code = StatusUnauthorized \/ code = StatusForbidden)).
Proof.
  cbv zeta. intros Hvalidate. unfold ServeHTTP. rewrite Hvalidate. simpl.
  destruct err as [e|].
  2:{ split_and!; try done. }
  apply validate_rejected in Hvalidate as Hstatus.
  split_and!.
  - split; [|done]. destruct unauthorized as [u|].
    + by destruct (Execute _ _).
    + by destruct (hasToken _ _).
  - intros ->. split_and!; try done; by destruct (hasToken _ _).
  - intros url. destruct unauthorized as [u|].
    2:{ by destruct (hasToken _ _). }
    destruct forbidden as [f|].
    + destruct Hstatus as [-> | ->]; simpl.
      * destruct (Execute u _) as [url'|] eqn:Hu; [|done].
        intros [= <-]. exists u. split; [done|]. right. split; [by left|done].
      * destruct (Execute f _) as [url'|] eqn:Hf; [|done].
        intros [= <-]. exists f. split; [done|]. left. by split_and!.
    + destruct (Execute u _) as [url'|] eqn:Hu; [|done].
      intros [= <-]. exists u. split; [done|]. right. split; [by right|done].
  - intros sets. destruct unauthorized as [u|].
    { by destruct (Execute _ _). }
    destruct (hasToken _ _); [|done].
    destruct Hstatus as [-> | ->]; simpl; intros [= <-]; [by left|by right].
  - intros code body. destruct unauthorized as [u|].
    { by destruct (Execute _ _). }
    destruct (hasToken _ _); [done|]. by intros [= <- <-].
Qed.

Lemma X19_ServeHTTP_witness :
  ServeHTTP (fun _ => Ok (inl "token is malformed")) plugin_aud None None ∅
            now_2027 request_bearer
            {| Method := "GET"; Host := "app.example.com";
               URL_RequestURI := "/"; URL_Host := ""; URL_Scheme := "";
               URL_String := "/" |}
  <> Ok Forward.
Proof.
  destruct (X19_ServeHTTP_answers
              (fun _ => Ok (inl "token is malformed")) plugin_aud None None ∅
              now_2027 request_bearer request_bearer
              {| Method := "GET"; Host := "app.example.com";
                 URL_RequestURI := "/"; URL_Host := ""; URL_Scheme := "";
                 URL_String := "/" |}
              StatusUnauthorized (Some "token is malformed"))
    as ([H _] & _).
  - vm_compute. reflexivity.
  - intros Hforward. by apply H in Hforward.
Defined.

(** ** Fixed keys *)

Section KeySetupFacts.

Variable ParseEC : string -> string + (string * Z * Z).
Variable ParseRSA : string -> string + (Z * Z).

Lemma setupKey_rsa_HMAC raw key :
  setupKey_rsa ParseRSA raw = inr key ->
  (exists n e, key = RSAPublicKey n e
               /\ (HasPrefix raw "-----BEGIN RSA PUBLIC KEY"
                   || HasPrefix raw "-----BEGIN PUBLIC KEY") = true
               /\ ParseRSA raw = inr (n, e))
  \/ (key = HMACSecret raw
      /\ HasPrefix raw "-----BEGIN RSA PUBLIC KEY" = false
      /\ HasPrefix raw "-----BEGIN PUBLIC KEY" = false).
Proof.
  unfold setupKey_rsa.
  destruct (HasPrefix raw "-----BEGIN RSA PUBLIC KEY") eqn:Hrsa;
    destruct (HasPrefix raw "-----BEGIN PUBLIC KEY") eqn:Hpub; simpl.
  4:{ intros [= <-]. by right. }
  all: destruct (ParseRSA raw) as [err|[n e]]; [done|];
    intros [= <-]; left; by exists n, e.
Qed.

Lemma setupKey_NoKey raw :
  setupKey ParseEC ParseRSA raw = inr NoKey -> raw = "".
Proof.
  unfold setupKey, setupKey_rsa.
  destruct (String.eqb_spec raw "") as [->|Hraw]; [done|].
  destruct (HasPrefix raw "-----BEGIN EC PUBLIC KEY");
    destruct (HasPrefix raw "-----BEGIN RSA PUBLIC KEY");
    destruct (HasPrefix raw "-----BEGIN PUBLIC KEY"); simpl;
    destruct (ParseEC raw) as [err|[[curve x] y]];
    destruct (ParseRSA raw) as [err'|[n e]]; done.
Qed.

(** X20. [setupKey] returns no key, and no error, exactly for the empty
    text. A text that starts with none of the three PEM public-key
    markers is taken as it is as a shared HMAC secret, without an error,
    and only such a text is; a text marked as a public key that does not
    parse as an EC key gets what parsing it as an RSA key gives, and a
    text marked as an EC public key only what parsing it as an EC key
    gives. *)
Theorem X20_setupKey_kinds_of_key (raw : string) :
  let marked_ec := HasPrefix raw "-----BEGIN EC PUBLIC KEY" in
  let marked_rsa := HasPrefix raw "-----BEGIN RSA PUBLIC KEY" in
  let marked_public := HasPrefix raw "-----BEGIN PUBLIC KEY" in
  (setupKey ParseEC ParseRSA raw = inr NoKey <-> raw = "")
  /\ (raw <> "" -> marked_ec || marked_rsa || marked_public = false ->
      setupKey ParseEC ParseRSA raw = inr (HMACSecret raw))
  /\ (forall text,
        setupKey ParseEC ParseRSA raw = inr (HMACSecret text) ->
        text = raw /\ raw <> ""
        /\ marked_rsa = false /\ marked_public = false)
  /\ (forall err,
        setupKey ParseEC ParseRSA raw = inl err ->
        raw <> "" /\ marked_ec || marked_rsa || marked_public = true)
  /\ (raw <> "" -> marked_ec = true ->
      setupKey ParseEC ParseRSA raw
      = match ParseEC raw with
        | inl err => inl err
        | inr (curve, x, y) => inr (ECDSAPublicKey curve x y)
        end)
  /\ (raw <> "" -> marked_ec = false -> marked_public = true ->
      forall err, ParseEC raw = inl err ->
      setupKey ParseEC ParseRSA raw
      = match ParseRSA raw with
        | inl err => inl err
        | inr (n, e) => inr (RSAPublicKey n e)
        end).
Proof.
  cbv zeta. unfold setupKey, setupKey_rsa.
  destruct (String.eqb_spec raw "") as [->|Hraw].
  { split_and!; try done. }
  destruct (HasPrefix raw "-----BEGIN EC PUBLIC KEY") eqn:Hec;
    destruct (HasPrefix raw "-----BEGIN RSA PUBLIC KEY") eqn:Hrsa;
    destruct (HasPrefix raw "-----BEGIN PUBLIC KEY") eqn:Hpub; simpl;
    destruct (ParseEC raw) as [err|[[curve x] y]];
    destruct (ParseRSA raw) as [err'|[n e]];
    split_and!; try done;
    try (intros text [= <-]; by split_and!);
    try (by intros ? [= <-]).
Qed.

Lemma New_secrets_error entries keys :
  (exists err, New_secrets ParseEC ParseRSA entries keys = inl err)
  <-> exists kid raw,
        (kid, raw) ∈ entries
        /\ (raw = "" \/ exists err, setupKey ParseEC ParseRSA raw = inl err).
Proof.
  pose proof setupKey_NoKey as Hempty.
  revert keys. induction entries as [|[kid raw] entries IH]; intros keys; simpl.
  - split; [by intros [? ?]|]. intros (? & ? & Hin & _).
    by apply elem_of_nil in Hin.
  - destruct (setupKey ParseEC ParseRSA raw) as [err|key] eqn:Hkey.
    + split; [|by eexists]. intros _. exists kid, raw. split; [left|].
      right. by exists err.
    + destruct (decide (key = NoKey)) as [->|Hne].
      * split; [|by eexists]. intros _. exists kid, raw. split; [left|].
        left. by apply Hempty.
      * rewrite IH. split.
        -- intros (k & r & Hin & H). exists k, r. split; [by right|done].
        -- intros (k & r & [[= -> ->]|Hin]%elem_of_cons & H);
             [|by exists k, r].
           destruct H as [->|[err Herr]]; [|congruence].
           unfold setupKey in Hkey. simpl in Hkey. congruence.
Qed.

Lemma New_secrets_lookup entries keys result kid key :
  NoDup entries.*1 ->
  New_secrets ParseEC ParseRSA entries keys = inr result ->
  result !! kid = Some key
  <-> (exists raw, (kid, raw) ∈ entries
                   /\ setupKey ParseEC ParseRSA raw = inr key)
      \/ ((kid ∉ entries.*1) /\ keys !! kid = Some key).
Proof.
  revert keys. induction entries as [|[k raw] entries IH]; intros keys Hnodup;
    simpl.
  - intros [= <-]. split.
    + intros Hkey. right. split; [apply not_elem_of_nil|done].
    + intros [(? & Hin & _)|[_ ?]]; [|done]. by apply elem_of_nil in Hin.
  - apply NoDup_cons in Hnodup as [Hnotin Hnodup].
    destruct (setupKey ParseEC ParseRSA raw) as [err|key'] eqn:Hkey; [done|].
    destruct (decide (key' = NoKey)); [done|].
    intros Hloop. rewrite (IH _ Hnodup Hloop). split.
    + intros [(r & Hin & Hr)|[Hnot Hlookup]].
      * left. exists r. split; [by right|done].
      * destruct (decide (k = kid)) as [->|Hne].
        -- rewrite lookup_insert_eq in Hlookup. injection Hlookup as ->.
           left. exists raw. split; [left|done].
        -- rewrite lookup_insert_ne in Hlookup by done. right.
           split; [|done]. apply not_elem_of_cons. by split.
    + intros [(r & [[= -> ->]|Hin]%elem_of_cons & Hr)|[Hnot Hlookup]].
      * right. split; [done|]. rewrite lookup_insert_eq. congruence.
      * left. by exists r.
      * apply not_elem_of_cons in Hnot as [Hne Hnot]. right.
        split; [done|]. by rewrite lookup_insert_ne.
Qed.

(** X21. The loop of [New] over the configured secrets, in whatever order
    it visits them: [New] fails exactly when some secret is empty or
    [setupKey] fails on it. Otherwise the cache holds, under each
    configured key ID and no other, the key [setupKey] makes of its
    secret, which is never nil; and a plugin with these keys and the
    dummy key set recorded under "internal" is where the life of the
    cache starts, with every cached key held by a source. *)
Theorem X21_New_caches_the_configured_secrets
    (secrets : gmap string string) (entries : list (string * string)) :
  entries ≡ₚ map_to_list secrets ->
  ((exists err, New_secrets ParseEC ParseRSA entries ∅ = inl err)
   <-> exists kid raw,
         secrets !! kid = Some raw
         /\ (raw = "" \/ exists err, setupKey ParseEC ParseRSA raw = inl err))
  /\ (forall cache,
        New_secrets ParseEC ParseRSA entries ∅ = inr cache ->
        (forall kid key,
            cache !! kid = Some key
            <-> exists raw, secrets !! kid = Some raw
                            /\ setupKey ParseEC ParseRSA raw = inr key)
        /\ (forall kid, cache !! kid <> Some NoKey)
        /\ (forall plugin,
              keys plugin = cache ->
              issuerKeys plugin
              = {[ "internal" := internalIssuerKeys secrets ]} ->
              reachable cache plugin /\ cache_invariant plugin)).
Proof.
  intros Hperm.
  assert (forall kid raw, (kid, raw) ∈ entries <-> secrets !! kid = Some raw)
    as Hentries.
  { intros kid raw. rewrite Hperm. apply elem_of_map_to_list. }
  assert (NoDup entries.*1) as Hnodup.
  { rewrite Hperm. apply NoDup_fst_map_to_list. }
  split.
  - rewrite New_secrets_error. split;
      intros (kid & raw & Hin & H); exists kid, raw; by rewrite Hentries in *.
  - intros cache Hloop.
    assert (forall kid key,
               cache !! kid = Some key
               <-> exists raw, secrets !! kid = Some raw
                               /\ setupKey ParseEC ParseRSA raw = inr key)
      as Hkeys.
    { intros kid key. rewrite (New_secrets_lookup _ _ _ kid key Hnodup Hloop).
      split.
      - intros [(raw & Hin & Hraw)|[_ ?]]; [|done].
        exists raw. by rewrite <- Hentries.
      - intros (raw & Hin & Hraw). left. exists raw. by rewrite Hentries. }
    assert (forall kid, cache !! kid <> Some NoKey) as Hnonil.
    { intros kid Hkid. apply Hkeys in Hkid as (raw & Hraw & Hsetup).
      assert (exists err, New_secrets ParseEC ParseRSA entries ∅ = inl err)
        as [err Herr]; [|congruence].
      apply New_secrets_error. exists kid, raw. split; [by apply Hentries|].
      left. by apply setupKey_NoKey. }
    split; [done|]. split; [done|].
    intros plugin Hplugin Hinternal.
    assert (internalIssuerKeys secrets = internalIssuerKeys cache) as Hsame.
    { apply map_eq. intros kid. unfold internalIssuerKeys.
      rewrite !lookup_fmap.
      destruct (secrets !! kid) as [raw|] eqn:Hraw;
        destruct (cache !! kid) as [key|] eqn:Hkey; simpl; try done.
      - exfalso.
        destruct (setupKey ParseEC ParseRSA raw) as [err|key] eqn:Hsetup.
        + assert (exists err, New_secrets ParseEC ParseRSA entries ∅ = inl err)
            as [err' Herr]; [|congruence].
          apply New_secrets_error. exists kid, raw.
          split; [by apply Hentries|]. right. by exists err.
        + assert (cache !! kid = Some key) as Hk; [|congruence].
          apply Hkeys. by exists raw.
      - apply Hkeys in Hkey as (raw & ? & _). congruence. }
    assert (reachable cache plugin) as Hreach.
    { apply reachable_New; [done|]. by rewrite Hinternal, Hsame. }
    split; [done|]. by eapply reachable_invariant.
Qed.

End KeySetupFacts.

Lemma X21_New_caches_witness :
  exists cache,
    New_secrets (fun _ => inl "not an EC key") (fun _ => inl "not an RSA key")
                [("k1", "swordfish")] ∅ = inr cache
    /\ cache !! "k1" = Some (HMACSecret "swordfish").
Proof.
  exists {[ "k1" := HMACSecret "swordfish" ]}.
  assert (New_secrets (fun _ => inl "not an EC key")
                      (fun _ => inl "not an RSA key")
                      [("k1", "swordfish")] ∅
          = inr {[ "k1" := HMACSecret "swordfish" ]}) as Hrun
    by (vm_compute; reflexivity).
  split; [done|].
  destruct (X21_New_caches_the_configured_secrets
              (fun _ => inl "not an EC key") (fun _ => inl "not an RSA key")
              {[ "k1" := "swordfish" ]} [("k1", "swordfish")]) as [_ H].
  - by rewrite map_to_list_singleton.
  - destruct (H _ Hrun) as (Hkeys & _). apply Hkeys.
    exists "swordfish". split; [apply lookup_singleton_eq|].
    vm_compute. reflexivity.
Defined.

(** ** JSON web key sets *)

Section JWKSFacts.

Variable DecodeString : string -> option (list Byte.byte).
Variable Sum256 : string -> string.

Lemma jwks_keys_snoc jwks jwk :
  jwks_keys DecodeString Sum256 (jwks ++ [jwk])
  = match jwk_key DecodeString jwk with
    | Some key =>
        <[jwk_kid Sum256 jwk := key]> (jwks_keys DecodeString Sum256 jwks)
    | None => jwks_keys DecodeString Sum256 jwks
    end.
Proof. unfold jwks_keys. by rewrite foldl_app. Qed.

Lemma jwks_keys_origin jwks kid key :
  jwks_keys DecodeString Sum256 jwks !! kid = Some key ->
  exists jwk, jwk ∈ jwks /\ jwk_kid Sum256 jwk = kid
              /\ jwk_key DecodeString jwk = Some key.
Proof.
  induction jwks as [|jwk jwks IH] using rev_ind; [done|].
  rewrite jwks_keys_snoc. intros Hkey.
  assert (jwks_keys DecodeString Sum256 jwks !! kid = Some key ->
          exists j, j ∈ (jwks ++ [jwk])%list /\ jwk_kid Sum256 j = kid
                    /\ jwk_key DecodeString j = Some key) as Hold.
  { intros H. destruct (IH H) as (j & Hin & ?). exists j.
    split; [|done]. apply elem_of_app. by left. }
  destruct (jwk_key DecodeString jwk) as [key'|] eqn:Hjwk; [|by apply Hold].
  destruct (decide (jwk_kid Sum256 jwk = kid)) as [Heq|Hne].
  - rewrite Heq, lookup_insert_eq in Hkey. injection Hkey as ->.
    exists jwk. split; [|done]. apply elem_of_app. right. left.
  - rewrite lookup_insert_ne in Hkey by done. by apply Hold.
Qed.

Lemma jwks_keys_last before jwk after key :
  jwk_key DecodeString jwk = Some key ->
  (forall later, later ∈ after -> jwk_kid Sum256 later = jwk_kid Sum256 jwk ->
                 jwk_key DecodeString later = None) ->
  jwks_keys DecodeString Sum256 (before ++ jwk :: after)
  !! jwk_kid Sum256 jwk = Some key.
Proof.
  intros Hkey. induction after as [|later after IH] using rev_ind;
    intros Hafter.
  - rewrite jwks_keys_snoc, Hkey. apply lookup_insert_eq.
  - replace (before ++ jwk :: after ++ [later])%list
      with ((before ++ jwk :: after) ++ [later])%list
      by (by rewrite <- app_assoc).
    rewrite jwks_keys_snoc.
    assert (jwks_keys DecodeString Sum256 (before ++ jwk :: after)
            !! jwk_kid Sum256 jwk = Some key) as Hbefore.
    { apply IH. intros l Hl. apply Hafter, elem_of_app. by left. }
    destruct (jwk_key DecodeString later) as [key'|] eqn:Hlater; [|done].
    rewrite lookup_insert_ne; [done|]. intros Heq.
    assert (jwk_key DecodeString later = None); [|congruence].
    apply Hafter; [|done]. apply elem_of_app. right. left.
Qed.

(** X22. The key set [FetchJWKS] builds from the decoded keys: every key
    in it is the public key of a listed key, filed under the key ID of
    that key or, if it has none, under its thumbprint; of the listed keys
    that give a public key under the same key ID the last one counts. A
    listed key gives a public key only if its type is RSA or EC, and then
    an RSA key or an EC key on P-256, P-384 or P-521: keys of any other
    type, and keys with a number that does not decode, are left out
    without an error. *)
Theorem X22_FetchJWKS_files_public_keys (jwks : list JSONWebKey) :
  let keys := jwks_keys DecodeString Sum256 jwks in
  (forall kid key,
      keys !! kid = Some key ->
      exists jwk,
        jwk ∈ jwks /\ jwk_key DecodeString jwk = Some key
        /\ kid = (if String.eqb (jwk_Kid jwk) "" then JWKThumbprint Sum256 jwk
                  else jwk_Kid jwk))
  /\ (forall before jwk after key,
        jwks = (before ++ jwk :: after)%list ->
        jwk_key DecodeString jwk = Some key ->
        (forall later,
            later ∈ after -> jwk_kid Sum256 later = jwk_kid Sum256 jwk ->
            jwk_key DecodeString later = None) ->
        keys !! jwk_kid Sum256 jwk = Some key)
  /\ (forall jwk key,
        jwk_key DecodeString jwk = Some key ->
        (jwk_Kty jwk = "RSA" /\ exists n e, key = RSAPublicKey n e)
        \/ (jwk_Kty jwk = "EC"
            /\ exists curve x y,
                 key = ECDSAPublicKey curve x y
                 /\ curve ∈ ["P-256"; "P-384"; "P-521"]))
  /\ (forall jwk,
        jwk_Kty jwk = "RSA" ->
        DecodeString (TrimRight (jwk_N jwk) "=") = None
        \/ DecodeString (TrimRight (jwk_E jwk) "=") = None ->
        jwk_key DecodeString jwk = None).
Proof.
  cbv zeta. split_and!.
  - intros kid key Hkey.
    destruct (jwks_keys_origin _ _ _ Hkey) as (jwk & Hin & <- & Hjwk).
    by exists jwk.
  - intros before jwk after key -> Hkey Hafter. by apply jwks_keys_last.
  - intros jwk key. unfold jwk_key.
    destruct (String.eqb_spec (jwk_Kty jwk) "RSA") as [Hrsa|_].
    + destruct (DecodeString _); [|done]. destruct (DecodeString _); [|done].
      intros [= <-]. left. split; [done|]. by do 2 eexists.
    + destruct (String.eqb_spec (jwk_Kty jwk) "EC") as [Hec|_]; [|done].
      destruct (DecodeString _); [|done]. destruct (DecodeString _); [|done].
      intros [= <-]. right. split; [done|]. do 3 eexists. split; [done|].
      unfold jwk_curve.
      repeat (match goal with
              | |- context [String.eqb ?a ?b] => destruct (String.eqb a b)
              end);
        repeat (first [by left | right]).
  - intros jwk Hrsa Hbad. unfold jwk_key. rewrite Hrsa.
    change (String.eqb "RSA" "RSA") with true. cbv iota.
    destruct Hbad as [Hbad|Hbad]; rewrite Hbad; [done|].
    by destruct (DecodeString (TrimRight (jwk_N jwk) "=")).
Qed.

End JWKSFacts.

Lemma X22_FetchJWKS_witness :
  jwks_keys (fun _ => Some []) (fun text => "thumbprint")
            [ {| jwk_Kid := ""; jwk_Kty := "EC"; jwk_Alg := "ES384";
                 jwk_N := ""; jwk_E := ""; jwk_X := "AA"; jwk_Y := "AA";
                 jwk_Crv := "" |};
              {| jwk_Kid := "symmetric"; jwk_Kty := "oct"; jwk_Alg := "HS256";
                 jwk_N := ""; jwk_E := ""; jwk_X := ""; jwk_Y := "";
                 jwk_Crv := "" |} ]
  !! "thumbprint" = Some (ECDSAPublicKey "P-384" 0 0).
Proof.
  destruct (X22_FetchJWKS_files_public_keys
              (fun _ => Some []) (fun text => "thumbprint")
              [ {| jwk_Kid := ""; jwk_Kty := "EC"; jwk_Alg := "ES384";
                   jwk_N := ""; jwk_E := ""; jwk_X := "AA"; jwk_Y := "AA";
                   jwk_Crv := "" |};
                {| jwk_Kid := "symmetric"; jwk_Kty := "oct";
                   jwk_Alg := "HS256"; jwk_N := ""; jwk_E := ""; jwk_X := "";
                   jwk_Y := ""; jwk_Crv := "" |} ])
    as (_ & H & _).
  apply (H [] {| jwk_Kid := ""; jwk_Kty := "EC"; jwk_Alg := "ES384";
                 jwk_N := ""; jwk_E := ""; jwk_X := "AA"; jwk_Y := "AA";
                 jwk_Crv := "" |}
           [ {| jwk_Kid := "symmetric"; jwk_Kty := "oct"; jwk_Alg := "HS256";
                jwk_N := ""; jwk_E := ""; jwk_X := ""; jwk_Y := "";
                jwk_Crv := "" |} ]
           (ECDSAPublicKey "P-384" 0 0) eq_refl eq_refl).
  intros later Hlater _.
  apply list_elem_of_singleton in Hlater as ->. reflexivity.
Defined.

(** ** Template requirements *)

(** X23. A template requirement on a string claim made of characters that
    stand for themselves: the claim is accepted exactly when the template
    expands, with the variables of the request, to the claim itself. A
    template that does not expand, for a missing variable say, accepts no
    claim at all. *)
Theorem X23_template_requirement_on_literal_claim
    (requirement : TemplateRequirement) (s : string)
    (variables : TemplateVariables) :
  forallb literal (GoString.chars s) = true ->
  (TemplateRequirement_Validate requirement (Str s) variables = true
   <-> Execute (template requirement) variables = Some s)
  /\ (Execute (template requirement) variables = None ->
      forall v, TemplateRequirement_Validate requirement v variables = false).
Proof.
  intros Hlit. unfold TemplateRequirement_Validate.
  destruct (Execute (template requirement) variables) as [text|]; [|done].
  split; [|done]. rewrite Validate_Str. unfold ValidateString. simpl.
  destruct (literal_plain _ Hlit) as [Hplain Hstar].
  destruct (String.eqb_spec s ("*." +:+ text)) as [Heq|_].
  { exfalso. rewrite Heq, chars_append in Hlit. simpl in Hlit. done. }
  rewrite orb_false_r, Match_wild by done. rewrite wild_literal by done.
  split.
  - intros Htext. apply chars_inj in Htext. by subst.
  - by intros [= ->].
Qed.

Lemma X23_template_requirement_witness :
  TemplateRequirement_Validate
    {| template := {| Execute := fun variables => variables !! "Host" |};
       template_nested := Nil |}
    (Str "app.example.com") {[ "Host" := "app.example.com" ]}
  = true.
Proof.
  destruct (X23_template_requirement_on_literal_claim
              {| template := {| Execute := fun variables => variables !! "Host" |};
                 template_nested := Nil |}
              "app.example.com" {[ "Host" := "app.example.com" ]})
    as [H _].
  - vm_compute. reflexivity.
  - apply H. vm_compute. reflexivity.
Defined.
